(** * One backward step of a parabolic PDE solver: spatial discretization

    A shallow embedding of
    [tf_quant_finance/experimental/pde_v2/fd_backward_schemes/parabolic_equation_stepper.py].

    Numbers are exact rationals ([Qc]); rounding of machine floats is not
    modelled.  Tensors have rank at most two (a scalar, a vector, or a
    [batch x n] matrix), which covers the value fields [[K, N]] of the
    stepper.  Every operation of the array library that can raise is a
    function into [result]. *)

From Stdlib Require Import String QArith Qcanon ZArith Lia Bool List.
Import ListNotations.

Set Implicit Arguments.
Open Scope nat_scope.

(* ================================================================== *)
(** * Exceptions and the error monad *)

Inductive error : Type :=
| ValueError (msg : string)   (* an explicit [raise ValueError(msg)] *)
| NoneValue                   (* [None] where the array library needs a value *)
| NotCallable                 (* a call of [None] *)
| IndexOutOfRange             (* integer index outside an axis or a list *)
| ShapeMismatch.              (* shapes that neither broadcast nor concatenate *)

Inductive result (A : Type) : Type :=
| Ok (a : A)
| Err (e : error).

Arguments Ok {A} a.
Arguments Err {A} e.

Definition bind {A B : Type} (m : result A) (k : A -> result B) : result B :=
  match m with
  | Ok a => k a
  | Err e => Err e
  end.

Declare Scope result_scope.
Delimit Scope result_scope with result.
Notation "x <- m ;; k" := (bind m (fun x => k))
  (at level 61, m at next level, right associativity) : result_scope.
Notation "' p <- m ;; k" := (bind m (fun p => k))
  (at level 61, p pattern, m at next level, right associativity) : result_scope.
Open Scope result_scope.

Definition is_ok {A : Type} (m : result A) : bool :=
  match m with Ok _ => true | Err _ => false end.

(* ================================================================== *)
(** * Python sequences: integer indices and slices *)

(** [l[i]] with a possibly negative [i]: the position inside a sequence of
    length [n], or nothing when it falls outside. *)
Definition norm_index (n : nat) (i : Z) : option nat :=
  let j := if (i <? 0)%Z then (i + Z.of_nat n)%Z else i in
  if ((0 <=? j) && (j <? Z.of_nat n))%Z then Some (Z.to_nat j) else None.

Definition item {A : Type} (l : list A) (i : Z) : result A :=
  match norm_index (length l) i with
  | Some j =>
      match nth_error l j with
      | Some x => Ok x
      | None => Err IndexOutOfRange
      end
  | None => Err IndexOutOfRange
  end.

(** A slice bound is clamped to the sequence, never rejected. *)
Definition clamp_bound (n : nat) (b : Z) : nat :=
  let j := if (b <? 0)%Z then (b + Z.of_nat n)%Z else b in
  Z.to_nat (Z.min (Z.max j 0) (Z.of_nat n)).

Definition slice_start (n : nat) (lo : option Z) : nat :=
  match lo with Some z => clamp_bound n z | None => 0 end.

Definition slice_stop (n : nat) (hi : option Z) : nat :=
  match hi with Some z => clamp_bound n z | None => n end.

Definition slice_len (lo hi : option Z) (n : nat) : nat :=
  slice_stop n hi - slice_start n lo.

(** [l[lo:hi]] *)
Definition slice {A : Type} (lo hi : option Z) (l : list A) : list A :=
  firstn (slice_len lo hi (length l)) (skipn (slice_start (length l) lo) l).

Fixpoint map2 {A B C : Type} (f : A -> B -> C) (l1 : list A) (l2 : list B)
  : list C :=
  match l1, l2 with
  | a :: l1', b :: l2' => f a b :: map2 f l1' l2'
  | _, _ => []
  end.

(* ================================================================== *)
(** * Tensors of rank at most two *)

Inductive tensor : Type :=
| Scalar (x : Qc)
| Vec (v : list Qc)
| Mat (ncols : nat) (rows : list (list Qc)).

Definition shape (t : tensor) : list nat :=
  match t with
  | Scalar _ => []
  | Vec v => [length v]
  | Mat n rows => [length rows; n]
  end.

(** Every row of a matrix has the declared number of columns. *)
Definition wf (t : tensor) : bool :=
  match t with
  | Mat n rows => forallb (fun r => length r =? n) rows
  | _ => true
  end.

Definition two : Qc := (1 + 1)%Qc.

Definition Qc_list_eqb (l1 l2 : list Qc) : bool :=
  (length l1 =? length l2) && forallb (fun p => Qc_eq_bool (fst p) (snd p)) (combine l1 l2).

Definition tensor_eqb (a b : tensor) : bool :=
  match a, b with
  | Scalar x, Scalar y => Qc_eq_bool x y
  | Vec v, Vec w => Qc_list_eqb v w
  | Mat n r, Mat m s =>
      (n =? m) && (length r =? length s)
      && forallb (fun p => Qc_list_eqb (fst p) (snd p)) (combine r s)
  | _, _ => false
  end.

(** ** Broadcasting *)

(** Two axis lengths broadcast when they agree or one of them is 1. *)
Definition bdim (m n : nat) : result nat :=
  if m =? n then Ok m
  else if m =? 1 then Ok n
  else if n =? 1 then Ok m
  else Err ShapeMismatch.

(** An axis of length [m] broadcasts to a target length [n]. *)
Definition bdim_to (m n : nat) : result unit :=
  if m =? n then Ok tt
  else if m =? 1 then Ok tt
  else Err ShapeMismatch.

(** Repeat the single element of a length-1 axis [n] times. *)
Definition stretch {A : Type} (d : A) (n : nat) (l : list A) : list A :=
  if length l =? n then l else repeat (hd d l) n.

Definition brow (f : Qc -> Qc -> Qc) (n : nat) (r1 r2 : list Qc) : list Qc :=
  map2 f (stretch 0%Qc n r1) (stretch 0%Qc n r2).

(** An elementwise binary operation with broadcasting. *)
Definition binop (f : Qc -> Qc -> Qc) (a b : tensor) : result tensor :=
  match a, b with
  | Scalar x, Scalar y => Ok (Scalar (f x y))
  | Scalar x, Vec w => Ok (Vec (map (f x) w))
  | Vec v, Scalar y => Ok (Vec (map (fun x => f x y) v))
  | Vec v, Vec w =>
      n <- bdim (length v) (length w);;
      Ok (Vec (brow f n v w))
  | Scalar x, Mat n rows => Ok (Mat n (map (map (f x)) rows))
  | Mat n rows, Scalar y => Ok (Mat n (map (map (fun x => f x y)) rows))
  | Vec v, Mat n rows =>
      m <- bdim (length v) n;;
      Ok (Mat m (map (fun r => brow f m v r) rows))
  | Mat n rows, Vec w =>
      m <- bdim n (length w);;
      Ok (Mat m (map (fun r => brow f m r w) rows))
  | Mat n1 rows1, Mat n2 rows2 =>
      n <- bdim n1 n2;;
      k <- bdim (length rows1) (length rows2);;
      Ok (Mat n (map2 (brow f n) (stretch [] k rows1) (stretch [] k rows2)))
  end.

Definition tadd : tensor -> tensor -> result tensor := binop Qcplus.
Definition tsub : tensor -> tensor -> result tensor := binop Qcminus.
Definition tmul : tensor -> tensor -> result tensor := binop Qcmult.
Definition tdiv : tensor -> tensor -> result tensor := binop Qcdiv.

Definition tmap (f : Qc -> Qc) (t : tensor) : tensor :=
  match t with
  | Scalar x => Scalar (f x)
  | Vec v => Vec (map f v)
  | Mat n rows => Mat n (map (map f) rows)
  end.

(** unary minus *)
Definition tneg (t : tensor) : tensor := tmap Qcopp t.

(** [tf.zeros_like] *)
Definition zeros_like (t : tensor) : tensor := tmap (fun _ => 0%Qc) t.

(** [tf.broadcast_to] *)
Definition broadcast_to (t : tensor) (s : list nat) : result tensor :=
  match s, t with
  | [], Scalar x => Ok (Scalar x)
  | [n], Scalar x => Ok (Vec (repeat x n))
  | [n], Vec v =>
      _ <- bdim_to (length v) n;;
      Ok (Vec (stretch 0%Qc n v))
  | [k; n], Scalar x => Ok (Mat n (repeat (repeat x n) k))
  | [k; n], Vec v =>
      _ <- bdim_to (length v) n;;
      Ok (Mat n (repeat (stretch 0%Qc n v) k))
  | [k; n], Mat n0 rows =>
      _ <- bdim_to n0 n;;
      _ <- bdim_to (length rows) k;;
      Ok (Mat n (map (stretch 0%Qc n) (stretch [] k rows)))
  | _, _ => Err ShapeMismatch
  end.

(** [tf.convert_to_tensor] of a value that may be [None], and the same
    conversion applied by the arithmetic operators to an operand. *)
Definition convert_to_tensor (raw : option tensor) : result tensor :=
  match raw with
  | Some t => Ok t
  | None => Err NoneValue
  end.

(** ** Indexing and slicing *)

(** [t[i]] on the first axis. *)
Definition tensor_item (t : tensor) (i : Z) : result tensor :=
  match t with
  | Scalar _ => Err IndexOutOfRange
  | Vec v => x <- item v i;; Ok (Scalar x)
  | Mat _ rows => r <- item rows i;; Ok (Vec r)
  end.

(** [t[..., i]] on the last axis. *)
Definition last_item (t : tensor) (i : Z) : result tensor :=
  match t with
  | Scalar _ => Err IndexOutOfRange
  | Vec v => x <- item v i;; Ok (Scalar x)
  | Mat n rows =>
      match norm_index n i with
      | Some j => Ok (Vec (map (fun r => nth j r 0%Qc) rows))
      | None => Err IndexOutOfRange
      end
  end.

(** [t[lo:hi]] on the first axis. *)
Definition tensor_slice (lo hi : option Z) (t : tensor) : result tensor :=
  match t with
  | Scalar _ => Err IndexOutOfRange
  | Vec v => Ok (Vec (slice lo hi v))
  | Mat n rows => Ok (Mat n (slice lo hi rows))
  end.

(** [t[..., lo:hi]] on the last axis. *)
Definition last_slice (lo hi : option Z) (t : tensor) : result tensor :=
  match t with
  | Scalar _ => Err IndexOutOfRange
  | Vec v => Ok (Vec (slice lo hi v))
  | Mat n rows => Ok (Mat (slice_len lo hi n) (map (slice lo hi) rows))
  end.

(** [tf.expand_dims(t, -1)]; a rank-3 result is outside the model and is
    rejected the way the following [tf.concat] with a rank-2 operand
    rejects it. *)
Definition expand_dims (t : tensor) : result tensor :=
  match t with
  | Scalar x => Ok (Vec [x])
  | Vec v => Ok (Mat 1 (map (fun x => [x]) v))
  | Mat _ _ => Err ShapeMismatch
  end.

(** [tf.concat((a, b), -1)]: equal ranks, equal leading axis. *)
Definition concat2 (a b : tensor) : result tensor :=
  match a, b with
  | Vec v, Vec w => Ok (Vec (v ++ w))
  | Mat n r, Mat m s =>
      if length r =? length s
      then Ok (Mat (n + m) (map2 (@app Qc) r s))
      else Err ShapeMismatch
  | _, _ => Err ShapeMismatch
  end.

(** [tf.concat(ts, -1)] *)
Definition concat (ts : list tensor) : result tensor :=
  match ts with
  | [] => Err ShapeMismatch
  | t :: ts' => fold_left (fun acc u => a <- acc;; concat2 a u) ts' (Ok t)
  end.

(** ** Arithmetic on computations *)

Definition lift2 (op : tensor -> tensor -> result tensor)
  (ra rb : result tensor) : result tensor :=
  a <- ra;; b <- rb;; op a b.

Definition ret (t : tensor) : result tensor := Ok t.
Coercion ret : tensor >-> result.

Notation "a +! b" := (lift2 tadd a b) (at level 50, left associativity) : result_scope.
Notation "a -! b" := (lift2 tsub a b) (at level 50, left associativity) : result_scope.
Notation "a *! b" := (lift2 tmul a b) (at level 40, left associativity) : result_scope.
Notation "a /! b" := (lift2 tdiv a b) (at level 40, left associativity) : result_scope.
Notation "-! a" := (bind a (fun x => Ok (tneg x))) (at level 35, right associativity) : result_scope.

(* ================================================================== *)
(** * The stepper *)

(** The second argument a boundary callable is called with: the list of
    coordinate tensors, or a single tensor. *)
Inductive pyarg : Type :=
| ArgGrid (coord_grid : list tensor)
| ArgTensor (x : tensor).

(** A boundary callable returns [(alpha, beta, gamma)]; [alpha] and [beta]
    may be [None]. *)
Definition bc_fn : Type := Qc -> pyarg -> option tensor * option tensor * tensor.

(** The tridiagonal matrix [(diagonal, upper, lower)] and the inhomogeneous
    term. *)
Definition eqn_params : Type := (tensor * tensor * tensor) * tensor.

(** [second_order_coeff_fn(t, coord_grid)[0][0]], [first_order_coeff_fn(t,
    coord_grid)[0]] and [zeroth_order_coeff_fn(t, coord_grid)] are the raw
    coefficients; each callable may itself be [None]. *)
Definition second_order_fn : Type := Qc -> list tensor -> list (list (option tensor)).
Definition first_order_fn : Type := Qc -> list tensor -> list (option tensor).
Definition zeroth_order_fn : Type := Qc -> list tensor -> option tensor.

(** [time_marching_scheme(value_grid=, t1=, t2=, equation_params_fn=,
    backwards=True)] *)
Definition marching_scheme : Type :=
  tensor -> Qc -> Qc -> (Qc -> result eqn_params) -> result tensor.

(** [f(t, coord_grid)] for an [f] that may be [None]. *)
Definition call {R : Type} (f : option (Qc -> list tensor -> R)) (t : Qc)
  (coord_grid : list tensor) : result R :=
  match f with
  | Some g => Ok (g t coord_grid)
  | None => Err NotCallable
  end.

(** [f or default] *)
Definition py_or {F : Type} (f : option F) (default : F) : option F :=
  match f with
  | Some g => Some g
  | None => Some default
  end.

Definition _append_first_and_last (first inner last : tensor) : result tensor :=
  f <- expand_dims first;;
  l <- expand_dims last;;
  concat [f; inner; l].

Definition _append_first (first rest : tensor) : result tensor :=
  f <- expand_dims first;;
  concat [f; rest].

Definition _append_last (rest last : tensor) : result tensor :=
  l <- expand_dims last;;
  concat [rest; l].

Definition _discretize_boundary_conditions (dx0 dx1 : tensor)
  (alpha beta : option tensor) (gamma : tensor)
  : result (tensor * tensor * tensor) :=
  match beta with
  | None =>
      match alpha with
      | None =>
          Err (ValueError
                 "Invalid boundary conditions: alpha and beta can't both be None.")
      | Some alpha =>
          let zeros := zeros_like gamma in
          eta <- gamma /! alpha;;
          Ok (zeros, zeros, eta)
      end
  | Some beta =>
      denom <- beta *! dx1 *! (Scalar two *! dx0 +! dx1);;
      denom <- match alpha with
               | Some alpha => denom +! alpha *! dx0 *! dx1 *! (dx0 +! dx1)
               | None => Ok denom
               end;;
      xi1 <- beta *! (dx0 +! dx1) *! (dx0 +! dx1) /! denom;;
      xi2 <- -! beta *! dx0 *! dx0 /! denom;;
      eta <- gamma *! dx0 *! dx1 *! (dx0 +! dx1) /! denom;;
      Ok (xi1, xi2, eta)
  end.

Definition _prepare_pde_coeffs (raw_coeffs : option tensor) (value_grid : tensor)
  : result tensor :=
  coeffs <- convert_to_tensor raw_coeffs;;
  let broadcast_shape := shape value_grid in
  coeffs <- broadcast_to coeffs broadcast_shape;;
  last_slice (Some 1%Z) (Some (-1)%Z) coeffs.

Definition _apply_boundary_conditions_to_discretized_equation
  (boundary_conditions : list (bc_fn * bc_fn)) (coord_grid : list tensor)
  (coord_grid_deltas diagonal upper_diagonal lower_diagonal : tensor) (t : Qc)
  : result eqn_params :=
  bc <- item boundary_conditions 0;;
  let '(alpha_l, beta_l, gamma_l) := fst bc t (ArgGrid coord_grid) in
  bc <- item boundary_conditions 0;;
  let '(alpha_u, beta_u, gamma_u) := snd bc t (ArgGrid coord_grid) in
  match beta_l, beta_u with
  | None, None =>
      first_inhomog_element <-
        last_item lower_diagonal 0 *! gamma_l /! convert_to_tensor alpha_l;;
      last_inhomog_element <-
        last_item upper_diagonal (-1) *! gamma_u /! convert_to_tensor alpha_u;;
      inner <- last_slice (Some 1%Z) (Some (-1)%Z) diagonal;;
      inhomog_term <- _append_first_and_last first_inhomog_element
                        (zeros_like inner) last_inhomog_element;;
      Ok ((diagonal, upper_diagonal, lower_diagonal), inhomog_term)
  | _, _ =>
      dx0 <- tensor_item coord_grid_deltas 0;;
      dx1 <- tensor_item coord_grid_deltas 1;;
      '(xi1, xi2, eta) <- _discretize_boundary_conditions dx0 dx1
                            alpha_l beta_l gamma_l;;
      diag_first_correction <- last_item lower_diagonal 0 *! xi1;;
      upper_diag_correction <- last_item lower_diagonal 0 *! xi2;;
      first_inhomog_element <- last_item lower_diagonal 0 *! eta;;
      dx0 <- tensor_item coord_grid_deltas (-1);;
      dx1 <- tensor_item coord_grid_deltas (-2);;
      '(xi1, xi2, eta) <- _discretize_boundary_conditions dx0 dx1
                            alpha_u beta_u gamma_u;;
      diag_last_correction <- last_item upper_diagonal (-1) *! xi1;;
      lower_diag_correction <- last_item upper_diagonal (-1) *! xi2;;
      last_inhomog_element <- last_item upper_diagonal (-1) *! eta;;
      diag_first <- last_item diagonal 0 +! diag_first_correction;;
      diag_inner <- last_slice (Some 1%Z) (Some (-1)%Z) diagonal;;
      diag_last <- last_item diagonal (-1) +! diag_last_correction;;
      diagonal <- _append_first_and_last diag_first diag_inner diag_last;;
      upper_first <- last_item upper_diagonal 0 +! upper_diag_correction;;
      upper_rest <- last_slice (Some 1%Z) None upper_diagonal;;
      upper_diagonal <- _append_first upper_first upper_rest;;
      lower_rest <- last_slice None (Some (-1)%Z) lower_diagonal;;
      lower_last <- last_item lower_diagonal (-1) +! lower_diag_correction;;
      lower_diagonal <- _append_last lower_rest lower_last;;
      inner <- last_slice (Some 1%Z) (Some (-1)%Z) diagonal;;
      inhomog_term <- _append_first_and_last first_inhomog_element
                        (zeros_like inner) last_inhomog_element;;
      Ok ((diagonal, upper_diagonal, lower_diagonal), inhomog_term)
  end.

(** Lines 204-233 of [_construct_space_discretized_eqn_params]: the
    tridiagonal matrix before the boundary conditions are applied. *)
Definition space_discretized_stencil (coord_grid : list tensor)
  (coord_grid_deltas value_grid : tensor)
  (second_order_coeff_fn : option second_order_fn)
  (first_order_coeff_fn : option first_order_fn)
  (zeroth_order_coeff_fn : option zeroth_order_fn) (t : Qc)
  : result (tensor * tensor * tensor) :=
  forward_deltas <- tensor_slice (Some 1%Z) None coord_grid_deltas;;
  backward_deltas <- tensor_slice None (Some (-1)%Z) coord_grid_deltas;;
  sum_deltas <- forward_deltas +! backward_deltas;;
  a <- call second_order_coeff_fn t coord_grid;;
  a0 <- item a 0;;
  a00 <- item a0 0;;
  second_order_coeff <- _prepare_pde_coeffs a00 value_grid;;
  b <- call first_order_coeff_fn t coord_grid;;
  b0 <- item b 0;;
  first_order_coeff <- _prepare_pde_coeffs b0 value_grid;;
  c <- call zeroth_order_coeff_fn t coord_grid;;
  zeroth_order_coeff <- _prepare_pde_coeffs c value_grid;;
  temp <- Scalar two *! second_order_coeff /! sum_deltas;;
  dxdx_coef_1 <- temp /! forward_deltas;;
  dxdx_coef_2 <- temp /! backward_deltas;;
  dx_coef <- first_order_coeff /! sum_deltas;;
  upper_diagonal <- -! dx_coef -! dxdx_coef_1;;
  lower_diagonal <- dx_coef -! dxdx_coef_2;;
  diagonal <- -! zeroth_order_coeff -! upper_diagonal -! lower_diagonal;;
  Ok (diagonal, upper_diagonal, lower_diagonal).

Definition _construct_space_discretized_eqn_params (coord_grid : list tensor)
  (coord_grid_deltas value_grid : tensor)
  (boundary_conditions : list (bc_fn * bc_fn))
  (second_order_coeff_fn : option second_order_fn)
  (first_order_coeff_fn : option first_order_fn)
  (zeroth_order_coeff_fn : option zeroth_order_fn) (t : Qc)
  : result eqn_params :=
  '(diagonal, upper_diagonal, lower_diagonal) <-
    space_discretized_stencil coord_grid coord_grid_deltas value_grid
      second_order_coeff_fn first_order_coeff_fn zeroth_order_coeff_fn t;;
  _apply_boundary_conditions_to_discretized_equation boundary_conditions
    coord_grid coord_grid_deltas diagonal upper_diagonal lower_diagonal t.

Definition _apply_boundary_conditions_after_step (inner_grid_out : tensor)
  (boundary_conditions : list (bc_fn * bc_fn)) (coord_grid : list tensor)
  (coord_grid_deltas : tensor) (time_after_step : Qc) : result tensor :=
  bc <- item boundary_conditions 0;;
  g0 <- item coord_grid 0;;
  x0 <- tensor_item g0 0;;
  let '(alpha, beta, gamma) := fst bc time_after_step (ArgTensor x0) in
  dx0 <- tensor_item coord_grid_deltas 0;;
  dx1 <- tensor_item coord_grid_deltas 1;;
  '(xi1, xi2, eta) <- _discretize_boundary_conditions dx0 dx1 alpha beta gamma;;
  first_value <-
    xi1 *! last_item inner_grid_out 0 +! xi2 *! last_item inner_grid_out 1 +! eta;;
  bc <- item boundary_conditions 0;;
  let '(alpha, beta, gamma) := snd bc time_after_step (ArgGrid coord_grid) in
  dx0 <- tensor_item coord_grid_deltas (-1);;
  dx1 <- tensor_item coord_grid_deltas (-2);;
  '(xi1, xi2, eta) <- _discretize_boundary_conditions dx0 dx1 alpha beta gamma;;
  last_value <-
    xi1 *! last_item inner_grid_out (-1) +! xi2 *! last_item inner_grid_out (-2) +! eta;;
  _append_first_and_last first_value inner_grid_out last_value.

Definition parabolic_equation_step (time next_time : Qc)
  (coord_grid : list tensor) (value_grid : tensor)
  (boundary_conditions : list (bc_fn * bc_fn))
  (second_order_coeff_fn : option second_order_fn)
  (first_order_coeff_fn : option first_order_fn)
  (zeroth_order_coeff_fn : option zeroth_order_fn)
  (time_marching_scheme : marching_scheme)
  : result (list tensor * tensor) :=
  let first_order_coeff_fn :=
    py_or first_order_coeff_fn (fun _ _ => [Some (Scalar 0%Qc)]) in
  let zeroth_order_coeff_fn :=
    py_or zeroth_order_coeff_fn (fun _ _ => Some (Scalar 0%Qc)) in
  inner_grid_in <- last_slice (Some 1%Z) (Some (-1)%Z) value_grid;;
  g0 <- item coord_grid 0;;
  coord_grid_deltas <-
    tensor_slice (Some 1%Z) None g0 -! tensor_slice None (Some (-1)%Z) g0;;
  let equation_params_fn (t : Qc) :=
    _construct_space_discretized_eqn_params coord_grid coord_grid_deltas
      value_grid boundary_conditions second_order_coeff_fn
      first_order_coeff_fn zeroth_order_coeff_fn t in
  inner_grid_out <-
    time_marching_scheme inner_grid_in next_time time equation_params_fn;;
  updated_value_grid <-
    _apply_boundary_conditions_after_step inner_grid_out boundary_conditions
      coord_grid coord_grid_deltas next_time;;
  Ok (coord_grid, updated_value_grid).

(* ================================================================== *)
(** * Reading the entries of a tensor *)

(** Entry [j] of batch row [k]. *)
Definition entry (t : tensor) (k j : nat) : Qc :=
  match t with
  | Scalar x => x
  | Vec v => nth j v 0%Qc
  | Mat _ rows => nth j (nth k rows []) 0%Qc
  end.

(** A boundary value is a number, a one-element vector, or one number per
    batch row. *)
Definition batch_ok (K : nat) (t : tensor) : bool :=
  match t with
  | Scalar _ => true
  | Vec v => (length v =? K) || (length v =? 1)
  | Mat _ _ => false
  end.

(** The number a boundary value contributes to batch row [k]. *)
Definition bget (t : tensor) (k : nat) : Qc :=
  match t with
  | Scalar x => x
  | Vec v => if length v =? 1 then hd 0%Qc v else nth k v 0%Qc
  | Mat _ _ => 0%Qc
  end.

Definition batch_ok_opt (K : nat) (o : option tensor) : bool :=
  match o with
  | Some t => batch_ok K t
  | None => true
  end.

(** The vector [[g 0; ...; g (n-1)]] and the [K x n] matrix of the [g k j]. *)
Definition vtab (n : nat) (g : nat -> Qc) : tensor := Vec (map g (seq 0 n)).

Definition mtab (K n : nat) (g : nat -> nat -> Qc) : tensor :=
  Mat n (map (fun k => map (g k) (seq 0 n)) (seq 0 K)).

(** ** The formulas of the specification, on numbers *)

Local Open Scope Qc_scope.

(** Stencil of one interior point: backward spacing [h0], forward
    spacing [h1], coefficient values [a], [b], [c]. *)
Definition spec_upper (h0 h1 a b : Qc) : Qc :=
  let s := h0 + h1 in - (b / s + (two * a / s) / h1).

Definition spec_lower (h0 h1 a b : Qc) : Qc :=
  let s := h0 + h1 in b / s - (two * a / s) / h0.

Definition spec_diag (h0 h1 a b c : Qc) : Qc :=
  - c - spec_upper h0 h1 a b - spec_lower h0 h1 a b.

(** Robin rule of one edge. *)
Definition spec_denom (alpha : option Qc) (beta dx0 dx1 : Qc) : Qc :=
  beta * dx1 * (two * dx0 + dx1)
  + match alpha with
    | Some a => a * dx0 * dx1 * (dx0 + dx1)
    | None => 0
    end.

Definition spec_xi1 (alpha : option Qc) (beta dx0 dx1 : Qc) : Qc :=
  beta * (dx0 + dx1) ^ 2 / spec_denom alpha beta dx0 dx1.

Definition spec_xi2 (alpha : option Qc) (beta dx0 dx1 : Qc) : Qc :=
  - beta * dx0 ^ 2 / spec_denom alpha beta dx0 dx1.

Definition spec_eta (alpha : option Qc) (beta gamma dx0 dx1 : Qc) : Qc :=
  gamma * dx0 * dx1 * (dx0 + dx1) / spec_denom alpha beta dx0 dx1.
Local Close Scope Qc_scope.

(** [alpha] of batch row [k], when present. *)
Definition bget_opt (o : option tensor) (k : nat) : option Qc :=
  option_map (fun t => bget t k) o.

(** The extrapolation rule [(xi1, xi2, eta)] of one edge, on numbers: the
    Robin formulas when [beta] is present, the Dirichlet shortcut when it
    is not. *)
Definition rule_xi1 (alpha beta : option Qc) (dx0 dx1 : Qc) : Qc :=
  match beta with
  | Some b => spec_xi1 alpha b dx0 dx1
  | None => 0%Qc
  end.

Definition rule_xi2 (alpha beta : option Qc) (dx0 dx1 : Qc) : Qc :=
  match beta with
  | Some b => spec_xi2 alpha b dx0 dx1
  | None => 0%Qc
  end.

Definition rule_eta (alpha beta : option Qc) (gamma dx0 dx1 : Qc) : Qc :=
  match beta with
  | Some b => spec_eta alpha b gamma dx0 dx1
  | None =>
      match alpha with
      | Some a => (gamma / a)%Qc
      | None => 0%Qc
      end
  end.

(** The rule of the boundary condition [bc] for batch row [k]. *)
Definition edge_xi1 (bc : option tensor * option tensor * tensor) (k : nat)
  (dx0 dx1 : Qc) : Qc :=
  let '(alpha, beta, _) := bc in
  rule_xi1 (bget_opt alpha k) (bget_opt beta k) dx0 dx1.

Definition edge_xi2 (bc : option tensor * option tensor * tensor) (k : nat)
  (dx0 dx1 : Qc) : Qc :=
  let '(alpha, beta, _) := bc in
  rule_xi2 (bget_opt alpha k) (bget_opt beta k) dx0 dx1.

Definition edge_eta (bc : option tensor * option tensor * tensor) (k : nat)
  (dx0 dx1 : Qc) : Qc :=
  let '(alpha, beta, gamma) := bc in
  rule_eta (bget_opt alpha k) (bget_opt beta k) (bget gamma k) dx0 dx1.

(** The boundary value [xi1 * v1 + xi2 * v2 + eta] that the rule of [bc]
    gives row [k] from its two nearest interior values. *)
Definition edge_value (bc : option tensor * option tensor * tensor) (k : nat)
  (dx0 dx1 v1 v2 : Qc) : Qc :=
  (edge_xi1 bc k dx0 dx1 * v1 + edge_xi2 bc k dx0 dx1 * v2
   + edge_eta bc k dx0 dx1)%Qc.

(** The divisor of the rule of one edge: [alpha] in the Dirichlet
    shortcut, the denominator of the Robin formulas otherwise. *)
Definition rule_divisor (alpha beta : option Qc) (dx0 dx1 : Qc) : Qc :=
  match beta with
  | Some b => spec_denom alpha b dx0 dx1
  | None =>
      match alpha with
      | Some a => a
      | None => 0%Qc
      end
  end.

(** The divisor of the rule of [bc] for batch row [k]. *)
Definition edge_divisor (bc : option tensor * option tensor * tensor) (k : nat)
  (dx0 dx1 : Qc) : Qc :=
  let '(alpha, beta, _) := bc in
  rule_divisor (bget_opt alpha k) (bget_opt beta k) dx0 dx1.

(** Spacing [j] of the grid. *)
Definition delta (ds : list Qc) (j : nat) : Qc := nth j ds 0%Qc.

(** The [N - 1] consecutive spacings of the grid [xs]. *)
Definition spacings (xs : list Qc) : list Qc :=
  map (fun i => (nth (S i) xs 0 - nth i xs 0)%Qc) (seq 0 (length xs - 1)).

(** ** Inputs of the testable properties *)

(** The Dirichlet condition [V = g(t)], given as [alpha = 1], [beta = None]. *)
Definition dirichlet_bc (g : Qc -> tensor) : bc_fn :=
  fun t _ => (Some (Scalar 1%Qc), None, g t).

(** A time-marching routine that returns its input unchanged. *)
Definition identity_scheme : marching_scheme := fun v _ _ _ => Ok v.

(** A time-marching routine that evaluates the equation at [t1] and then
    returns its input. *)
Definition evaluating_scheme : marching_scheme :=
  fun v t1 _ equation_params_fn => _ <- equation_params_fn t1;; Ok v.

Definition zero_second_order : second_order_fn :=
  fun _ _ => [[Some (Scalar 0%Qc)]].
Definition zero_first_order : first_order_fn :=
  fun _ _ => [Some (Scalar 0%Qc)].
Definition zero_zeroth_order : zeroth_order_fn :=
  fun _ _ => Some (Scalar 0%Qc).

(** The number [z] as a rational. *)
Definition num (z : Z) : Qc := Q2Qc (inject_Z z).

(** ** A small worked input: four grid points, a batch of two rows *)

Definition ex_xs : list Qc := [num 10; num 11; num 13; num 16].
Definition ex_grid : list tensor := [Vec ex_xs].
Definition ex_ds : list Qc := [num 1; num 2; num 3].
Definition ex_value_grid : tensor :=
  Mat 4 [[num 1; num 2; num 3; num 4]; [num 5; num 6; num 7; num 8]].

Definition ex_second_order : second_order_fn :=
  fun _ _ => [[Some (Scalar (num 1))]].
Definition ex_first_order : first_order_fn :=
  fun _ _ => [Some (Vec [num 1; num 2; num 3; num 4])].
Definition ex_zeroth_order : zeroth_order_fn :=
  fun _ _ => Some (Mat 1 [[num 1]; [num 2]]).

(** The three coefficients broadcast to the shape of [ex_value_grid]. *)
Definition ex_A : tensor := Mat 4 (repeat (repeat (num 1) 4) 2).
Definition ex_B : tensor := Mat 4 (repeat [num 1; num 2; num 3; num 4] 2).
Definition ex_C : tensor := Mat 4 [repeat (num 1) 4; repeat (num 2) 4].

(** A grid of three points with a single batch row. *)
Definition ex_small_grid : list tensor := [Vec [num 0; num 1; num 2]].
Definition ex_small_value_grid : tensor := Mat 3 [[num 1; num 2; num 3]].

(** The spacings of a uniform grid of spacing 2. *)
Definition ex_uniform_ds : list Qc := [num 2; num 2; num 2].

(** A tridiagonal matrix over the two interior points. *)
Definition ex_diagonal : tensor := Mat 2 [[num 2; num 3]; [num 4; num 5]].
Definition ex_upper : tensor := Mat 2 [[num (-1); num (-2)]; [num (-3); num (-4)]].
Definition ex_lower : tensor := Mat 2 [[num 1; num 1]; [num 2; num 2]].

(** Robin conditions, a Dirichlet condition, and a condition with neither
    [alpha] nor [beta]. *)
Definition ex_robin_lower : bc_fn :=
  fun _ _ => (Some (Scalar (num 1)), Some (Scalar (num 2)), Scalar (num 3)).
Definition ex_robin_upper : bc_fn :=
  fun _ _ => (None, Some (Vec [num 1; num 2]), Scalar (num 4)).
Definition ex_dirichlet_lower : bc_fn :=
  fun _ _ => (Some (Scalar (num 2)), None, Vec [num 4; num 6]).
Definition ex_dirichlet_upper : bc_fn :=
  fun _ _ => (Some (Scalar (num 1)), None, Scalar (num 9)).
Definition ex_invalid : bc_fn :=
  fun _ _ => (None, None, Scalar (num 1)).

(** Homogeneous conditions: a Dirichlet and a Neumann one. *)
Definition ex_homogeneous_lower : bc_fn :=
  fun _ _ => (Some (Scalar (num 2)), None, Scalar 0%Qc).
Definition ex_homogeneous_upper : bc_fn :=
  fun _ _ => (None, Some (Vec [num 1; num 2]), Scalar 0%Qc).

(** A boundary callable that reports what it was called with: the
    coordinate it received, or [-1] when it received the grid. *)
Definition ex_probe : bc_fn :=
  fun _ arg =>
    (Some (Scalar 1%Qc), None,
     match arg with
     | ArgTensor x => x
     | ArgGrid _ => Scalar (num (-1))
     end).

Definition is_some {A : Type} (o : option A) : bool :=
  match o with Some _ => true | None => false end.

(** A usable boundary condition for a batch of [K] rows: the values
    broadcast over the batch and [alpha], [beta] are not both missing. *)
Definition edge_ok (K : nat) (bc : option tensor * option tensor * tensor) : bool :=
  let '(alpha, beta, gamma) := bc in
  batch_ok_opt K alpha && batch_ok_opt K beta && batch_ok K gamma
  && (is_some alpha || is_some beta).

(** [t] is a tensor of shape [s]. *)
Definition has_shape (t : tensor) (s : list nat) : Prop :=
  shape t = s /\ wf t = true.

(** The contract of the time-marching routine: what it returns has the
    shape of the interior field it received. *)
Definition marching_preserves_shape (tms : marching_scheme) : Prop :=
  forall v t1 t2 f out,
    wf v = true -> tms v t1 t2 f = Ok out -> has_shape out (shape v).

(** A computation that returns a boundary value whose row [k] is [g k]. *)
Definition batch_result (K : nat) (r : result tensor) (g : nat -> Qc) : Prop :=
  exists t, r = Ok t /\ batch_ok K t = true
            /\ forall k, k < K -> bget t k = g k.

(* ================================================================== *)
(** * Lists *)

Lemma map2_map_seq (A B C : Type) (f : A -> B -> C) (g : nat -> A)
  (h : nat -> B) (n a : nat) :
  map2 f (map g (seq a n)) (map h (seq a n))
  = map (fun i => f (g i) (h i)) (seq a n).
Proof.
  revert a; induction n as [|n IH]; intros a; simpl; [reflexivity|].
  now rewrite IH.
Qed.

Lemma map2_length (A B C : Type) (f : A -> B -> C) (l1 : list A) (l2 : list B) :
  length l1 = length l2 -> length (map2 f l1 l2) = length l1.
Proof.
  revert l2; induction l1 as [|a l1 IH]; intros [|b l2]; simpl; intros H;
    try discriminate; auto.
Qed.

Lemma stretch_same (A : Type) (d : A) (n : nat) (l : list A) :
  length l = n -> stretch d n l = l.
Proof. intros <-. unfold stretch. now rewrite Nat.eqb_refl. Qed.

Lemma stretch_one (A : Type) (d x : A) (n : nat) :
  stretch d n [x] = repeat x n.
Proof.
  unfold stretch; simpl. destruct n as [|[|n]]; reflexivity.
Qed.

Lemma repeat_map_seq (A : Type) (x : A) (n a : nat) :
  repeat x n = map (fun _ => x) (seq a n).
Proof. revert a; induction n; intros a; simpl; [|rewrite (IHn (S a))]; auto. Qed.

Lemma seq_shift_map (A : Type) (g : nat -> A) (n a : nat) :
  map g (seq (S a) n) = map (fun i => g (S i)) (seq a n).
Proof. now rewrite <- seq_shift, map_map. Qed.

Lemma nth_map_seq (A : Type) (g : nat -> A) (d : A) (n j : nat) :
  j < n -> nth j (map g (seq 0 n)) d = g j.
Proof.
  intros H. rewrite (nth_indep _ d (g 0)) by (now rewrite length_map, length_seq).
  change (g 0) with (g (0 : nat)).
  now rewrite (map_nth g), seq_nth.
Qed.

Lemma nth_error_map_seq (A : Type) (g : nat -> A) (n j : nat) :
  j < n -> nth_error (map g (seq 0 n)) j = Some (g j).
Proof.
  intros H. rewrite nth_error_map, nth_error_seq.
  apply Nat.ltb_lt in H. now rewrite H.
Qed.

Lemma map_seq_ext (A : Type) (g h : nat -> A) (n : nat) :
  (forall i, i < n -> g i = h i) -> map g (seq 0 n) = map h (seq 0 n).
Proof.
  intros H. apply map_ext_in. intros i Hi. apply in_seq in Hi. apply H. lia.
Qed.

Lemma list_is_map_seq (A : Type) (d : A) (l : list A) :
  l = map (fun i => nth i l d) (seq 0 (length l)).
Proof.
  induction l as [|x l IH]; simpl; [reflexivity|].
  f_equal. now rewrite seq_shift_map.
Qed.

Lemma skipn_map_seq (A : Type) (g : nat -> A) (n a : nat) :
  skipn a (map g (seq 0 n)) = map (fun i => g (a + i)) (seq 0 (n - a)).
Proof.
  revert g n; induction a as [|a IH]; intros g n; simpl.
  - now rewrite Nat.sub_0_r.
  - destruct n as [|n]; simpl; [reflexivity|].
    now rewrite seq_shift_map, IH.
Qed.

Lemma firstn_seq_min (a n m : nat) :
  firstn m (seq a n) = seq a (Nat.min m n).
Proof.
  revert a n; induction m as [|m IH]; intros a [|n]; simpl; try reflexivity.
  now rewrite IH.
Qed.

Lemma firstn_map_seq (A : Type) (g : nat -> A) (n m : nat) :
  firstn m (map g (seq 0 n)) = map g (seq 0 (Nat.min m n)).
Proof. now rewrite firstn_map, firstn_seq_min. Qed.

(* ================================================================== *)
(** * Indices and slices *)

Lemma norm_index_nat (n j : nat) :
  j < n -> norm_index n (Z.of_nat j) = Some j.
Proof.
  intros H. unfold norm_index.
  replace (Z.of_nat j <? 0)%Z with false by (symmetry; apply Z.ltb_ge; lia).
  replace (0 <=? Z.of_nat j)%Z with true by (symmetry; apply Z.leb_le; lia).
  replace (Z.of_nat j <? Z.of_nat n)%Z with true by (symmetry; apply Z.ltb_lt; lia).
  simpl. now rewrite Nat2Z.id.
Qed.

Lemma norm_index_neg (n j : nat) :
  0 < j -> j <= n -> norm_index n (- Z.of_nat j) = Some (n - j).
Proof.
  intros H0 H. unfold norm_index.
  replace (- Z.of_nat j <? 0)%Z with true by (symmetry; apply Z.ltb_lt; lia).
  replace (0 <=? - Z.of_nat j + Z.of_nat n)%Z with true
    by (symmetry; apply Z.leb_le; lia).
  replace (- Z.of_nat j + Z.of_nat n <? Z.of_nat n)%Z with true
    by (symmetry; apply Z.ltb_lt; lia).
  simpl. f_equal. lia.
Qed.

Lemma norm_index_bound (n : nat) (i : Z) (j : nat) :
  norm_index n i = Some j -> j < n.
Proof.
  unfold norm_index.
  destruct (i <? 0)%Z eqn:Hneg;
    match goal with
    | |- (if ?c then _ else _) = _ -> _ => destruct c eqn:Hc
    end; try discriminate;
    intros [= <-]; apply andb_prop in Hc as [H1 H2];
    apply Z.leb_le in H1; apply Z.ltb_lt in H2; lia.
Qed.

Lemma norm_index_out_nat (n j : nat) :
  n <= j -> norm_index n (Z.of_nat j) = None.
Proof.
  intros H. unfold norm_index.
  replace (Z.of_nat j <? 0)%Z with false by (symmetry; apply Z.ltb_ge; lia).
  replace (Z.of_nat j <? Z.of_nat n)%Z with false by (symmetry; apply Z.ltb_ge; lia).
  now rewrite andb_false_r.
Qed.

Lemma norm_index_out_neg (n j : nat) :
  n < j -> norm_index n (- Z.of_nat j) = None.
Proof.
  intros H. unfold norm_index.
  replace (- Z.of_nat j <? 0)%Z with true by (symmetry; apply Z.ltb_lt; lia).
  replace (0 <=? - Z.of_nat j + Z.of_nat n)%Z with false
    by (symmetry; apply Z.leb_gt; lia).
  reflexivity.
Qed.

Lemma item_Some (A : Type) (l : list A) (i : Z) (j : nat) (d : A) :
  norm_index (length l) i = Some j -> item l i = Ok (nth j l d).
Proof.
  intros H. unfold item. rewrite H.
  apply norm_index_bound in H.
  now rewrite (nth_error_nth' l d H).
Qed.

Lemma item_None (A : Type) (l : list A) (i : Z) :
  norm_index (length l) i = None -> item l i = Err IndexOutOfRange.
Proof. intros H. unfold item. now rewrite H. Qed.

Lemma item_is_ok (A : Type) (l : list A) (i : Z) :
  is_ok (item l i) = match norm_index (length l) i with Some _ => true | None => false end.
Proof.
  unfold item. destruct (norm_index (length l) i) as [j|] eqn:H; [|reflexivity].
  apply norm_index_bound in H. apply nth_error_Some in H.
  destruct (nth_error l j); [reflexivity | congruence].
Qed.

Lemma slice_start_1 (n : nat) : slice_start n (Some 1%Z) = Nat.min 1 n.
Proof.
  unfold slice_start, clamp_bound. change (1 <? 0)%Z with false. cbv zeta iota.
  change (Z.max 1 0) with 1%Z. lia.
Qed.

Lemma slice_stop_m1 (n : nat) : slice_stop n (Some (-1)%Z) = n - 1.
Proof.
  unfold slice_stop, clamp_bound. change (-1 <? 0)%Z with true. cbv zeta iota. lia.
Qed.

Lemma slice_len_inner (n : nat) : slice_len (Some 1%Z) (Some (-1)%Z) n = n - 2.
Proof. unfold slice_len. rewrite slice_start_1, slice_stop_m1. lia. Qed.

Lemma slice_len_tail (n : nat) : slice_len (Some 1%Z) None n = n - 1.
Proof. unfold slice_len. rewrite slice_start_1. unfold slice_stop. lia. Qed.

Lemma slice_len_init (n : nat) : slice_len None (Some (-1)%Z) n = n - 1.
Proof. unfold slice_len. rewrite slice_stop_m1. unfold slice_start. lia. Qed.

Lemma slice_length (A : Type) (lo hi : option Z) (l : list A) :
  slice_stop (length l) hi <= length l ->
  length (slice lo hi l) = slice_len lo hi (length l).
Proof.
  intros H. unfold slice. rewrite length_firstn, length_skipn.
  unfold slice_len. lia.
Qed.

Lemma slice_inner_map_seq (A : Type) (g : nat -> A) (n : nat) :
  slice (Some 1%Z) (Some (-1)%Z) (map g (seq 0 n))
  = map (fun i => g (S i)) (seq 0 (n - 2)).
Proof.
  unfold slice. rewrite length_map, length_seq, slice_len_inner, slice_start_1.
  rewrite skipn_map_seq, firstn_map_seq.
  destruct n as [|n]; [reflexivity|].
  replace (Nat.min 1 (S n)) with 1 by lia.
  replace (Nat.min (S n - 2) (S n - 1)) with (S n - 2) by lia.
  reflexivity.
Qed.

Lemma slice_tail_map_seq (A : Type) (g : nat -> A) (n : nat) :
  slice (Some 1%Z) None (map g (seq 0 n))
  = map (fun i => g (S i)) (seq 0 (n - 1)).
Proof.
  unfold slice. rewrite length_map, length_seq, slice_len_tail, slice_start_1.
  rewrite skipn_map_seq, firstn_map_seq.
  destruct n as [|n]; [reflexivity|].
  replace (Nat.min 1 (S n)) with 1 by lia.
  replace (Nat.min (S n - 1) (S n - 1)) with (S n - 1) by lia.
  reflexivity.
Qed.

Lemma slice_init_map_seq (A : Type) (g : nat -> A) (n : nat) :
  slice None (Some (-1)%Z) (map g (seq 0 n)) = map g (seq 0 (n - 1)).
Proof.
  unfold slice. rewrite length_map, length_seq, slice_len_init.
  simpl slice_start. rewrite skipn_O, firstn_map_seq.
  now replace (Nat.min (n - 1) n) with (n - 1) by lia.
Qed.

(* ================================================================== *)
(** * Tabulated tensors *)

Lemma shape_vtab (n : nat) (g : nat -> Qc) : shape (vtab n g) = [n].
Proof. unfold vtab; simpl. now rewrite length_map, length_seq. Qed.

Lemma shape_mtab (K n : nat) (g : nat -> nat -> Qc) : shape (mtab K n g) = [K; n].
Proof. unfold mtab; simpl. now rewrite length_map, length_seq. Qed.

Lemma wf_mtab (K n : nat) (g : nat -> nat -> Qc) : wf (mtab K n g) = true.
Proof.
  unfold mtab; simpl. apply forallb_forall. intros r Hr.
  apply in_map_iff in Hr as (k & <- & _).
  rewrite length_map, length_seq. apply Nat.eqb_refl.
Qed.

Lemma entry_vtab (n : nat) (g : nat -> Qc) (k j : nat) :
  j < n -> entry (vtab n g) k j = g j.
Proof. intros H. unfold vtab; simpl. now apply nth_map_seq. Qed.

Lemma entry_mtab (K n : nat) (g : nat -> nat -> Qc) (k j : nat) :
  k < K -> j < n -> entry (mtab K n g) k j = g k j.
Proof.
  intros Hk Hj. unfold mtab; simpl.
  rewrite (nth_map_seq (fun k => map (g k) (seq 0 n)) [] Hk).
  now apply nth_map_seq.
Qed.

Lemma vtab_ext (n : nat) (g h : nat -> Qc) :
  (forall i, i < n -> g i = h i) -> vtab n g = vtab n h.
Proof. intros H. unfold vtab. f_equal. now apply map_seq_ext. Qed.

Lemma mtab_ext (K n : nat) (g h : nat -> nat -> Qc) :
  (forall k j, k < K -> j < n -> g k j = h k j) -> mtab K n g = mtab K n h.
Proof.
  intros H. unfold mtab. f_equal. apply map_seq_ext. intros k Hk.
  apply map_seq_ext. intros j Hj. now apply H.
Qed.

Lemma Vec_is_vtab (v : list Qc) :
  Vec v = vtab (length v) (fun j => nth j v 0%Qc).
Proof. unfold vtab. f_equal. apply list_is_map_seq. Qed.

Lemma Mat_is_mtab (n : nat) (rows : list (list Qc)) :
  wf (Mat n rows) = true ->
  Mat n rows = mtab (length rows) n (entry (Mat n rows)).
Proof.
  simpl. intros H. unfold mtab. f_equal.
  rewrite (list_is_map_seq [] rows) at 1.
  apply map_seq_ext. intros k Hk. simpl.
  assert (Hlen : length (nth k rows []) = n).
  { rewrite forallb_forall in H. apply Nat.eqb_eq, H, nth_In, Hk. }
  rewrite (list_is_map_seq 0%Qc (nth k rows [])) at 1.
  now rewrite Hlen.
Qed.

Lemma tensor_of_shape2 (t : tensor) (K n : nat) :
  shape t = [K; n] -> wf t = true -> t = mtab K n (entry t).
Proof.
  destruct t as [x|v|m rows]; simpl; try discriminate.
  intros [= <- <-] H. now apply Mat_is_mtab.
Qed.

Lemma tensor_of_shape1 (t : tensor) (n : nat) :
  shape t = [n] -> t = vtab n (fun j => entry t 0 j).
Proof.
  destruct t as [x|v|m rows]; simpl; try discriminate.
  intros [= <-]. apply Vec_is_vtab.
Qed.

(** ** Indexing and slicing tabulated tensors *)

Lemma tensor_item_vtab (n : nat) (g : nat -> Qc) (i : Z) (j : nat) :
  norm_index n i = Some j -> tensor_item (vtab n g) i = Ok (Scalar (g j)).
Proof.
  intros H. unfold vtab, tensor_item.
  rewrite (@item_Some _ _ i j 0%Qc) by (now rewrite length_map, length_seq).
  simpl. f_equal. f_equal. apply nth_map_seq. now apply norm_index_bound in H.
Qed.

Lemma last_item_vtab (n : nat) (g : nat -> Qc) (i : Z) (j : nat) :
  norm_index n i = Some j -> last_item (vtab n g) i = Ok (Scalar (g j)).
Proof. exact (@tensor_item_vtab n g i j). Qed.

Lemma last_item_mtab (K n : nat) (g : nat -> nat -> Qc) (i : Z) (j : nat) :
  norm_index n i = Some j ->
  last_item (mtab K n g) i = Ok (vtab K (fun k => g k j)).
Proof.
  intros H. unfold mtab, last_item, vtab. rewrite H. f_equal. f_equal.
  rewrite map_map. apply map_ext. intros k.
  apply nth_map_seq. now apply norm_index_bound in H.
Qed.

Lemma last_item_mtab_out (K n : nat) (g : nat -> nat -> Qc) (i : Z) :
  norm_index n i = None -> last_item (mtab K n g) i = Err IndexOutOfRange.
Proof. intros H. unfold mtab, last_item. now rewrite H. Qed.

Lemma tensor_slice_tail_vtab (n : nat) (g : nat -> Qc) :
  tensor_slice (Some 1%Z) None (vtab n g)
  = Ok (vtab (n - 1) (fun i => g (S i))).
Proof. unfold vtab; simpl. now rewrite slice_tail_map_seq. Qed.

Lemma tensor_slice_init_vtab (n : nat) (g : nat -> Qc) :
  tensor_slice None (Some (-1)%Z) (vtab n g) = Ok (vtab (n - 1) g).
Proof. unfold vtab; simpl. now rewrite slice_init_map_seq. Qed.

Lemma last_slice_inner_mtab (K n : nat) (g : nat -> nat -> Qc) :
  last_slice (Some 1%Z) (Some (-1)%Z) (mtab K n g)
  = Ok (mtab K (n - 2) (fun k j => g k (S j))).
Proof.
  unfold mtab; simpl. rewrite slice_len_inner, map_map. f_equal. f_equal.
  apply map_ext. intros k. apply slice_inner_map_seq.
Qed.

Lemma last_slice_tail_mtab (K n : nat) (g : nat -> nat -> Qc) :
  last_slice (Some 1%Z) None (mtab K n g)
  = Ok (mtab K (n - 1) (fun k j => g k (S j))).
Proof.
  unfold mtab; simpl. rewrite slice_len_tail, map_map. f_equal. f_equal.
  apply map_ext. intros k. apply slice_tail_map_seq.
Qed.

Lemma last_slice_init_mtab (K n : nat) (g : nat -> nat -> Qc) :
  last_slice None (Some (-1)%Z) (mtab K n g) = Ok (mtab K (n - 1) g).
Proof.
  unfold mtab; simpl. rewrite slice_len_init, map_map. f_equal. f_equal.
  apply map_ext. intros k. apply slice_init_map_seq.
Qed.

(** ** Elementwise operations on tabulated tensors *)

Lemma bdim_refl (n : nat) : bdim n n = Ok n.
Proof. unfold bdim. now rewrite Nat.eqb_refl. Qed.

Lemma brow_map_seq (f : Qc -> Qc -> Qc) (n : nat) (g h : nat -> Qc) :
  brow f n (map g (seq 0 n)) (map h (seq 0 n))
  = map (fun i => f (g i) (h i)) (seq 0 n).
Proof.
  unfold brow.
  rewrite !stretch_same by (now rewrite length_map, length_seq).
  apply map2_map_seq.
Qed.

Lemma binop_vtab_vtab (f : Qc -> Qc -> Qc) (n : nat) (g h : nat -> Qc) :
  binop f (vtab n g) (vtab n h) = Ok (vtab n (fun i => f (g i) (h i))).
Proof.
  unfold vtab; simpl. rewrite !length_map, !length_seq, bdim_refl. simpl.
  now rewrite brow_map_seq.
Qed.

Lemma binop_scalar_vtab (f : Qc -> Qc -> Qc) (x : Qc) (n : nat) (g : nat -> Qc) :
  binop f (Scalar x) (vtab n g) = Ok (vtab n (fun i => f x (g i))).
Proof. unfold vtab; simpl. now rewrite map_map. Qed.

Lemma binop_vtab_scalar (f : Qc -> Qc -> Qc) (n : nat) (g : nat -> Qc) (y : Qc) :
  binop f (vtab n g) (Scalar y) = Ok (vtab n (fun i => f (g i) y)).
Proof. unfold vtab; simpl. now rewrite map_map. Qed.

Lemma binop_mtab_mtab (f : Qc -> Qc -> Qc) (K n : nat) (g h : nat -> nat -> Qc) :
  binop f (mtab K n g) (mtab K n h)
  = Ok (mtab K n (fun k j => f (g k j) (h k j))).
Proof.
  unfold mtab; simpl. rewrite !length_map, !length_seq, !bdim_refl. simpl.
  rewrite !stretch_same by (now rewrite length_map, length_seq).
  rewrite map2_map_seq. f_equal. f_equal.
  apply map_ext. intros k. apply brow_map_seq.
Qed.

Lemma binop_mtab_vtab (f : Qc -> Qc -> Qc) (K n : nat) (g : nat -> nat -> Qc)
  (h : nat -> Qc) :
  binop f (mtab K n g) (vtab n h) = Ok (mtab K n (fun k j => f (g k j) (h j))).
Proof.
  unfold mtab, vtab; simpl. rewrite !length_map, !length_seq, !bdim_refl. simpl.
  rewrite map_map. f_equal. f_equal.
  apply map_ext. intros k. apply brow_map_seq.
Qed.

Lemma binop_vtab_mtab (f : Qc -> Qc -> Qc) (K n : nat) (h : nat -> Qc)
  (g : nat -> nat -> Qc) :
  binop f (vtab n h) (mtab K n g) = Ok (mtab K n (fun k j => f (h j) (g k j))).
Proof.
  unfold mtab, vtab; simpl. rewrite !length_map, !length_seq, !bdim_refl. simpl.
  rewrite map_map. f_equal. f_equal.
  apply map_ext. intros k. apply brow_map_seq.
Qed.

Lemma binop_scalar_mtab (f : Qc -> Qc -> Qc) (x : Qc) (K n : nat)
  (g : nat -> nat -> Qc) :
  binop f (Scalar x) (mtab K n g) = Ok (mtab K n (fun k j => f x (g k j))).
Proof.
  unfold mtab; simpl. rewrite map_map. f_equal. f_equal.
  apply map_ext. intros k. now rewrite map_map.
Qed.

Lemma binop_mtab_scalar (f : Qc -> Qc -> Qc) (K n : nat)
  (g : nat -> nat -> Qc) (y : Qc) :
  binop f (mtab K n g) (Scalar y) = Ok (mtab K n (fun k j => f (g k j) y)).
Proof.
  unfold mtab; simpl. rewrite map_map. f_equal. f_equal.
  apply map_ext. intros k. now rewrite map_map.
Qed.

Lemma tmap_vtab (f : Qc -> Qc) (n : nat) (g : nat -> Qc) :
  tmap f (vtab n g) = vtab n (fun i => f (g i)).
Proof. unfold vtab; simpl. now rewrite map_map. Qed.

Lemma tmap_mtab (f : Qc -> Qc) (K n : nat) (g : nat -> nat -> Qc) :
  tmap f (mtab K n g) = mtab K n (fun k j => f (g k j)).
Proof.
  unfold mtab; simpl. rewrite map_map. f_equal.
  apply map_ext. intros k. now rewrite map_map.
Qed.

(** ** Concatenation along the last axis *)

Lemma expand_dims_vtab (K : nat) (g : nat -> Qc) :
  expand_dims (vtab K g) = Ok (mtab K 1 (fun k _ => g k)).
Proof. unfold vtab, mtab; simpl. now rewrite map_map. Qed.

Lemma map_seq_offset (A : Type) (g : nat -> A) (n m : nat) :
  map g (seq n m) = map (fun j => g (n + j)) (seq 0 m).
Proof.
  revert g; induction n as [|n IH]; intros g; [reflexivity|].
  now rewrite seq_shift_map, IH.
Qed.

Lemma map_seq_app (A : Type) (g h : nat -> A) (n m : nat) :
  map g (seq 0 n) ++ map h (seq 0 m)
  = map (fun j => if j <? n then g j else h (j - n)) (seq 0 (n + m)).
Proof.
  rewrite seq_app, map_app. f_equal.
  - apply map_ext_in. intros j Hj. apply in_seq in Hj.
    now replace (j <? n) with true by (symmetry; apply Nat.ltb_lt; lia).
  - simpl. rewrite (map_seq_offset _ n m).
    apply map_ext. intros j.
    replace (n + j <? n) with false by (symmetry; apply Nat.ltb_ge; lia).
    f_equal. lia.
Qed.

Lemma concat2_mtab (K n m : nat) (g h : nat -> nat -> Qc) :
  concat2 (mtab K n g) (mtab K m h)
  = Ok (mtab K (n + m) (fun k j => if j <? n then g k j else h k (j - n))).
Proof.
  unfold mtab; simpl. rewrite !length_map, !length_seq, Nat.eqb_refl.
  rewrite map2_map_seq. f_equal. f_equal.
  apply map_ext. intros k. apply map_seq_app.
Qed.

Lemma append_first_and_last_tab (K n : nat) (a b : nat -> Qc)
  (g : nat -> nat -> Qc) :
  _append_first_and_last (vtab K a) (mtab K n g) (vtab K b)
  = Ok (mtab K (n + 2)
          (fun k j => if j =? 0 then a k else if j <=? n then g k (j - 1) else b k)).
Proof.
  unfold _append_first_and_last, concat. rewrite !expand_dims_vtab.
  cbn [bind fold_left]. rewrite concat2_mtab. cbn [bind].
  rewrite concat2_mtab.
  replace (1 + n + 1) with (n + 2) by lia.
  f_equal. apply mtab_ext. intros k j _ Hj.
  destruct j as [|j]; simpl.
  - reflexivity.
  - destruct (Nat.leb_spec j n) as [H|H].
    + replace (S j <=? n) with (negb (n <=? j)).
      2:{ destruct (Nat.leb_spec (S j) n), (Nat.leb_spec n j); simpl; auto; lia. }
      destruct (Nat.leb_spec n j); simpl; [|now rewrite Nat.sub_0_r].
      reflexivity.
    + replace (S j <=? n) with false by (symmetry; apply Nat.leb_gt; lia).
      reflexivity.
Qed.

Lemma append_first_tab (K n : nat) (a : nat -> Qc) (g : nat -> nat -> Qc) :
  _append_first (vtab K a) (mtab K n g)
  = Ok (mtab K (S n) (fun k j => if j =? 0 then a k else g k (j - 1))).
Proof.
  unfold _append_first, concat. rewrite expand_dims_vtab.
  cbn [bind fold_left]. rewrite concat2_mtab. cbn [plus].
  f_equal. apply mtab_ext. intros k j _ Hj.
  destruct j as [|j]; simpl; [reflexivity|now rewrite Nat.sub_0_r].
Qed.

Lemma append_last_tab (K n : nat) (g : nat -> nat -> Qc) (b : nat -> Qc) :
  _append_last (mtab K n g) (vtab K b)
  = Ok (mtab K (S n) (fun k j => if j <? n then g k j else b k)).
Proof.
  unfold _append_last, concat. rewrite expand_dims_vtab.
  cbn [bind fold_left]. rewrite concat2_mtab.
  now replace (n + 1) with (S n) by lia.
Qed.

(* ================================================================== *)
(** * Boundary values broadcast over the batch *)

Lemma bget_vtab (K : nat) (g : nat -> Qc) (k : nat) :
  k < K -> bget (vtab K g) k = g k.
Proof.
  intros H. unfold vtab, bget. rewrite length_map, length_seq.
  destruct (Nat.eqb_spec K 1) as [->|_].
  - now replace k with 0 by lia.
  - now apply nth_map_seq.
Qed.

Lemma batch_ok_vtab (K : nat) (g : nat -> Qc) : batch_ok K (vtab K g) = true.
Proof. unfold vtab; simpl. now rewrite length_map, length_seq, Nat.eqb_refl. Qed.

Lemma batch_ok_cases (K : nat) (t : tensor) :
  batch_ok K t = true ->
  (exists x, t = Scalar x) \/ (exists x, t = Vec [x])
  \/ (K <> 1 /\ exists g, t = vtab K g /\ forall k, k < K -> bget t k = g k).
Proof.
  destruct t as [x|v|n rows]; simpl; try discriminate.
  - intros _. left. now exists x.
  - intros H. destruct (Nat.eqb_spec (length v) 1) as [H1|H1].
    + right; left. destruct v as [|x [|y v]]; try discriminate. now exists x.
    + rewrite orb_false_r in H. apply Nat.eqb_eq in H.
      right; right. split; [congruence|].
      exists (fun j => nth j v 0%Qc). split; [|reflexivity].
      rewrite <- H. apply Vec_is_vtab.
Qed.

Lemma binop_one_vtab (f : Qc -> Qc -> Qc) (x : Qc) (K : nat) (g : nat -> Qc) :
  K <> 1 -> binop f (Vec [x]) (vtab K g) = Ok (vtab K (fun k => f x (g k))).
Proof.
  intros HK. unfold vtab; simpl. rewrite length_map, length_seq.
  unfold bdim. destruct (Nat.eqb_spec 1 K) as [E|_]; [congruence|]. simpl.
  unfold brow. rewrite stretch_one, (repeat_map_seq x K 0).
  rewrite stretch_same by (now rewrite length_map, length_seq).
  now rewrite map2_map_seq.
Qed.

Lemma binop_vtab_one (f : Qc -> Qc -> Qc) (K : nat) (g : nat -> Qc) (y : Qc) :
  K <> 1 -> binop f (vtab K g) (Vec [y]) = Ok (vtab K (fun k => f (g k) y)).
Proof.
  intros HK. unfold vtab; simpl. rewrite length_map, length_seq.
  unfold bdim. destruct (Nat.eqb_spec K 1) as [E|_]; [congruence|]. simpl.
  unfold brow. rewrite stretch_one, (repeat_map_seq y K 0).
  rewrite stretch_same by (now rewrite length_map, length_seq).
  now rewrite map2_map_seq.
Qed.

(** An operation on two boundary values is again a boundary value, computed
    row by row. *)
Lemma binop_batch (f : Qc -> Qc -> Qc) (K : nat) (a b : tensor) :
  batch_ok K a = true -> batch_ok K b = true ->
  exists c, binop f a b = Ok c /\ batch_ok K c = true
            /\ forall k, k < K -> bget c k = f (bget a k) (bget b k).
Proof.
  intros Ha Hb.
  destruct (batch_ok_cases K a Ha) as [[x ->]|[[x ->]|[HK [g [Ea Hg]]]]];
  destruct (batch_ok_cases K b Hb) as [[y ->]|[[y ->]|[HK' [h [Eb Hh]]]]].
  - exists (Scalar (f x y)). now repeat split.
  - exists (Vec [f x y]). repeat split. simpl. apply orb_true_r.
  - exists (vtab K (fun k => f x (h k))). rewrite Eb at 1.
    rewrite binop_scalar_vtab. repeat split; [apply batch_ok_vtab|].
    intros k Hk. rewrite bget_vtab, Hh by assumption. reflexivity.
  - exists (Vec [f x y]). repeat split. simpl. apply orb_true_r.
  - exists (Vec [f x y]). repeat split. simpl. apply orb_true_r.
  - exists (vtab K (fun k => f x (h k))). rewrite Eb at 1.
    rewrite binop_one_vtab by assumption. repeat split; [apply batch_ok_vtab|].
    intros k Hk. rewrite bget_vtab, Hh by assumption. reflexivity.
  - exists (vtab K (fun k => f (g k) y)). rewrite Ea at 1.
    rewrite binop_vtab_scalar. repeat split; [apply batch_ok_vtab|].
    intros k Hk. rewrite bget_vtab, Hg by assumption. reflexivity.
  - exists (vtab K (fun k => f (g k) y)). rewrite Ea at 1.
    rewrite binop_vtab_one by assumption. repeat split; [apply batch_ok_vtab|].
    intros k Hk. rewrite bget_vtab, Hg by assumption. reflexivity.
  - exists (vtab K (fun k => f (g k) (h k))). rewrite Ea at 1. rewrite Eb at 1.
    rewrite binop_vtab_vtab. repeat split; [apply batch_ok_vtab|].
    intros k Hk. rewrite bget_vtab, Hg, Hh by assumption. reflexivity.
Qed.

(** With one operand of the full batch shape the result has it too. *)
Lemma binop_vtab_batch (f : Qc -> Qc -> Qc) (K : nat) (g : nat -> Qc) (b : tensor) :
  batch_ok K b = true ->
  binop f (vtab K g) b = Ok (vtab K (fun k => f (g k) (bget b k))).
Proof.
  intros Hb.
  destruct (batch_ok_cases K b Hb) as [[y ->]|[[y ->]|[HK' [h [Eb Hh]]]]].
  - apply binop_vtab_scalar.
  - destruct (Nat.eq_dec K 1) as [->|HK]; [reflexivity|].
    now apply binop_vtab_one.
  - rewrite Eb at 1. rewrite binop_vtab_vtab. f_equal.
    apply vtab_ext. intros k Hk. now rewrite Hh.
Qed.

Lemma binop_batch_vtab (f : Qc -> Qc -> Qc) (K : nat) (a : tensor) (h : nat -> Qc) :
  batch_ok K a = true ->
  binop f a (vtab K h) = Ok (vtab K (fun k => f (bget a k) (h k))).
Proof.
  intros Ha.
  destruct (batch_ok_cases K a Ha) as [[x ->]|[[x ->]|[HK' [g [Ea Hg]]]]].
  - apply binop_scalar_vtab.
  - destruct (Nat.eq_dec K 1) as [->|HK]; [reflexivity|].
    now apply binop_one_vtab.
  - rewrite Ea at 1. rewrite binop_vtab_vtab. f_equal.
    apply vtab_ext. intros k Hk. now rewrite Hg.
Qed.

Lemma tmap_batch (f : Qc -> Qc) (K : nat) (a : tensor) :
  batch_ok K a = true ->
  batch_ok K (tmap f a) = true
  /\ forall k, k < K -> bget (tmap f a) k = f (bget a k).
Proof.
  intros Ha.
  destruct (batch_ok_cases K a Ha) as [[x ->]|[[x ->]|[HK' [g [Ea Hg]]]]].
  - now split.
  - split; [simpl; apply orb_true_r|reflexivity].
  - assert (E : tmap f a = vtab K (fun k => f (g k)))
      by (rewrite Ea; apply tmap_vtab).
    rewrite E. split; [apply batch_ok_vtab|].
    intros k Hk. now rewrite bget_vtab, Hg.
Qed.

Lemma batch_ok_scalar (K : nat) (x : Qc) : batch_ok K (Scalar x) = true.
Proof. reflexivity. Qed.

Lemma batch_result_ret (K : nat) (t : tensor) :
  batch_ok K t = true -> batch_result K (ret t) (bget t).
Proof. intros H. exists t. now repeat split. Qed.

Lemma batch_result_lift2 (f : Qc -> Qc -> Qc) (K : nat) (ra rb : result tensor)
  (g h : nat -> Qc) :
  batch_result K ra g -> batch_result K rb h ->
  batch_result K (lift2 (binop f) ra rb) (fun k => f (g k) (h k)).
Proof.
  intros (a & -> & Ha & Hg) (b & -> & Hb & Hh).
  destruct (binop_batch f K a b Ha Hb) as (c & Hc & Hok & Hget).
  exists c. cbn [lift2 bind]. repeat split; auto.
  intros k Hk. now rewrite Hget, Hg, Hh.
Qed.

Lemma batch_result_neg (K : nat) (ra : result tensor) (g : nat -> Qc) :
  batch_result K ra g ->
  batch_result K (-! ra) (fun k => (- g k)%Qc).
Proof.
  intros (a & -> & Ha & Hg).
  destruct (tmap_batch Qcopp K a Ha) as [Hok Hget].
  exists (tneg a). cbn [bind]. repeat split; auto.
  intros k Hk. unfold tneg. now rewrite Hget, Hg.
Qed.

Ltac batch_expr :=
  unfold tadd, tsub, tmul, tdiv;
  repeat first
    [ eapply batch_result_lift2
    | eapply batch_result_neg
    | eapply batch_result_ret; first [ eassumption | apply batch_ok_scalar ] ].

Lemma Qcdiv_congr (x x' y y' : Qc) : x = x' -> y = y' -> (x / y = x' / y')%Qc.
Proof. now intros -> ->. Qed.

(* ================================================================== *)
(** * The boundary discretizer *)

Ltac batch_step K t Hok Hget :=
  lazymatch goal with
  | |- exists _ _ _, bind ?e _ = _ /\ _ =>
      let H := fresh "H" in
      let E := fresh "E" in
      eassert (H : batch_result K e _) by batch_expr;
      destruct H as (t & E & Hok & Hget); rewrite E; cbn [bind]; clear E
  end.

Lemma discretize_robin (K : nat) (dx0 dx1 : Qc) (alpha : option tensor)
  (beta gamma : tensor) :
  batch_ok_opt K alpha = true -> batch_ok K beta = true ->
  batch_ok K gamma = true ->
  exists xi1 xi2 eta,
    _discretize_boundary_conditions (Scalar dx0) (Scalar dx1) alpha (Some beta) gamma
    = Ok (xi1, xi2, eta)
    /\ batch_ok K xi1 = true /\ batch_ok K xi2 = true /\ batch_ok K eta = true
    /\ forall k, k < K ->
         bget xi1 k = spec_xi1 (bget_opt alpha k) (bget beta k) dx0 dx1
         /\ bget xi2 k = spec_xi2 (bget_opt alpha k) (bget beta k) dx0 dx1
         /\ bget eta k
            = spec_eta (bget_opt alpha k) (bget beta k) (bget gamma k) dx0 dx1.
Proof.
  intros Ha Hb Hg. unfold _discretize_boundary_conditions.
  batch_step K d0 Hd0 Gd0.
  assert (Hd : exists d,
             match alpha with
             | Some a =>
                 d0 +! a *! Scalar dx0 *! Scalar dx1 *! (Scalar dx0 +! Scalar dx1)
             | None => Ok d0
             end = Ok d
             /\ batch_ok K d = true
             /\ forall k, k < K ->
                  bget d k = spec_denom (bget_opt alpha k) (bget beta k) dx0 dx1).
  { destruct alpha as [a|]; simpl in Ha.
    - lazymatch goal with
      | |- exists _, ?e = _ /\ _ => eassert (H : batch_result K e _) by batch_expr
      end.
      destruct H as (d & E & Hok & Hget).
      exists d. split; [exact E|]. split; [exact Hok|].
      intros k Hk. rewrite Hget, Gd0 by assumption. reflexivity.
    - exists d0. repeat split; auto. intros k Hk. rewrite Gd0 by assumption.
      unfold spec_denom; simpl. ring. }
  destruct Hd as (d & -> & Hd & Gd). cbn [bind].
  batch_step K xi1 Hxi1 Gxi1.
  batch_step K xi2 Hxi2 Gxi2.
  batch_step K eta Heta Geta.
  exists xi1, xi2, eta. repeat split; auto.
  - rewrite Gxi1, Gd by assumption. unfold spec_xi1.
    apply Qcdiv_congr; [simpl; ring|reflexivity].
  - rewrite Gxi2, Gd by assumption. unfold spec_xi2.
    apply Qcdiv_congr; [simpl; ring|reflexivity].
  - rewrite Geta, Gd by assumption. unfold spec_eta.
    apply Qcdiv_congr; [simpl; ring|reflexivity].
Qed.

Lemma discretize_dirichlet (K : nat) (dx0 dx1 alpha gamma : tensor) :
  batch_ok K alpha = true -> batch_ok K gamma = true ->
  exists eta,
    _discretize_boundary_conditions dx0 dx1 (Some alpha) None gamma
    = Ok (zeros_like gamma, zeros_like gamma, eta)
    /\ batch_ok K (zeros_like gamma) = true /\ batch_ok K eta = true
    /\ forall k, k < K ->
         bget (zeros_like gamma) k = 0%Qc
         /\ bget eta k = (bget gamma k / bget alpha k)%Qc.
Proof.
  intros Ha Hg. unfold _discretize_boundary_conditions.
  destruct (binop_batch Qcdiv K gamma alpha Hg Ha) as (eta & E & Hok & Hget).
  destruct (tmap_batch (fun _ => 0%Qc) K gamma Hg) as [Hz Gz].
  exists eta. cbn [lift2 bind ret]. unfold tdiv. rewrite E. cbn [bind].
  repeat split; auto.
Qed.

Lemma edge_ok_inv (K : nat) (alpha beta : option tensor) (gamma : tensor) :
  edge_ok K (alpha, beta, gamma) = true ->
  batch_ok_opt K alpha = true /\ batch_ok_opt K beta = true
  /\ batch_ok K gamma = true /\ (is_some alpha || is_some beta) = true.
Proof.
  unfold edge_ok. intros H.
  apply andb_prop in H as [H H4]. apply andb_prop in H as [H H3].
  apply andb_prop in H as [H1 H2]. auto.
Qed.

(** The rule of any usable boundary condition. *)
Lemma discretize_edge (K : nat) (dx0 dx1 : Qc) (alpha beta : option tensor)
  (gamma : tensor) :
  edge_ok K (alpha, beta, gamma) = true ->
  exists xi1 xi2 eta,
    _discretize_boundary_conditions (Scalar dx0) (Scalar dx1) alpha beta gamma
    = Ok (xi1, xi2, eta)
    /\ batch_ok K xi1 = true /\ batch_ok K xi2 = true /\ batch_ok K eta = true
    /\ forall k, k < K ->
         bget xi1 k = rule_xi1 (bget_opt alpha k) (bget_opt beta k) dx0 dx1
         /\ bget xi2 k = rule_xi2 (bget_opt alpha k) (bget_opt beta k) dx0 dx1
         /\ bget eta k
            = rule_eta (bget_opt alpha k) (bget_opt beta k) (bget gamma k) dx0 dx1.
Proof.
  intros H. apply edge_ok_inv in H as (Ha & Hb & Hg & Hab).
  destruct beta as [b|].
  - exact (discretize_robin K dx0 dx1 alpha b gamma Ha Hb Hg).
  - destruct alpha as [a|]; [|discriminate].
    destruct (discretize_dirichlet K (Scalar dx0) (Scalar dx1) a gamma Ha Hg)
      as (eta & E & Hz & He & Hget).
    exists (zeros_like gamma), (zeros_like gamma), eta.
    repeat split; auto; apply Hget; assumption.
Qed.

(* ================================================================== *)
(** * The stencil *)

Lemma stretch_length (A : Type) (d : A) (n : nat) (l : list A) :
  length (stretch d n l) = n.
Proof.
  unfold stretch. destruct (Nat.eqb_spec (length l) n); [assumption|].
  apply repeat_length.
Qed.

Lemma forallb_repeat (A : Type) (p : A -> bool) (x : A) (n : nat) :
  p x = true -> forallb p (repeat x n) = true.
Proof. intros H. induction n; simpl; [reflexivity|]. now rewrite H. Qed.

Lemma broadcast_to_has_shape2 (t A : tensor) (K N : nat) :
  broadcast_to t [K; N] = Ok A -> has_shape A [K; N].
Proof.
  unfold has_shape.
  destruct t as [x|v|n rows]; simpl.
  - intros [= <-]. simpl. rewrite repeat_length. split; [reflexivity|].
    apply forallb_repeat. rewrite repeat_length. apply Nat.eqb_refl.
  - destruct (bdim_to (length v) N); simpl; [|discriminate].
    intros [= <-]. simpl. rewrite repeat_length. split; [reflexivity|].
    apply forallb_repeat. rewrite stretch_length. apply Nat.eqb_refl.
  - destruct (bdim_to n N); simpl; [|discriminate].
    destruct (bdim_to (length rows) K); simpl; [|discriminate].
    intros [= <-]. simpl. rewrite length_map, stretch_length.
    split; [reflexivity|].
    apply forallb_forall. intros r Hr. apply in_map_iff in Hr as (r' & <- & _).
    rewrite stretch_length. apply Nat.eqb_refl.
Qed.

Lemma has_shape2_mtab (t : tensor) (K n : nat) :
  has_shape t [K; n] -> t = mtab K n (entry t).
Proof. intros [H1 H2]. now apply tensor_of_shape2. Qed.

Lemma item_cons_0 (A : Type) (x : A) (l : list A) : item (x :: l) 0 = Ok x.
Proof.
  now rewrite (@item_Some _ (x :: l) 0%Z 0 x)
    by (apply (norm_index_nat (n := S (length l)) (j := 0)); lia).
Qed.

Create Rewrite HintDb tab.
#[export] Hint Rewrite tensor_slice_tail_vtab tensor_slice_init_vtab
  last_slice_inner_mtab last_slice_tail_mtab last_slice_init_mtab
  binop_vtab_vtab binop_scalar_vtab binop_vtab_scalar binop_mtab_mtab
  binop_mtab_vtab binop_vtab_mtab binop_scalar_mtab binop_mtab_scalar
  tmap_vtab tmap_mtab append_first_and_last_tab append_first_tab
  append_last_tab item_cons_0 : tab.

Ltac tab_step :=
  cbn [lift2 bind ret call convert_to_tensor];
  unfold tadd, tsub, tmul, tdiv, tneg, zeros_like;
  autorewrite with tab.
Ltac tab := repeat (progress tab_step).

Lemma stencil_entries (K N : nat) (coord_grid : list tensor) (ds : list Qc)
  (value_grid : tensor) (sf : second_order_fn) (ff : first_order_fn)
  (zf : zeroth_order_fn) (t : Qc) (araw braw craw A B C : tensor)
  (ra1 : list (option tensor)) (ra2 : list (list (option tensor)))
  (rb : list (option tensor)) :
  shape value_grid = [K; N] -> length ds = N - 1 ->
  sf t coord_grid = (Some araw :: ra1) :: ra2 ->
  ff t coord_grid = Some braw :: rb ->
  zf t coord_grid = Some craw ->
  broadcast_to araw [K; N] = Ok A ->
  broadcast_to braw [K; N] = Ok B ->
  broadcast_to craw [K; N] = Ok C ->
  space_discretized_stencil coord_grid (Vec ds) value_grid
    (Some sf) (Some ff) (Some zf) t
  = Ok (mtab K (N - 2) (fun k i =>
          spec_diag (delta ds i) (delta ds (S i))
            (entry A k (S i)) (entry B k (S i)) (entry C k (S i))),
        mtab K (N - 2) (fun k i =>
          spec_upper (delta ds i) (delta ds (S i))
            (entry A k (S i)) (entry B k (S i))),
        mtab K (N - 2) (fun k i =>
          spec_lower (delta ds i) (delta ds (S i))
            (entry A k (S i)) (entry B k (S i)))).
Proof.
  intros Hvg Hds Hsf Hff Hzf HA HB HC.
  pose proof (has_shape2_mtab (broadcast_to_has_shape2 araw K N HA)) as EA.
  pose proof (has_shape2_mtab (broadcast_to_has_shape2 braw K N HB)) as EB.
  pose proof (has_shape2_mtab (broadcast_to_has_shape2 craw K N HC)) as EC.
  set (gA := entry A) in *. set (gB := entry B) in *. set (gC := entry C) in *.
  unfold space_discretized_stencil, _prepare_pde_coeffs.
  rewrite (Vec_is_vtab ds), Hds.
  tab. rewrite Hsf, Hff, Hzf, Hvg. tab. rewrite HA, HB, HC. cbn [bind].
  rewrite EA, EB, EC. tab.
  replace (N - 1 - 1) with (N - 2) by lia. tab.
  f_equal. f_equal; [f_equal|]; apply mtab_ext; intros k i Hk Hi;
    unfold spec_diag, spec_upper, spec_lower, delta;
    rewrite (Qcplus_comm (nth (S i) ds 0%Qc) (nth i ds 0%Qc));
    unfold Qcdiv; ring.
Qed.

(* ================================================================== *)
(** * Boundary values after the step *)

Lemma tensor_item_vtab_0 (n : nat) (g : nat -> Qc) :
  1 <= n -> tensor_item (vtab n g) 0 = Ok (Scalar (g 0)).
Proof. intros H. apply tensor_item_vtab. apply (norm_index_nat (j := 0)). lia. Qed.

Lemma tensor_item_vtab_1 (n : nat) (g : nat -> Qc) :
  2 <= n -> tensor_item (vtab n g) 1 = Ok (Scalar (g 1)).
Proof. intros H. apply tensor_item_vtab. apply (norm_index_nat (j := 1)). lia. Qed.

Lemma tensor_item_vtab_m1 (n : nat) (g : nat -> Qc) :
  1 <= n -> tensor_item (vtab n g) (-1) = Ok (Scalar (g (n - 1))).
Proof. intros H. apply tensor_item_vtab. apply (norm_index_neg (j := 1)); lia. Qed.

Lemma tensor_item_vtab_m2 (n : nat) (g : nat -> Qc) :
  2 <= n -> tensor_item (vtab n g) (-2) = Ok (Scalar (g (n - 2))).
Proof. intros H. apply tensor_item_vtab. apply (norm_index_neg (j := 2)); lia. Qed.

Lemma last_item_mtab_0 (K n : nat) (g : nat -> nat -> Qc) :
  1 <= n -> last_item (mtab K n g) 0 = Ok (vtab K (fun k => g k 0)).
Proof. intros H. apply last_item_mtab. apply (norm_index_nat (j := 0)). lia. Qed.

Lemma last_item_mtab_1 (K n : nat) (g : nat -> nat -> Qc) :
  2 <= n -> last_item (mtab K n g) 1 = Ok (vtab K (fun k => g k 1)).
Proof. intros H. apply last_item_mtab. apply (norm_index_nat (j := 1)). lia. Qed.

Lemma last_item_mtab_m1 (K n : nat) (g : nat -> nat -> Qc) :
  1 <= n -> last_item (mtab K n g) (-1) = Ok (vtab K (fun k => g k (n - 1))).
Proof. intros H. apply last_item_mtab. apply (norm_index_neg (j := 1)); lia. Qed.

Lemma last_item_mtab_m2 (K n : nat) (g : nat -> nat -> Qc) :
  2 <= n -> last_item (mtab K n g) (-2) = Ok (vtab K (fun k => g k (n - 2))).
Proof. intros H. apply last_item_mtab. apply (norm_index_neg (j := 2)); lia. Qed.

Lemma lift2_Ok (op : tensor -> tensor -> result tensor) (a b : tensor) :
  lift2 op (Ok a) (Ok b) = op a b.
Proof. reflexivity. Qed.

(** The boundary value [xi1 * v1 + xi2 * v2 + eta] of every batch row. *)
Lemma extrapolate_tab (K : nat) (xi1 xi2 eta : tensor) (v1 v2 : nat -> Qc) :
  batch_ok K xi1 = true -> batch_ok K xi2 = true -> batch_ok K eta = true ->
  xi1 *! Ok (vtab K v1) +! xi2 *! Ok (vtab K v2) +! eta
  = Ok (vtab K (fun k => (bget xi1 k * v1 k + bget xi2 k * v2 k + bget eta k)%Qc)).
Proof.
  intros H1 H2 H3. unfold ret, tadd, tmul.
  rewrite !lift2_Ok.
  rewrite (binop_batch_vtab Qcmult K xi1 v1 H1).
  rewrite (binop_batch_vtab Qcmult K xi2 v2 H2).
  rewrite lift2_Ok, binop_vtab_vtab, lift2_Ok.
  now rewrite (binop_vtab_batch Qcplus K _ eta H3).
Qed.

Lemma after_step_entries (K M : nat) (ds : list Qc) (gi : nat -> nat -> Qc)
  (lo up : bc_fn) (rest : list (bc_fn * bc_fn)) (coord_grid : list tensor)
  (g0 x0 : tensor) (t : Qc) :
  2 <= M -> 2 <= length ds ->
  item coord_grid 0 = Ok g0 -> tensor_item g0 0 = Ok x0 ->
  edge_ok K (lo t (ArgTensor x0)) = true ->
  edge_ok K (up t (ArgGrid coord_grid)) = true ->
  _apply_boundary_conditions_after_step (mtab K M gi) ((lo, up) :: rest)
    coord_grid (Vec ds) t
  = Ok (mtab K (M + 2) (fun k j =>
          if j =? 0 then
            edge_value (lo t (ArgTensor x0)) k (delta ds 0) (delta ds 1)
              (gi k 0) (gi k 1)
          else if j <=? M then gi k (j - 1)
          else
            edge_value (up t (ArgGrid coord_grid)) k
              (delta ds (length ds - 1)) (delta ds (length ds - 2))
              (gi k (M - 1)) (gi k (M - 2)))).
Proof.
  intros HM Hds Hg0 Hx0 Hlo Hup.
  unfold _apply_boundary_conditions_after_step.
  rewrite item_cons_0, Hg0. cbn [bind]. rewrite Hx0. cbn [bind fst snd].
  destruct (lo t (ArgTensor x0)) as [[al bl] gl].
  destruct (up t (ArgGrid coord_grid)) as [[au bu] gu].
  rewrite (Vec_is_vtab ds).
  rewrite tensor_item_vtab_0, tensor_item_vtab_1, tensor_item_vtab_m1,
    tensor_item_vtab_m2 by lia.
  cbn [bind].
  destruct (discretize_edge K (nth 0 ds 0%Qc) (nth 1 ds 0%Qc) al bl gl Hlo)
    as (xi1 & xi2 & eta & -> & H1 & H2 & H3 & HL).
  cbn [bind].
  rewrite last_item_mtab_0, last_item_mtab_1, last_item_mtab_m1,
    last_item_mtab_m2 by lia.
  rewrite extrapolate_tab by assumption. cbn [bind].
  destruct (discretize_edge K (nth (length ds - 1) ds 0%Qc)
              (nth (length ds - 2) ds 0%Qc) au bu gu Hup)
    as (xi1' & xi2' & eta' & -> & H1' & H2' & H3' & HU).
  cbn [bind].
  rewrite extrapolate_tab by assumption. cbn [bind].
  rewrite append_first_and_last_tab. f_equal.
  apply mtab_ext. intros k j Hk Hj.
  unfold edge_value, edge_xi1, edge_xi2, edge_eta, delta.
  destruct (HL k Hk) as (-> & -> & ->). destruct (HU k Hk) as (-> & -> & ->).
  reflexivity.
Qed.

(* ================================================================== *)
(** * Boundary conditions folded into the discretized equation *)

#[export] Hint Rewrite lift2_Ok : tab.

Ltac edge_step :=
  cbn [bind fst snd];
  unfold ret, tadd, tsub, tmul, tdiv, zeros_like, convert_to_tensor;
  autorewrite with tab;
  rewrite ?binop_vtab_batch by assumption.
Ltac edge_steps := repeat (progress edge_step).

Lemma injector_fast_path (K M : nat) (gd gu gl : nat -> nat -> Qc)
  (lo up : bc_fn) (rest : list (bc_fn * bc_fn)) (coord_grid : list tensor)
  (deltas alpha_l gamma_l alpha_u gamma_u : tensor) (t : Qc) :
  1 <= M ->
  lo t (ArgGrid coord_grid) = (Some alpha_l, None, gamma_l) ->
  up t (ArgGrid coord_grid) = (Some alpha_u, None, gamma_u) ->
  batch_ok K alpha_l = true -> batch_ok K gamma_l = true ->
  batch_ok K alpha_u = true -> batch_ok K gamma_u = true ->
  _apply_boundary_conditions_to_discretized_equation ((lo, up) :: rest)
    coord_grid deltas (mtab K M gd) (mtab K M gu) (mtab K M gl) t
  = Ok ((mtab K M gd, mtab K M gu, mtab K M gl),
        mtab K (M - 2 + 2) (fun k j =>
          if j =? 0 then (gl k 0%nat * bget gamma_l k / bget alpha_l k)%Qc
          else if j <=? M - 2 then 0%Qc
          else (gu k (M - 1)%nat * bget gamma_u k / bget alpha_u k)%Qc)).
Proof.
  intros HM Hlo Hup Hal Hgl Hau Hgu.
  unfold _apply_boundary_conditions_to_discretized_equation.
  rewrite item_cons_0. cbn [bind fst snd]. rewrite Hlo, Hup.
  rewrite last_item_mtab_0, last_item_mtab_m1 by lia.
  edge_steps. reflexivity.
Qed.

Lemma injector_general_path (K M : nat) (ds : list Qc)
  (gd gu gl : nat -> nat -> Qc) (lo up : bc_fn) (rest : list (bc_fn * bc_fn))
  (coord_grid : list tensor) (t : Qc) :
  2 <= M -> 2 <= length ds ->
  edge_ok K (lo t (ArgGrid coord_grid)) = true ->
  edge_ok K (up t (ArgGrid coord_grid)) = true ->
  (is_some (snd (fst (lo t (ArgGrid coord_grid))))
   || is_some (snd (fst (up t (ArgGrid coord_grid))))) = true ->
  let L := lo t (ArgGrid coord_grid) in
  let U := up t (ArgGrid coord_grid) in
  let dl0 := delta ds 0 in
  let dl1 := delta ds 1 in
  let du0 := delta ds (length ds - 1) in
  let du1 := delta ds (length ds - 2) in
  _apply_boundary_conditions_to_discretized_equation ((lo, up) :: rest)
    coord_grid (Vec ds) (mtab K M gd) (mtab K M gu) (mtab K M gl) t
  = Ok ((mtab K M (fun k j =>
           if j =? 0 then (gd k 0%nat + gl k 0%nat * edge_xi1 L k dl0 dl1)%Qc
           else if j <? M - 1 then gd k j
           else (gd k (M - 1)%nat + gu k (M - 1)%nat * edge_xi1 U k du0 du1)%Qc),
         mtab K M (fun k j =>
           if j =? 0 then (gu k 0%nat + gl k 0%nat * edge_xi2 L k dl0 dl1)%Qc
           else gu k j),
         mtab K M (fun k j =>
           if j <? M - 1 then gl k j
           else (gl k (M - 1)%nat + gu k (M - 1)%nat * edge_xi2 U k du0 du1)%Qc)),
        mtab K M (fun k j =>
          if j =? 0 then (gl k 0%nat * edge_eta L k dl0 dl1)%Qc
          else if j <? M - 1 then 0%Qc
          else (gu k (M - 1)%nat * edge_eta U k du0 du1)%Qc)).
Proof.
  intros HM Hds Hlo Hup Hgen L U dl0 dl1 du0 du1.
  unfold _apply_boundary_conditions_to_discretized_equation.
  rewrite item_cons_0. cbn [bind fst snd].
  subst L U. 
  destruct (lo t (ArgGrid coord_grid)) as [[al bl] gaml].
  destruct (up t (ArgGrid coord_grid)) as [[au bu] gamu].
  cbn [fst snd] in Hgen.
  destruct (discretize_edge K dl0 dl1 al bl gaml Hlo)
    as (xi1 & xi2 & eta & EL & H1 & H2 & H3 & HL).
  destruct (discretize_edge K du0 du1 au bu gamu Hup)
    as (xi1' & xi2' & eta' & EU & H1' & H2' & H3' & HU).
  assert (Hbody :
    (dx0 <- tensor_item (Vec ds) 0;;
      dx1 <- tensor_item (Vec ds) 1;;
      '(xi1, xi2, eta) <- _discretize_boundary_conditions dx0 dx1 al bl gaml;;
      diag_first_correction <- last_item (mtab K M gl) 0 *! xi1;;
      upper_diag_correction <- last_item (mtab K M gl) 0 *! xi2;;
      first_inhomog_element <- last_item (mtab K M gl) 0 *! eta;;
      dx0 <- tensor_item (Vec ds) (-1);;
      dx1 <- tensor_item (Vec ds) (-2);;
      '(xi1, xi2, eta) <- _discretize_boundary_conditions dx0 dx1 au bu gamu;;
      diag_last_correction <- last_item (mtab K M gu) (-1) *! xi1;;
      lower_diag_correction <- last_item (mtab K M gu) (-1) *! xi2;;
      last_inhomog_element <- last_item (mtab K M gu) (-1) *! eta;;
      diag_first <- last_item (mtab K M gd) 0 +! diag_first_correction;;
      diag_inner <- last_slice (Some 1%Z) (Some (-1)%Z) (mtab K M gd);;
      diag_last <- last_item (mtab K M gd) (-1) +! diag_last_correction;;
      diagonal <- _append_first_and_last diag_first diag_inner diag_last;;
      upper_first <- last_item (mtab K M gu) 0 +! upper_diag_correction;;
      upper_rest <- last_slice (Some 1%Z) None (mtab K M gu);;
      upper_diagonal <- _append_first upper_first upper_rest;;
      lower_rest <- last_slice None (Some (-1)%Z) (mtab K M gl);;
      lower_last <- last_item (mtab K M gl) (-1) +! lower_diag_correction;;
      lower_diagonal <- _append_last lower_rest lower_last;;
      inner <- last_slice (Some 1%Z) (Some (-1)%Z) diagonal;;
      inhomog_term <- _append_first_and_last first_inhomog_element
                        (zeros_like inner) last_inhomog_element;;
      Ok ((diagonal, upper_diagonal, lower_diagonal), inhomog_term))
    = Ok ((mtab K M (fun k j =>
           if j =? 0 then (gd k 0%nat + gl k 0%nat * edge_xi1 (al, bl, gaml) k dl0 dl1)%Qc
           else if j <? M - 1 then gd k j
           else (gd k (M - 1)%nat + gu k (M - 1)%nat * edge_xi1 (au, bu, gamu) k du0 du1)%Qc),
         mtab K M (fun k j =>
           if j =? 0 then (gu k 0%nat + gl k 0%nat * edge_xi2 (al, bl, gaml) k dl0 dl1)%Qc
           else gu k j),
         mtab K M (fun k j =>
           if j <? M - 1 then gl k j
           else (gl k (M - 1)%nat + gu k (M - 1)%nat * edge_xi2 (au, bu, gamu) k du0 du1)%Qc)),
        mtab K M (fun k j =>
          if j =? 0 then (gl k 0%nat * edge_eta (al, bl, gaml) k dl0 dl1)%Qc
          else if j <? M - 1 then 0%Qc
          else (gu k (M - 1)%nat * edge_eta (au, bu, gamu) k du0 du1)%Qc))).
  { rewrite (Vec_is_vtab ds).
    rewrite tensor_item_vtab_0, tensor_item_vtab_1, tensor_item_vtab_m1,
      tensor_item_vtab_m2 by lia.
    cbn [bind]. fold (delta ds 0) (delta ds 1) (delta ds (length ds - 1))
      (delta ds (length ds - 2)). fold dl0 dl1 du0 du1.
    rewrite EL, EU.
    rewrite !last_item_mtab_0, !last_item_mtab_m1 by lia.
    edge_steps.
    replace (M - 2 + 2 - 2 + 2) with M by lia.
    replace (M - 2 + 2 - 2) with (M - 2) by lia.
    replace (M - 2 + 2) with M by lia.
    replace (S (M - 1)) with M by lia.
    f_equal. f_equal; [f_equal; [f_equal|]|];
      apply mtab_ext; intros k j Hk Hj;
      destruct (HL k Hk) as (E1 & E2 & E3);
      destruct (HU k Hk) as (E1' & E2' & E3');
      unfold edge_xi1, edge_xi2, edge_eta;
      rewrite <- ?E1, <- ?E2, <- ?E3, <- ?E1', <- ?E2', <- ?E3';
      destruct (Nat.eqb_spec j 0); try reflexivity;
      destruct (Nat.leb_spec j (M - 2)); destruct (Nat.ltb_spec j (M - 1));
      try lia; try reflexivity; f_equal; lia. }
  destruct bl as [bl|], bu as [bu|]; try discriminate Hgen; exact Hbody.
Qed.

(* ================================================================== *)
(** * The step *)

Lemma grid_deltas_tab (xs : list Qc) :
  tensor_slice (Some 1%Z) None (Vec xs) -! tensor_slice None (Some (-1)%Z) (Vec xs)
  = Ok (Vec (spacings xs)).
Proof.
  rewrite (Vec_is_vtab xs). autorewrite with tab.
  unfold tsub. autorewrite with tab. reflexivity.
Qed.

Lemma spacings_length (xs : list Qc) : length (spacings xs) = length xs - 1.
Proof. unfold spacings. now rewrite length_map, length_seq. Qed.

Lemma step_unfold (K N : nat) (time next_time : Qc) (xs : list Qc)
  (grest : list tensor) (gv : nat -> nat -> Qc)
  (bcs : list (bc_fn * bc_fn)) (so : option second_order_fn)
  (fo : option first_order_fn) (zo : option zeroth_order_fn)
  (tms : marching_scheme) :
  exists f,
    parabolic_equation_step time next_time (Vec xs :: grest) (mtab K N gv)
      bcs so fo zo tms
    = (out <- tms (mtab K (N - 2) (fun k j => gv k (S j))) next_time time f;;
       upd <- _apply_boundary_conditions_after_step out bcs (Vec xs :: grest)
                (Vec (spacings xs)) next_time;;
       Ok (Vec xs :: grest, upd)).
Proof.
  eexists. unfold parabolic_equation_step.
  rewrite last_slice_inner_mtab, item_cons_0. cbn [bind].
  rewrite grid_deltas_tab. cbn [bind]. reflexivity.
Qed.

Lemma lift2_inv (op : tensor -> tensor -> result tensor)
  (ra rb : result tensor) (c : tensor) :
  lift2 op ra rb = Ok c -> exists a b, ra = Ok a /\ rb = Ok b /\ op a b = Ok c.
Proof.
  destruct ra as [a|e]; [|discriminate]. destruct rb as [b|e]; [|discriminate].
  intros H. now exists a, b.
Qed.

Lemma last_item_mtab_inv (K n : nat) (g : nat -> nat -> Qc) (i : Z) (v : tensor) :
  last_item (mtab K n g) i = Ok v ->
  exists j, norm_index n i = Some j /\ v = vtab K (fun k => g k j).
Proof.
  destruct (norm_index n i) as [j|] eqn:E.
  - rewrite (@last_item_mtab K n g i j E). intros [= <-]. now exists j.
  - now rewrite (@last_item_mtab_out K n g i E).
Qed.

Lemma append_first_and_last_inv (K M : nat) (g : nat -> nat -> Qc)
  (fv lv upd : tensor) :
  _append_first_and_last fv (mtab K M g) lv = Ok upd ->
  exists a b, fv = vtab K a /\ lv = vtab K b.
Proof.
  unfold _append_first_and_last, concat.
  destruct fv as [x|v|n r]; destruct lv as [y|w|m s];
    cbn [expand_dims bind fold_left]; try discriminate;
    unfold mtab; cbn [concat2 bind]; try discriminate;
    rewrite ?length_map, ?length_seq;
    (destruct (Nat.eqb_spec (length v) K) as [Hv|]; cbn [bind concat2];
     [|discriminate]); try discriminate.
  rewrite !length_map.
  rewrite map2_length by (now rewrite !length_map, length_seq).
  rewrite length_map.
  destruct (Nat.eqb_spec (length v) (length w)) as [Hw|]; [|discriminate].
  intros _. exists (fun j => nth j v 0%Qc), (fun j => nth j w 0%Qc).
  split; [rewrite <- Hv | rewrite <- Hv, Hw]; apply Vec_is_vtab.
Qed.

Lemma norm_index_nat_inv (n i j : nat) :
  norm_index n (Z.of_nat i) = Some j -> j = i /\ i < n.
Proof.
  destruct (Nat.lt_ge_cases i n) as [H|H].
  - rewrite (norm_index_nat H). intros [= <-]. now split.
  - now rewrite (norm_index_out_nat H).
Qed.

Ltac inv_bind x E :=
  lazymatch goal with
  | |- bind ?e _ = Ok _ -> _ =>
      destruct e as [x|] eqn:E; cbn [bind]; [|discriminate]
  end.

Lemma after_step_ok_inv (K M : nat) (g : nat -> nat -> Qc)
  (bcs : list (bc_fn * bc_fn)) (coord_grid : list tensor) (deltas : tensor)
  (t : Qc) (upd : tensor) :
  _apply_boundary_conditions_after_step (mtab K M g) bcs coord_grid deltas t
  = Ok upd ->
  2 <= M /\ has_shape upd [K; M + 2]
  /\ is_ok (tensor_item deltas 1) = true
  /\ is_ok (tensor_item deltas (-2)) = true.
Proof.
  unfold _apply_boundary_conditions_after_step.
  inv_bind bc Ebc. inv_bind g0 Eg0. inv_bind x0 Ex0.
  destruct (fst bc t (ArgTensor x0)) as [[al bl] gl].
  inv_bind dx0 Ed0. inv_bind dx1 Ed1. inv_bind rl El.
  destruct rl as [[xi1 xi2] eta].
  inv_bind fv Efv.
  destruct (snd bc t (ArgGrid coord_grid)) as [[au bu] gu].
  inv_bind dx0' Ed0'. inv_bind dx1' Ed1'. inv_bind ru Eu.
  destruct ru as [[xi1' xi2'] eta'].
  inv_bind lv Elv.
  intros H.
  pose proof H as Hc. apply append_first_and_last_inv in Hc.
  destruct Hc as (fa & fb & -> & ->).
  rewrite append_first_and_last_tab in H. injection H as <-.
  apply lift2_inv in Efv as (s1 & s2 & Efv & _ & _).
  apply lift2_inv in Efv as (_ & s3 & _ & Efv & _).
  apply lift2_inv in Efv as (_ & s4 & _ & Efv & _).
  apply last_item_mtab_inv in Efv as (j & Efv & _).
  apply (@norm_index_nat_inv M 1 j) in Efv as [_ HM].
  repeat split; [lia | apply shape_mtab | apply wf_mtab].
Qed.

Lemma step_ok_inv (K N : nat) (time next_time : Qc) (coord_grid : list tensor)
  (value_grid : tensor) (bcs : list (bc_fn * bc_fn))
  (so : option second_order_fn) (fo : option first_order_fn)
  (zo : option zeroth_order_fn) (tms : marching_scheme)
  (g' : list tensor) (v' : tensor) :
  has_shape value_grid [K; N] -> marching_preserves_shape tms ->
  parabolic_equation_step time next_time coord_grid value_grid bcs so fo zo tms
  = Ok (g', v') ->
  g' = coord_grid /\ 4 <= N /\ has_shape v' [K; N].
Proof.
  intros Hvg Htms. rewrite (has_shape2_mtab Hvg).
  unfold parabolic_equation_step. cbv zeta.
  rewrite last_slice_inner_mtab. cbn [bind].
  inv_bind g0 Eg0. inv_bind deltas Ed. inv_bind out Eout.
  apply Htms in Eout; [|apply wf_mtab]. rewrite shape_mtab in Eout.
  rewrite (has_shape2_mtab Eout).
  inv_bind upd Eupd. intros [= <- <-].
  apply after_step_ok_inv in Eupd as (HM & Hs & _).
  split; [reflexivity|]. split; [lia|].
  now replace (N - 2 + 2) with N in Hs by lia.
Qed.

Lemma tensor_item_Vec_0 (xs : list Qc) :
  1 <= length xs -> tensor_item (Vec xs) 0 = Ok (Scalar (nth 0 xs 0%Qc)).
Proof.
  intros H. rewrite (Vec_is_vtab xs) at 1. now rewrite tensor_item_vtab_0.
Qed.

Lemma step_entries (K N : nat) (time next_time : Qc) (xs : list Qc)
  (grest : list tensor) (value_grid out : tensor) (lo up : bc_fn)
  (brest : list (bc_fn * bc_fn)) (so : option second_order_fn)
  (fo : option first_order_fn) (zo : option zeroth_order_fn)
  (tms : marching_scheme) :
  4 <= N -> length xs = N -> has_shape value_grid [K; N] ->
  (forall f, tms (mtab K (N - 2) (fun k j => entry value_grid k (S j)))
               next_time time f = Ok out) ->
  has_shape out [K; N - 2] ->
  edge_ok K (lo next_time (ArgTensor (Scalar (nth 0 xs 0%Qc)))) = true ->
  edge_ok K (up next_time (ArgGrid (Vec xs :: grest))) = true ->
  parabolic_equation_step time next_time (Vec xs :: grest) value_grid
    ((lo, up) :: brest) so fo zo tms
  = Ok (Vec xs :: grest,
        mtab K N (fun k j =>
          if j =? 0 then
            edge_value (lo next_time (ArgTensor (Scalar (nth 0 xs 0%Qc)))) k
              (delta (spacings xs) 0) (delta (spacings xs) 1)
              (entry out k 0) (entry out k 1)
          else if j <? N - 1 then entry out k (j - 1)
          else
            edge_value (up next_time (ArgGrid (Vec xs :: grest))) k
              (delta (spacings xs) (N - 2)) (delta (spacings xs) (N - 3))
              (entry out k (N - 3)) (entry out k (N - 4)))).
Proof.
  intros HN Hxs Hvg Htms Hout Hlo Hup.
  rewrite (has_shape2_mtab Hvg) at 1.
  destruct (step_unfold K N time next_time xs grest (entry value_grid)
              ((lo, up) :: brest) so fo zo tms) as (f & ->).
  rewrite Htms. cbn [bind]. rewrite (has_shape2_mtab Hout) at 1.
  rewrite (@after_step_entries K (N - 2) (spacings xs) (entry out) lo up brest
             (Vec xs :: grest) (Vec xs) (Scalar (nth 0 xs 0%Qc)) next_time);
    try assumption; try lia.
  - cbn [bind]. f_equal. f_equal.
    rewrite spacings_length, Hxs.
    replace (N - 2 + 2) with N by lia.
    apply mtab_ext. intros k j Hk Hj.
    destruct (Nat.eqb_spec j 0); [reflexivity|].
    destruct (Nat.leb_spec j (N - 2)); destruct (Nat.ltb_spec j (N - 1));
      try lia; try reflexivity.
    replace (N - 1 - 1) with (N - 2) by lia.
    replace (N - 1 - 2) with (N - 3) by lia.
    replace (N - 2 - 1) with (N - 3) by lia.
    replace (N - 2 - 2) with (N - 4) by lia.
    reflexivity.
  - rewrite spacings_length. lia.
  - apply item_cons_0.
  - apply tensor_item_Vec_0. lia.
Qed.

Lemma has_shape_mtab (K n : nat) (g : nat -> nat -> Qc) :
  has_shape (mtab K n g) [K; n].
Proof. split; [apply shape_mtab | apply wf_mtab]. Qed.

(* ================================================================== *)
(** * The stencil builder *)

(** C1. At every interior grid point, with backward spacing [h0], forward
    spacing [h1], [s = h0 + h1] and the coefficient values [a], [b], [c] of
    the full-grid fields at that point, the stencil builder returns
    [upper = -(b/s + (2a/s)/h1)], [lower = b/s - (2a/s)/h0] and
    [diagonal = -c - upper - lower]; the coefficient fields are evaluated on
    the full grid ([A], [B], [C] have the shape of the value field) and
    interior point [i] reads them at grid index [i + 1]. *)
Theorem stencil_interior_point (K N : nat) (coord_grid : list tensor)
  (ds : list Qc) (value_grid : tensor) (sf : second_order_fn)
  (ff : first_order_fn) (zf : zeroth_order_fn) (t : Qc)
  (araw braw craw A B C : tensor)
  (ra1 : list (option tensor)) (ra2 : list (list (option tensor)))
  (rb : list (option tensor)) :
  shape value_grid = [K; N] -> length ds = N - 1 ->
  sf t coord_grid = (Some araw :: ra1) :: ra2 ->
  ff t coord_grid = Some braw :: rb ->
  zf t coord_grid = Some craw ->
  broadcast_to araw [K; N] = Ok A ->
  broadcast_to braw [K; N] = Ok B ->
  broadcast_to craw [K; N] = Ok C ->
  exists diagonal upper lower,
    space_discretized_stencil coord_grid (Vec ds) value_grid
      (Some sf) (Some ff) (Some zf) t
    = Ok (diagonal, upper, lower)
    /\ has_shape diagonal [K; N - 2] /\ has_shape upper [K; N - 2]
    /\ has_shape lower [K; N - 2]
    /\ forall k i, k < K -> i < N - 2 ->
         let h0 := delta ds i in
         let h1 := delta ds (S i) in
         let s := (h0 + h1)%Qc in
         let a := entry A k (S i) in
         let b := entry B k (S i) in
         let c := entry C k (S i) in
         entry upper k i = (- (b / s + (two * a / s) / h1))%Qc
         /\ entry lower k i = (b / s - (two * a / s) / h0)%Qc
         /\ entry diagonal k i = (- c - entry upper k i - entry lower k i)%Qc.
Proof.
  intros Hvg Hds Hsf Hff Hzf HA HB HC.
  rewrite (stencil_entries coord_grid ds value_grid sf ff zf t Hvg Hds
             Hsf Hff Hzf HA HB HC).
  do 3 eexists. split; [reflexivity|].
  repeat split; try apply shape_mtab; try apply wf_mtab;
    rewrite ?entry_mtab by assumption; reflexivity.
Qed.

Lemma stencil_interior_point_witness :
  shape ex_value_grid = [2; 4] /\ length ex_ds = 4 - 1
  /\ broadcast_to (Scalar (num 1)) [2; 4] = Ok ex_A
  /\ broadcast_to (Vec [num 1; num 2; num 3; num 4]) [2; 4] = Ok ex_B
  /\ broadcast_to (Mat 1 [[num 1]; [num 2]]) [2; 4] = Ok ex_C
  /\ exists diagonal upper lower,
       space_discretized_stencil ex_grid (Vec ex_ds) ex_value_grid
         (Some ex_second_order) (Some ex_first_order) (Some ex_zeroth_order)
         (num 0)
       = Ok (diagonal, upper, lower)
       /\ forall k i, k < 2 -> i < 4 - 2 ->
            entry upper k i
            = (- (entry ex_B k (S i) / (delta ex_ds i + delta ex_ds (S i))
                  + (two * entry ex_A k (S i) / (delta ex_ds i + delta ex_ds (S i)))
                    / delta ex_ds (S i)))%Qc.
Proof.
  repeat (split; [reflexivity|]).
  destruct (@stencil_interior_point 2 4 ex_grid ex_ds ex_value_grid
              ex_second_order ex_first_order ex_zeroth_order (num 0)
              (Scalar (num 1)) (Vec [num 1; num 2; num 3; num 4])
              (Mat 1 [[num 1]; [num 2]]) ex_A ex_B ex_C [] [] []
              eq_refl eq_refl eq_refl eq_refl eq_refl eq_refl eq_refl eq_refl)
    as (d & u & l & E & _ & _ & _ & H).
  exists d, u, l. split; [exact E|].
  intros k i Hk Hi. exact (proj1 (H k i Hk Hi)).
Defined.

Lemma Qc_pos_neq_0 (h : Qc) : (0 < h)%Qc -> h <> 0%Qc.
Proof. intros H E. subst h. exact (Qclt_not_eq 0 0 H eq_refl). Qed.

Lemma two_neq_0 : (1 + 1)%Qc <> 0%Qc.
Proof. discriminate. Qed.

Lemma Qc_double_neq_0 (h : Qc) : h <> 0%Qc -> (h + h)%Qc <> 0%Qc.
Proof.
  intros H E. replace (h + h)%Qc with ((1 + 1) * h)%Qc in E by ring.
  apply Qcmult_integral in E as [E|E]; [now apply two_neq_0|contradiction].
Qed.

(** C7. On a uniform grid of spacing [h] the stencil is the standard
    central-difference stencil: [diagonal = -c + 2a/h^2],
    [upper = -(b/(2h) + a/h^2)], [lower = b/(2h) - a/h^2], for all
    coefficient values [a], [b], [c]. *)
Theorem stencil_uniform_grid (K N : nat) (coord_grid : list tensor)
  (ds : list Qc) (value_grid : tensor) (sf : second_order_fn)
  (ff : first_order_fn) (zf : zeroth_order_fn) (t : Qc)
  (araw braw craw A B C : tensor)
  (ra1 : list (option tensor)) (ra2 : list (list (option tensor)))
  (rb : list (option tensor)) (h : Qc) :
  shape value_grid = [K; N] -> length ds = N - 1 ->
  sf t coord_grid = (Some araw :: ra1) :: ra2 ->
  ff t coord_grid = Some braw :: rb ->
  zf t coord_grid = Some craw ->
  broadcast_to araw [K; N] = Ok A ->
  broadcast_to braw [K; N] = Ok B ->
  broadcast_to craw [K; N] = Ok C ->
  (0 < h)%Qc -> (forall j, j < N - 1 -> delta ds j = h) ->
  exists diagonal upper lower,
    space_discretized_stencil coord_grid (Vec ds) value_grid
      (Some sf) (Some ff) (Some zf) t
    = Ok (diagonal, upper, lower)
    /\ forall k i, k < K -> i < N - 2 ->
         let a := entry A k (S i) in
         let b := entry B k (S i) in
         let c := entry C k (S i) in
         entry diagonal k i = (- c + two * a / h ^ 2)%Qc
         /\ entry upper k i = (- (b / (two * h) + a / h ^ 2))%Qc
         /\ entry lower k i = (b / (two * h) - a / h ^ 2)%Qc.
Proof.
  intros Hvg Hds Hsf Hff Hzf HA HB HC Hh Hunif.
  rewrite (stencil_entries coord_grid ds value_grid sf ff zf t Hvg Hds
             Hsf Hff Hzf HA HB HC).
  do 3 eexists. split; [reflexivity|].
  intros k i Hk Hi. cbv zeta.
  rewrite !entry_mtab by assumption.
  unfold spec_diag, spec_upper, spec_lower, two.
  rewrite !Hunif by lia.
  pose proof (Qc_pos_neq_0 Hh) as Hh0.
  pose proof (Qc_double_neq_0 Hh0) as Hhh.
  pose proof two_neq_0 as H2.
  repeat split; simpl Qcpower; field; auto.
Qed.

Lemma stencil_uniform_grid_witness :
  (0 < num 2)%Qc /\ (forall j, j < 4 - 1 -> delta ex_uniform_ds j = num 2)
  /\ exists diagonal upper lower,
       space_discretized_stencil ex_grid (Vec ex_uniform_ds) ex_value_grid
         (Some ex_second_order) (Some ex_first_order) (Some ex_zeroth_order)
         (num 0)
       = Ok (diagonal, upper, lower)
       /\ forall k i, k < 2 -> i < 4 - 2 ->
            entry diagonal k i
            = (- entry ex_C k (S i) + two * entry ex_A k (S i) / num 2 ^ 2)%Qc.
Proof.
  assert (Hunif : forall j, j < 4 - 1 -> delta ex_uniform_ds j = num 2).
  { intros [|[|[|j]]] Hj; try reflexivity. simpl in Hj. lia. }
  split; [reflexivity|]. split; [exact Hunif|].
  destruct (@stencil_uniform_grid 2 4 ex_grid ex_uniform_ds ex_value_grid
              ex_second_order ex_first_order ex_zeroth_order (num 0)
              (Scalar (num 1)) (Vec [num 1; num 2; num 3; num 4])
              (Mat 1 [[num 1]; [num 2]]) ex_A ex_B ex_C [] [] [] (num 2)
              eq_refl eq_refl eq_refl eq_refl eq_refl eq_refl eq_refl eq_refl
              eq_refl Hunif)
    as (d & u & l & E & H).
  exists d, u, l. split; [exact E|].
  intros k i Hk Hi. exact (proj1 (H k i Hk Hi)).
Defined.

(* ================================================================== *)
(** * The Robin rule *)

Lemma edge_ok_robin (K : nat) (alpha : option tensor) (beta gamma : tensor) :
  batch_ok_opt K alpha = true -> batch_ok K beta = true ->
  batch_ok K gamma = true -> edge_ok K (alpha, Some beta, gamma) = true.
Proof.
  intros Ha Hb Hg. unfold edge_ok. cbn [batch_ok_opt is_some].
  rewrite Ha, Hb, Hg. now rewrite orb_true_r.
Qed.

Lemma robin_injected (K M : nat) (ds : list Qc) (diagonal upper lower : tensor)
  (lo up : bc_fn) (rest : list (bc_fn * bc_fn)) (coord_grid : list tensor)
  (t : Qc) (alpha_l alpha_u : option tensor)
  (beta_l gamma_l beta_u gamma_u : tensor) :
  2 <= M -> 2 <= length ds ->
  has_shape diagonal [K; M] -> has_shape upper [K; M] ->
  has_shape lower [K; M] ->
  lo t (ArgGrid coord_grid) = (alpha_l, Some beta_l, gamma_l) ->
  up t (ArgGrid coord_grid) = (alpha_u, Some beta_u, gamma_u) ->
  batch_ok_opt K alpha_l = true -> batch_ok K beta_l = true ->
  batch_ok K gamma_l = true ->
  batch_ok_opt K alpha_u = true -> batch_ok K beta_u = true ->
  batch_ok K gamma_u = true ->
  exists xi1 xi2 eta xi1' xi2' eta' diagonal' upper' lower' inhomog,
    _discretize_boundary_conditions (Scalar (delta ds 0)) (Scalar (delta ds 1))
      alpha_l (Some beta_l) gamma_l = Ok (xi1, xi2, eta)
    /\ _discretize_boundary_conditions (Scalar (delta ds (length ds - 1)))
         (Scalar (delta ds (length ds - 2))) alpha_u (Some beta_u) gamma_u
       = Ok (xi1', xi2', eta')
    /\ _apply_boundary_conditions_to_discretized_equation ((lo, up) :: rest)
         coord_grid (Vec ds) diagonal upper lower t
       = Ok ((diagonal', upper', lower'), inhomog)
    /\ forall k, k < K ->
         entry diagonal' k 0 = (entry diagonal k 0 + entry lower k 0 * bget xi1 k)%Qc
         /\ entry upper' k 0 = (entry upper k 0 + entry lower k 0 * bget xi2 k)%Qc
         /\ entry inhomog k 0 = (entry lower k 0 * bget eta k)%Qc
         /\ entry diagonal' k (M - 1)
            = (entry diagonal k (M - 1) + entry upper k (M - 1) * bget xi1' k)%Qc
         /\ entry lower' k (M - 1)
            = (entry lower k (M - 1) + entry upper k (M - 1) * bget xi2' k)%Qc
         /\ entry inhomog k (M - 1) = (entry upper k (M - 1) * bget eta' k)%Qc.
Proof.
  intros HM Hds Hd Hu Hl Hlo Hup Hal Hbl Hgl Hau Hbu Hgu.
  destruct (discretize_robin K (delta ds 0) (delta ds 1) alpha_l beta_l gamma_l
              Hal Hbl Hgl) as (xi1 & xi2 & eta & EL & _ & _ & _ & GL).
  destruct (discretize_robin K (delta ds (length ds - 1))
              (delta ds (length ds - 2)) alpha_u beta_u gamma_u Hau Hbu Hgu)
    as (xi1' & xi2' & eta' & EU & _ & _ & _ & GU).
  exists xi1, xi2, eta, xi1', xi2', eta'.
  rewrite (has_shape2_mtab Hd), (has_shape2_mtab Hu), (has_shape2_mtab Hl).
  set (gd := entry diagonal). set (gu := entry upper). set (gl := entry lower).
  rewrite (@injector_general_path K M ds gd gu gl lo up rest coord_grid t HM Hds);
    rewrite ?Hlo, ?Hup; try (now apply edge_ok_robin); try reflexivity.
  do 4 eexists. split; [exact EL|]. split; [exact EU|]. split; [reflexivity|].
  intros k Hk.
  destruct (GL k Hk) as (G1 & G2 & G3). destruct (GU k Hk) as (G1' & G2' & G3').
  rewrite !entry_mtab by lia.
  unfold edge_xi1, edge_xi2, edge_eta, rule_xi1, rule_xi2, rule_eta.
  cbn [bget_opt option_map].
  fold (bget_opt alpha_l k) (bget_opt alpha_u k).
  rewrite <- G1, <- G2, <- G3, <- G1', <- G2', <- G3'.
  replace (0 =? 0) with true by reflexivity.
  replace (M - 1 =? 0) with false by (symmetry; apply Nat.eqb_neq; lia).
  rewrite Nat.ltb_irrefl.
  repeat split; reflexivity.
Qed.

Lemma robin_after_step (K M : nat) (ds : list Qc) (inner : tensor)
  (lo up : bc_fn) (rest : list (bc_fn * bc_fn)) (coord_grid : list tensor)
  (g0 x0 : tensor) (t : Qc) (alpha_l alpha_u : option tensor)
  (beta_l gamma_l beta_u gamma_u : tensor) :
  2 <= M -> 2 <= length ds -> has_shape inner [K; M] ->
  item coord_grid 0 = Ok g0 -> tensor_item g0 0 = Ok x0 ->
  lo t (ArgTensor x0) = (alpha_l, Some beta_l, gamma_l) ->
  up t (ArgGrid coord_grid) = (alpha_u, Some beta_u, gamma_u) ->
  batch_ok_opt K alpha_l = true -> batch_ok K beta_l = true ->
  batch_ok K gamma_l = true ->
  batch_ok_opt K alpha_u = true -> batch_ok K beta_u = true ->
  batch_ok K gamma_u = true ->
  exists xi1 xi2 eta xi1' xi2' eta' updated,
    _discretize_boundary_conditions (Scalar (delta ds 0)) (Scalar (delta ds 1))
      alpha_l (Some beta_l) gamma_l = Ok (xi1, xi2, eta)
    /\ _discretize_boundary_conditions (Scalar (delta ds (length ds - 1)))
         (Scalar (delta ds (length ds - 2))) alpha_u (Some beta_u) gamma_u
       = Ok (xi1', xi2', eta')
    /\ _apply_boundary_conditions_after_step inner ((lo, up) :: rest)
         coord_grid (Vec ds) t = Ok updated
    /\ forall k, k < K ->
         entry updated k 0
         = (bget xi1 k * entry inner k 0 + bget xi2 k * entry inner k 1
            + bget eta k)%Qc
         /\ entry updated k (M + 1)
            = (bget xi1' k * entry inner k (M - 1)
               + bget xi2' k * entry inner k (M - 2) + bget eta' k)%Qc.
Proof.
  intros HM Hds Hin Hg0 Hx0 Hlo Hup Hal Hbl Hgl Hau Hbu Hgu.
  destruct (discretize_robin K (delta ds 0) (delta ds 1) alpha_l beta_l gamma_l
              Hal Hbl Hgl) as (xi1 & xi2 & eta & EL & _ & _ & _ & GL).
  destruct (discretize_robin K (delta ds (length ds - 1))
              (delta ds (length ds - 2)) alpha_u beta_u gamma_u Hau Hbu Hgu)
    as (xi1' & xi2' & eta' & EU & _ & _ & _ & GU).
  exists xi1, xi2, eta, xi1', xi2', eta'.
  rewrite (has_shape2_mtab Hin). set (gi := entry inner).
  rewrite (@after_step_entries K M ds gi lo up rest coord_grid g0 x0 t
             HM Hds Hg0 Hx0);
    rewrite ?Hlo, ?Hup; try (now apply edge_ok_robin).
  eexists. split; [exact EL|]. split; [exact EU|]. split; [reflexivity|].
  intros k Hk.
  destruct (GL k Hk) as (G1 & G2 & G3). destruct (GU k Hk) as (G1' & G2' & G3').
  rewrite !entry_mtab by lia.
  unfold edge_value, edge_xi1, edge_xi2, edge_eta, rule_xi1, rule_xi2, rule_eta.
  cbn [bget_opt option_map].
  fold (bget_opt alpha_l k) (bget_opt alpha_u k).
  rewrite <- G1, <- G2, <- G3, <- G1', <- G2', <- G3'.
  replace (0 =? 0) with true by reflexivity.
  replace (M + 1 =? 0) with false by (symmetry; apply Nat.eqb_neq; lia).
  replace (M + 1 <=? M) with false by (symmetry; apply Nat.leb_gt; lia).
  split; reflexivity.
Qed.

(** C2. For a Robin condition ([beta] present, [alpha] optional) and
    spacings [dx0], [dx1] the boundary discretizer returns
    [xi1 = beta (dx0+dx1)^2 / denom], [xi2 = -beta dx0^2 / denom] and
    [eta = gamma dx0 dx1 (dx0+dx1) / denom], where
    [denom = beta dx1 (2 dx0 + dx1)] plus [alpha dx0 dx1 (dx0+dx1)] exactly
    when [alpha] is present.  Both where the boundary conditions are folded
    into the equation and where the boundary values are restored after the
    step, the lower edge uses [dx0 =] first spacing, [dx1 =] second
    spacing, and the upper edge [dx0 =] last, [dx1 =] second-to-last. *)
Theorem robin_rule_and_spacings :
  (forall (K : nat) (dx0 dx1 : Qc) (alpha : option tensor)
          (beta gamma : tensor),
      batch_ok_opt K alpha = true -> batch_ok K beta = true ->
      batch_ok K gamma = true ->
      exists xi1 xi2 eta,
        _discretize_boundary_conditions (Scalar dx0) (Scalar dx1)
          alpha (Some beta) gamma = Ok (xi1, xi2, eta)
        /\ forall k, k < K ->
             let b := bget beta k in
             let g := bget gamma k in
             let denom :=
               (b * dx1 * (two * dx0 + dx1)
                + match bget_opt alpha k with
                  | Some a => a * dx0 * dx1 * (dx0 + dx1)
                  | None => 0
                  end)%Qc in
             bget xi1 k = (b * (dx0 + dx1) ^ 2 / denom)%Qc
             /\ bget xi2 k = (- b * dx0 ^ 2 / denom)%Qc
             /\ bget eta k = (g * dx0 * dx1 * (dx0 + dx1) / denom)%Qc)
  /\ (forall (K M : nat) (ds : list Qc) (diagonal upper lower : tensor)
             (lo up : bc_fn) (rest : list (bc_fn * bc_fn))
             (coord_grid : list tensor) (t : Qc)
             (alpha_l alpha_u : option tensor)
             (beta_l gamma_l beta_u gamma_u : tensor),
         2 <= M -> 2 <= length ds ->
         has_shape diagonal [K; M] -> has_shape upper [K; M] ->
         has_shape lower [K; M] ->
         lo t (ArgGrid coord_grid) = (alpha_l, Some beta_l, gamma_l) ->
         up t (ArgGrid coord_grid) = (alpha_u, Some beta_u, gamma_u) ->
         batch_ok_opt K alpha_l = true -> batch_ok K beta_l = true ->
         batch_ok K gamma_l = true ->
         batch_ok_opt K alpha_u = true -> batch_ok K beta_u = true ->
         batch_ok K gamma_u = true ->
         exists xi1 xi2 eta xi1' xi2' eta' diagonal' upper' lower' inhomog,
           _discretize_boundary_conditions (Scalar (delta ds 0))
             (Scalar (delta ds 1)) alpha_l (Some beta_l) gamma_l
           = Ok (xi1, xi2, eta)
           /\ _discretize_boundary_conditions
                (Scalar (delta ds (length ds - 1)))
                (Scalar (delta ds (length ds - 2))) alpha_u (Some beta_u) gamma_u
              = Ok (xi1', xi2', eta')
           /\ _apply_boundary_conditions_to_discretized_equation
                ((lo, up) :: rest) coord_grid (Vec ds) diagonal upper lower t
              = Ok ((diagonal', upper', lower'), inhomog)
           /\ forall k, k < K ->
                entry diagonal' k 0
                = (entry diagonal k 0 + entry lower k 0 * bget xi1 k)%Qc
                /\ entry upper' k 0
                   = (entry upper k 0 + entry lower k 0 * bget xi2 k)%Qc
                /\ entry inhomog k 0 = (entry lower k 0 * bget eta k)%Qc
                /\ entry diagonal' k (M - 1)
                   = (entry diagonal k (M - 1)
                      + entry upper k (M - 1) * bget xi1' k)%Qc
                /\ entry lower' k (M - 1)
                   = (entry lower k (M - 1)
                      + entry upper k (M - 1) * bget xi2' k)%Qc
                /\ entry inhomog k (M - 1)
                   = (entry upper k (M - 1) * bget eta' k)%Qc)
  /\ (forall (K M : nat) (ds : list Qc) (inner : tensor) (lo up : bc_fn)
             (rest : list (bc_fn * bc_fn)) (coord_grid : list tensor)
             (g0 x0 : tensor) (t : Qc) (alpha_l alpha_u : option tensor)
             (beta_l gamma_l beta_u gamma_u : tensor),
         2 <= M -> 2 <= length ds -> has_shape inner [K; M] ->
         item coord_grid 0 = Ok g0 -> tensor_item g0 0 = Ok x0 ->
         lo t (ArgTensor x0) = (alpha_l, Some beta_l, gamma_l) ->
         up t (ArgGrid coord_grid) = (alpha_u, Some beta_u, gamma_u) ->
         batch_ok_opt K alpha_l = true -> batch_ok K beta_l = true ->
         batch_ok K gamma_l = true ->
         batch_ok_opt K alpha_u = true -> batch_ok K beta_u = true ->
         batch_ok K gamma_u = true ->
         exists xi1 xi2 eta xi1' xi2' eta' updated,
           _discretize_boundary_conditions (Scalar (delta ds 0))
             (Scalar (delta ds 1)) alpha_l (Some beta_l) gamma_l
           = Ok (xi1, xi2, eta)
           /\ _discretize_boundary_conditions
                (Scalar (delta ds (length ds - 1)))
                (Scalar (delta ds (length ds - 2))) alpha_u (Some beta_u) gamma_u
              = Ok (xi1', xi2', eta')
           /\ _apply_boundary_conditions_after_step inner ((lo, up) :: rest)
                coord_grid (Vec ds) t = Ok updated
           /\ forall k, k < K ->
                entry updated k 0
                = (bget xi1 k * entry inner k 0 + bget xi2 k * entry inner k 1
                   + bget eta k)%Qc
                /\ entry updated k (M + 1)
                   = (bget xi1' k * entry inner k (M - 1)
                      + bget xi2' k * entry inner k (M - 2) + bget eta' k)%Qc).
Proof.
  split; [|split].
  - intros K dx0 dx1 alpha beta gamma Ha Hb Hg.
    destruct (discretize_robin K dx0 dx1 alpha beta gamma Ha Hb Hg)
      as (xi1 & xi2 & eta & E & _ & _ & _ & G).
    exists xi1, xi2, eta. split; [exact E|]. exact G.
  - exact robin_injected.
  - exact robin_after_step.
Qed.

Lemma robin_rule_and_spacings_witness :
  (exists xi1 xi2 eta,
      _discretize_boundary_conditions (Scalar (num 1)) (Scalar (num 2))
        (Some (Scalar (num 1))) (Some (Vec [num 1; num 2])) (Scalar (num 3))
      = Ok (xi1, xi2, eta)
      /\ bget xi1 1
         = (num 2 * (num 1 + num 2) ^ 2
            / (num 2 * num 2 * (two * num 1 + num 2)
               + num 1 * num 1 * num 2 * (num 1 + num 2)))%Qc)
  /\ (exists diagonal' upper' lower' inhomog,
         _apply_boundary_conditions_to_discretized_equation
           [(ex_robin_lower, ex_robin_upper)] ex_grid (Vec ex_ds)
           ex_diagonal ex_upper ex_lower (num 0)
         = Ok ((diagonal', upper', lower'), inhomog))
  /\ (exists updated,
         _apply_boundary_conditions_after_step ex_diagonal
           [(ex_robin_lower, ex_robin_upper)] ex_grid (Vec ex_ds) (num 0)
         = Ok updated).
Proof.
  destruct robin_rule_and_spacings as (H1 & H2 & H3).
  split; [|split].
  - destruct (H1 2 (num 1) (num 2) (Some (Scalar (num 1)))
                (Vec [num 1; num 2]) (Scalar (num 3))
                eq_refl eq_refl eq_refl) as (xi1 & xi2 & eta & E & G).
    exists xi1, xi2, eta. split; [exact E|].
    exact (proj1 (G 1 (le_n 2))).
  - destruct (H2 2 2 ex_ds ex_diagonal ex_upper ex_lower ex_robin_lower
                ex_robin_upper [] ex_grid (num 0)
                (Some (Scalar (num 1))) None
                (Scalar (num 2)) (Scalar (num 3)) (Vec [num 1; num 2])
                (Scalar (num 4))
                (le_n 2) (le_S 2 2 (le_n 2))
                (conj eq_refl eq_refl) (conj eq_refl eq_refl)
                (conj eq_refl eq_refl)
                eq_refl eq_refl eq_refl eq_refl eq_refl eq_refl eq_refl eq_refl)
      as (x1 & x2 & e & x1' & x2' & e' & d' & u' & l' & r & _ & _ & E & _).
    now exists d', u', l', r.
  - destruct (H3 2 2 ex_ds ex_diagonal ex_robin_lower ex_robin_upper []
                ex_grid (Vec ex_xs) (Scalar (num 10)) (num 0)
                (Some (Scalar (num 1))) None
                (Scalar (num 2)) (Scalar (num 3)) (Vec [num 1; num 2])
                (Scalar (num 4))
                (le_n 2) (le_S 2 2 (le_n 2)) (conj eq_refl eq_refl)
                eq_refl eq_refl
                eq_refl eq_refl eq_refl eq_refl eq_refl eq_refl eq_refl eq_refl)
      as (x1 & x2 & e & x1' & x2' & e' & upd & _ & _ & E & _).
    now exists upd.
Defined.

(* ================================================================== *)
(** * The Dirichlet fast path *)

(** C3. When both edges are pure Dirichlet ([beta] is [None] at both
    ends) the boundary injector returns the triple [(diagonal, upper,
    lower)] unchanged, and an inhomogeneous term whose first entry is
    [lower[0] * gamma_lower / alpha_lower], whose last entry is
    [upper[-1] * gamma_upper / alpha_upper], and whose entries in between
    are zero. *)
Theorem dirichlet_fast_path (K M : nat) (diagonal upper lower deltas : tensor)
  (lo up : bc_fn) (rest : list (bc_fn * bc_fn)) (coord_grid : list tensor)
  (t : Qc) (alpha_l gamma_l alpha_u gamma_u : tensor) :
  1 <= M ->
  has_shape diagonal [K; M] -> has_shape upper [K; M] ->
  has_shape lower [K; M] ->
  lo t (ArgGrid coord_grid) = (Some alpha_l, None, gamma_l) ->
  up t (ArgGrid coord_grid) = (Some alpha_u, None, gamma_u) ->
  batch_ok K alpha_l = true -> batch_ok K gamma_l = true ->
  batch_ok K alpha_u = true -> batch_ok K gamma_u = true ->
  exists inhomog n,
    _apply_boundary_conditions_to_discretized_equation ((lo, up) :: rest)
      coord_grid deltas diagonal upper lower t
    = Ok ((diagonal, upper, lower), inhomog)
    /\ has_shape inhomog [K; n] /\ n = M - 2 + 2
    /\ forall k, k < K ->
         entry inhomog k 0
         = (entry lower k 0 * bget gamma_l k / bget alpha_l k)%Qc
         /\ entry inhomog k (n - 1)
            = (entry upper k (M - 1) * bget gamma_u k / bget alpha_u k)%Qc
         /\ forall j, 0 < j -> j < n - 1 -> entry inhomog k j = 0%Qc.
Proof.
  intros HM Hd Hu Hl Hlo Hup Hal Hgl Hau Hgu.
  pose proof (@injector_fast_path K M (entry diagonal) (entry upper)
                (entry lower) lo up rest coord_grid deltas alpha_l gamma_l
                alpha_u gamma_u t HM Hlo Hup Hal Hgl Hau Hgu) as E.
  rewrite <- (has_shape2_mtab Hd), <- (has_shape2_mtab Hu),
    <- (has_shape2_mtab Hl) in E.
  rewrite E.
  eexists. exists (M - 2 + 2). split; [reflexivity|].
  split; [apply has_shape_mtab|]. split; [reflexivity|].
  intros k Hk. split; [|split].
  - rewrite entry_mtab by lia. reflexivity.
  - rewrite entry_mtab by lia.
    replace (M - 2 + 2 - 1 =? 0) with false by (symmetry; apply Nat.eqb_neq; lia).
    replace (M - 2 + 2 - 1 <=? M - 2) with false
      by (symmetry; apply Nat.leb_gt; lia).
    reflexivity.
  - intros j H0 Hj. rewrite entry_mtab by lia.
    replace (j =? 0) with false by (symmetry; apply Nat.eqb_neq; lia).
    now replace (j <=? M - 2) with true by (symmetry; apply Nat.leb_le; lia).
Qed.

Lemma dirichlet_fast_path_witness :
  has_shape ex_lower [2; 2]
  /\ exists inhomog,
       _apply_boundary_conditions_to_discretized_equation
         [(ex_dirichlet_lower, ex_dirichlet_upper)] ex_grid (Vec ex_ds)
         ex_diagonal ex_upper ex_lower (num 0)
       = Ok ((ex_diagonal, ex_upper, ex_lower), inhomog)
       /\ entry inhomog 1 0 = (entry ex_lower 1 0 * num 6 / num 2)%Qc.
Proof.
  split; [split; reflexivity|].
  destruct (@dirichlet_fast_path 2 2 ex_diagonal ex_upper ex_lower (Vec ex_ds)
              ex_dirichlet_lower ex_dirichlet_upper [] ex_grid (num 0)
              (Scalar (num 2)) (Vec [num 4; num 6]) (Scalar (num 1))
              (Scalar (num 9))
              (le_S 1 1 (le_n 1)) (conj eq_refl eq_refl) (conj eq_refl eq_refl)
              (conj eq_refl eq_refl) eq_refl eq_refl eq_refl eq_refl eq_refl
              eq_refl) as (r & n & E & _ & _ & H).
  exists r. split; [exact E|]. exact (proj1 (H 1 (le_n 2))).
Defined.

(* ================================================================== *)
(** * Missing [alpha] and [beta] *)

Lemma bdim_err (m n : nat) (e : error) : bdim m n = Err e -> e = ShapeMismatch.
Proof.
  unfold bdim. destruct (m =? n); [discriminate|].
  destruct (m =? 1); [discriminate|]. destruct (n =? 1); [discriminate|].
  now intros [= <-].
Qed.

Lemma binop_err (f : Qc -> Qc -> Qc) (a b : tensor) (e : error) :
  binop f a b = Err e -> e = ShapeMismatch.
Proof.
  destruct a as [x|v|n r], b as [y|w|m s]; simpl; try discriminate.
  - destruct (bdim (length v) (length w)) eqn:E; simpl; [discriminate|].
    intros [= <-]. exact (bdim_err _ _ E).
  - destruct (bdim (length v) m) eqn:E; simpl; [discriminate|].
    intros [= <-]. exact (bdim_err _ _ E).
  - destruct (bdim n (length w)) eqn:E; simpl; [discriminate|].
    intros [= <-]. exact (bdim_err _ _ E).
  - destruct (bdim n m) eqn:E; simpl.
    + destruct (bdim (length r) (length s)) eqn:E'; simpl; [discriminate|].
      intros [= <-]. exact (bdim_err _ _ E').
    + intros [= <-]. exact (bdim_err _ _ E).
Qed.

Lemma item_err (A : Type) (l : list A) (i : Z) (e : error) :
  item l i = Err e -> e = IndexOutOfRange.
Proof.
  unfold item. destruct (norm_index (length l) i) as [j|].
  - destruct (nth_error l j); [discriminate|]. now intros [= <-].
  - now intros [= <-].
Qed.

Lemma last_item_err (t : tensor) (i : Z) (e : error) :
  last_item t i = Err e -> e = IndexOutOfRange.
Proof.
  destruct t as [x|v|n r]; simpl.
  - now intros [= <-].
  - destruct (item v i) eqn:E; simpl; [discriminate|].
    intros [= <-]. exact (item_err _ _ E).
  - destruct (norm_index n i); [discriminate|]. now intros [= <-].
Qed.

(** With [beta] missing at both edges and [alpha] missing at the lower
    one, the injector aborts, and never with the [ValueError] of the
    boundary discretizer. *)
Lemma fast_path_never_diagnoses (gamma_l gamma_u : tensor)
  (alpha_u : option tensor) (rest : list (bc_fn * bc_fn))
  (coord_grid : list tensor) (deltas diagonal upper lower : tensor) (t : Qc) :
  exists e,
    _apply_boundary_conditions_to_discretized_equation
      ((fun _ _ => (None, None, gamma_l), fun _ _ => (alpha_u, None, gamma_u))
         :: rest)
      coord_grid deltas diagonal upper lower t
    = Err e
    /\ (e = NoneValue \/ e = ShapeMismatch \/ e = IndexOutOfRange).
Proof.
  unfold _apply_boundary_conditions_to_discretized_equation.
  rewrite item_cons_0. cbn [bind fst snd convert_to_tensor].
  destruct (last_item lower 0) as [v|e] eqn:E1.
  - unfold ret. rewrite lift2_Ok.
    destruct (tmul v gamma_l) as [w|e] eqn:E2; cbn [lift2 bind].
    + exists NoneValue. auto.
    + apply binop_err in E2. subst e. exists ShapeMismatch. auto.
  - apply last_item_err in E1. subst e. cbn [lift2 bind].
    exists IndexOutOfRange. auto.
Qed.

(** C4. The boundary discretizer rejects a condition with neither
    [alpha] nor [beta] by an explicit [ValueError], whatever the spacings
    and [gamma], and so does every caller that reaches it (here the
    general path of the injector and the restoring of the boundary values,
    for the lower and for the upper edge).  The Dirichlet fast path of the
    injector does not reach it: with [beta] missing at both edges it
    divides by the missing [alpha] and the array library raises its own
    error for the [None] operand. *)
Theorem fast_path_misses_configuration_check :
  (forall dx0 dx1 gamma,
      _discretize_boundary_conditions dx0 dx1 None None gamma
      = Err (ValueError
               "Invalid boundary conditions: alpha and beta can't both be None."))
  /\ _apply_boundary_conditions_to_discretized_equation
       [(ex_invalid, ex_robin_upper)] ex_grid (Vec ex_ds)
       ex_diagonal ex_upper ex_lower (num 0)
     = Err (ValueError
              "Invalid boundary conditions: alpha and beta can't both be None.")
  /\ _apply_boundary_conditions_to_discretized_equation
       [(ex_robin_lower, ex_invalid)] ex_grid (Vec ex_ds)
       ex_diagonal ex_upper ex_lower (num 0)
     = Err (ValueError
              "Invalid boundary conditions: alpha and beta can't both be None.")
  /\ _apply_boundary_conditions_after_step ex_diagonal
       [(ex_invalid, ex_dirichlet_upper)] ex_grid (Vec ex_ds) (num 0)
     = Err (ValueError
              "Invalid boundary conditions: alpha and beta can't both be None.")
  /\ _apply_boundary_conditions_after_step ex_diagonal
       [(ex_dirichlet_lower, ex_invalid)] ex_grid (Vec ex_ds) (num 0)
     = Err (ValueError
              "Invalid boundary conditions: alpha and beta can't both be None.")
  /\ _apply_boundary_conditions_to_discretized_equation
       [(ex_invalid, ex_dirichlet_upper)] ex_grid (Vec ex_ds)
       ex_diagonal ex_upper ex_lower (num 0)
     = Err NoneValue
  /\ _apply_boundary_conditions_to_discretized_equation
       [(ex_dirichlet_lower, ex_invalid)] ex_grid (Vec ex_ds)
       ex_diagonal ex_upper ex_lower (num 0)
     = Err NoneValue
  /\ forall gamma_l gamma_u alpha_u rest coord_grid deltas diagonal upper
            lower t,
       exists e,
         _apply_boundary_conditions_to_discretized_equation
           ((fun _ _ => (None, None, gamma_l),
             fun _ _ => (alpha_u, None, gamma_u)) :: rest)
           coord_grid deltas diagonal upper lower t
         = Err e
         /\ (e = NoneValue \/ e = ShapeMismatch \/ e = IndexOutOfRange).
Proof.
  split; [reflexivity|].
  repeat (split; [vm_compute; reflexivity|]).
  exact fast_path_never_diagnoses.
Qed.

(* ================================================================== *)
(** * Absent coefficient functions *)

Lemma construct_without_second_order (coord_grid : list tensor) (ds : list Qc)
  (value_grid : tensor) (bcs : list (bc_fn * bc_fn))
  (fo : option first_order_fn) (zo : option zeroth_order_fn) (t : Qc) :
  _construct_space_discretized_eqn_params coord_grid (Vec ds) value_grid bcs
    None fo zo t
  = Err NotCallable.
Proof.
  unfold _construct_space_discretized_eqn_params, space_discretized_stencil.
  rewrite (Vec_is_vtab ds). autorewrite with tab. cbn [bind].
  unfold tadd. autorewrite with tab. reflexivity.
Qed.

(** C5. An absent first-order or zeroth-order coefficient function is
    replaced by the zero function before anything else is done, so the
    step is the one with the zero function supplied.  An absent
    second-order coefficient function is not replaced: building the
    equation calls it, which raises, and a step whose time-marching routine
    evaluates the equation does not complete. *)
Theorem absent_second_order_fn_aborts :
  (forall time next_time coord_grid value_grid bcs so tms,
      parabolic_equation_step time next_time coord_grid value_grid bcs
        so None None tms
      = parabolic_equation_step time next_time coord_grid value_grid bcs
          so (Some zero_first_order) (Some zero_zeroth_order) tms)
  /\ (forall coord_grid ds value_grid bcs fo zo t,
         _construct_space_discretized_eqn_params coord_grid (Vec ds)
           value_grid bcs None fo zo t
         = Err NotCallable)
  /\ (forall time next_time xs grest n rows bcs fo zo,
         parabolic_equation_step time next_time (Vec xs :: grest) (Mat n rows)
           bcs None fo zo evaluating_scheme
         = Err NotCallable)
  /\ parabolic_equation_step (num 1) (num 0) ex_grid ex_value_grid
       [(ex_dirichlet_lower, ex_dirichlet_upper)] None None None
       evaluating_scheme
     = Err NotCallable.
Proof.
  split; [reflexivity|]. split; [exact construct_without_second_order|].
  assert (H : forall time next_time xs grest n rows bcs fo zo,
             parabolic_equation_step time next_time (Vec xs :: grest)
               (Mat n rows) bcs None fo zo evaluating_scheme
             = Err NotCallable).
  { intros. unfold parabolic_equation_step. cbv zeta.
    cbn [last_slice bind]. rewrite item_cons_0. cbn [bind].
    rewrite grid_deltas_tab. cbn [bind]. unfold evaluating_scheme.
    now rewrite construct_without_second_order. }
  split; [exact H|]. apply H.
Qed.

(* ================================================================== *)
(** * What the boundary callables are called with *)

(** After the step the lower callable is only ever called with a
    coordinate: what it would answer for a grid does not matter. *)
Lemma after_step_lower_ignores_grid (lo other up : bc_fn)
  (rest : list (bc_fn * bc_fn)) (inner : tensor) (coord_grid : list tensor)
  (deltas : tensor) (t : Qc) :
  _apply_boundary_conditions_after_step inner ((lo, up) :: rest) coord_grid
    deltas t
  = _apply_boundary_conditions_after_step inner
      ((fun t' arg =>
          match arg with
          | ArgTensor _ => lo t' arg
          | ArgGrid _ => other t' arg
          end, up) :: rest)
      coord_grid deltas t.
Proof.
  unfold _apply_boundary_conditions_after_step.
  rewrite !item_cons_0. cbn [bind fst snd].
  destruct (item coord_grid 0) as [g0|e]; cbn [bind]; [|reflexivity].
  destruct (tensor_item g0 0) as [x0|e]; cbn [bind]; reflexivity.
Qed.

(** C6. Where the boundary conditions are folded into the equation both
    callables are called with [(t, coord_grid)].  After the step the upper
    callable is called with [(t1, coord_grid)] but the lower one with
    [(t1, coord_grid[0][0])], the first coordinate: a callable that
    reports its second argument gives the first column the coordinate
    [10] and the last column the mark [-1] of the grid. *)
Theorem lower_callable_receives_coordinate :
  parabolic_equation_step (num 1) (num 0) ex_grid ex_value_grid
    [(ex_probe, ex_probe)] None None None identity_scheme
  = Ok (ex_grid,
        Mat 4 [[num 10; num 2; num 3; num (-1)];
               [num 10; num 6; num 7; num (-1)]])
  /\ _apply_boundary_conditions_to_discretized_equation
       [(ex_probe, ex_probe)] ex_grid (Vec ex_ds)
       ex_diagonal ex_upper ex_lower (num 0)
     = Ok ((ex_diagonal, ex_upper, ex_lower),
           Mat 2 [[num (-1); num 2]; [num (-2); num 4]])
  /\ forall lo other up rest inner coord_grid deltas t,
       _apply_boundary_conditions_after_step inner ((lo, up) :: rest)
         coord_grid deltas t
       = _apply_boundary_conditions_after_step inner
           ((fun t' arg =>
               match arg with
               | ArgTensor _ => lo t' arg
               | ArgGrid _ => other t' arg
               end, up) :: rest)
           coord_grid deltas t.
Proof.
  split; [vm_compute; reflexivity|].
  split; [vm_compute; reflexivity|].
  exact after_step_lower_ignores_grid.
Qed.

(* ================================================================== *)
(** * The Dirichlet identity *)

Lemma edge_ok_dirichlet (K : nat) (g : Qc -> tensor) (t : Qc) (arg : pyarg) :
  batch_ok K (g t) = true -> edge_ok K (dirichlet_bc g t arg) = true.
Proof.
  intros H. unfold dirichlet_bc, edge_ok.
  cbn [batch_ok_opt batch_ok is_some]. now rewrite H.
Qed.

Lemma edge_value_dirichlet (g : Qc -> tensor) (t : Qc) (arg : pyarg) (k : nat)
  (dx0 dx1 v1 v2 : Qc) :
  edge_value (dirichlet_bc g t arg) k dx0 dx1 v1 v2 = bget (g t) k.
Proof.
  unfold edge_value, edge_xi1, edge_xi2, edge_eta, dirichlet_bc.
  cbn [bget_opt option_map rule_xi1 rule_xi2 rule_eta bget].
  field. discriminate.
Qed.

(** C8, as the code has it: on a grid of at least four points, with the
    three coefficients zero, the Dirichlet conditions [V = g_lower] and
    [V = g_upper] ([alpha = 1], [beta = None]) and a time-marching routine
    that returns its input, one step returns the grid and a field whose
    first entry is [g_lower] at [t1], whose last entry is [g_upper] at
    [t1], and whose interior entries are those of the input. *)
Theorem dirichlet_identity_step (K N : nat) (time next_time : Qc)
  (xs : list Qc) (value_grid : tensor) (g_lower g_upper : Qc -> tensor) :
  4 <= N -> length xs = N -> has_shape value_grid [K; N] ->
  batch_ok K (g_lower next_time) = true ->
  batch_ok K (g_upper next_time) = true ->
  exists updated,
    parabolic_equation_step time next_time [Vec xs] value_grid
      [(dirichlet_bc g_lower, dirichlet_bc g_upper)]
      (Some zero_second_order) (Some zero_first_order)
      (Some zero_zeroth_order) identity_scheme
    = Ok ([Vec xs], updated)
    /\ has_shape updated [K; N]
    /\ forall k, k < K ->
         entry updated k 0 = bget (g_lower next_time) k
         /\ entry updated k (N - 1) = bget (g_upper next_time) k
         /\ forall j, 0 < j -> j < N - 1 ->
              entry updated k j = entry value_grid k j.
Proof.
  intros HN Hxs Hvg Hgl Hgu.
  rewrite (@step_entries K N time next_time xs [] value_grid
             (mtab K (N - 2) (fun k j => entry value_grid k (S j)))
             (dirichlet_bc g_lower) (dirichlet_bc g_upper) []
             (Some zero_second_order) (Some zero_first_order)
             (Some zero_zeroth_order) identity_scheme HN Hxs Hvg);
    [ | reflexivity | apply has_shape_mtab
      | now apply edge_ok_dirichlet | now apply edge_ok_dirichlet ].
  eexists. split; [reflexivity|]. split; [apply has_shape_mtab|].
  intros k Hk. split; [|split].
  - rewrite entry_mtab by lia. cbn [Nat.eqb]. apply edge_value_dirichlet.
  - rewrite entry_mtab by lia.
    replace (N - 1 =? 0) with false by (symmetry; apply Nat.eqb_neq; lia).
    rewrite Nat.ltb_irrefl. apply edge_value_dirichlet.
  - intros j H0 Hj. rewrite entry_mtab by lia.
    replace (j =? 0) with false by (symmetry; apply Nat.eqb_neq; lia).
    replace (j <? N - 1) with true by (symmetry; apply Nat.ltb_lt; lia).
    rewrite entry_mtab by lia. f_equal. lia.
Qed.

Lemma dirichlet_identity_step_witness :
  4 <= 4 /\ length ex_xs = 4 /\ has_shape ex_value_grid [2; 4]
  /\ exists updated,
       parabolic_equation_step (num 1) (num 0) [Vec ex_xs] ex_value_grid
         [(dirichlet_bc (fun _ => Scalar (num 5)),
           dirichlet_bc (fun _ => Vec [num 7; num 8]))]
         (Some zero_second_order) (Some zero_first_order)
         (Some zero_zeroth_order) identity_scheme
       = Ok ([Vec ex_xs], updated)
       /\ entry updated 1 0 = num 5 /\ entry updated 1 3 = num 8.
Proof.
  split; [apply le_n|]. split; [reflexivity|]. split; [split; reflexivity|].
  destruct (@dirichlet_identity_step 2 4 (num 1) (num 0) ex_xs ex_value_grid
              (fun _ => Scalar (num 5)) (fun _ => Vec [num 7; num 8])
              (le_n 4) eq_refl (conj eq_refl eq_refl) eq_refl eq_refl)
    as (upd & E & _ & H).
  exists upd. split; [exact E|].
  destruct (H 1 (le_n 2)) as (H0 & H3 & _). split; [exact H0 | exact H3].
Defined.

(** C8, as stated, fails on a grid of three points: restoring the
    boundary values reads the second interior value, which is not there,
    and the step raises instead of returning a field. *)
Lemma dirichlet_identity_fails_on_three_points :
  parabolic_equation_step (num 1) (num 0) ex_small_grid ex_small_value_grid
    [(dirichlet_bc (fun _ => Scalar (num 5)),
      dirichlet_bc (fun _ => Scalar (num 7)))]
    (Some zero_second_order) (Some zero_first_order)
    (Some zero_zeroth_order) identity_scheme
  = Err IndexOutOfRange.
Proof. vm_compute. reflexivity. Qed.

(* ================================================================== *)
(** * Shapes and the size of the grid *)

Lemma tensor_item_vtab_out (n : nat) (g : nat -> Qc) (i : Z) :
  norm_index n i = None -> tensor_item (vtab n g) i = Err IndexOutOfRange.
Proof.
  intros H. unfold vtab, tensor_item.
  rewrite item_None by (now rewrite length_map, length_seq). reflexivity.
Qed.

Lemma step_returns (K N : nat) (time next_time : Qc) (xs : list Qc)
  (grest : list tensor) (value_grid : tensor) (lo up : bc_fn)
  (brest : list (bc_fn * bc_fn)) (so : option second_order_fn)
  (fo : option first_order_fn) (zo : option zeroth_order_fn)
  (tms : marching_scheme) :
  4 <= N -> length xs = N -> has_shape value_grid [K; N] ->
  marching_preserves_shape tms ->
  (forall v f, is_ok (tms v next_time time f) = true) ->
  edge_ok K (lo next_time (ArgTensor (Scalar (nth 0 xs 0%Qc)))) = true ->
  edge_ok K (up next_time (ArgGrid (Vec xs :: grest))) = true ->
  exists updated,
    parabolic_equation_step time next_time (Vec xs :: grest) value_grid
      ((lo, up) :: brest) so fo zo tms
    = Ok (Vec xs :: grest, updated)
    /\ has_shape updated [K; N].
Proof.
  intros HN Hxs Hvg Htms Hret Hlo Hup.
  rewrite (has_shape2_mtab Hvg).
  destruct (step_unfold K N time next_time xs grest (entry value_grid)
              ((lo, up) :: brest) so fo zo tms) as (f & ->).
  specialize (Hret (mtab K (N - 2) (fun k j => entry value_grid k (S j))) f).
  destruct (tms (mtab K (N - 2) (fun k j => entry value_grid k (S j)))
              next_time time f) as [out|e] eqn:E; [|discriminate].
  cbn [bind]. apply Htms in E; [|apply wf_mtab]. rewrite shape_mtab in E.
  rewrite (has_shape2_mtab E).
  rewrite (@after_step_entries K (N - 2) (spacings xs) (entry out) lo up brest
             (Vec xs :: grest) (Vec xs) (Scalar (nth 0 xs 0%Qc)) next_time);
    try assumption;
    [ | lia | rewrite spacings_length; lia | apply item_cons_0
      | apply tensor_item_Vec_0; lia ].
  cbn [bind]. eexists. split; [reflexivity|].
  split; [|apply wf_mtab].
  rewrite shape_mtab. f_equal. f_equal. lia.
Qed.

(** C9. For a value field of shape [[K, N]] and a time-marching routine
    that returns an interior field of the shape it receives, whatever the
    step returns is the grid it was given and a value field of shape
    [[K, N]], for every combination of present and absent coefficient
    functions; and on a grid of at least four points, with usable boundary
    conditions and a routine that returns, the step does return. *)
Theorem step_preserves_shape (K N : nat) (time next_time : Qc) (xs : list Qc)
  (grest : list tensor) (value_grid : tensor) (lo up : bc_fn)
  (brest : list (bc_fn * bc_fn)) (so : option second_order_fn)
  (fo : option first_order_fn) (zo : option zeroth_order_fn)
  (tms : marching_scheme) :
  has_shape value_grid [K; N] -> length xs = N ->
  marching_preserves_shape tms ->
  (forall g' v',
      parabolic_equation_step time next_time (Vec xs :: grest) value_grid
        ((lo, up) :: brest) so fo zo tms = Ok (g', v') ->
      g' = Vec xs :: grest /\ has_shape v' [K; N])
  /\ (4 <= N ->
      (forall v f, is_ok (tms v next_time time f) = true) ->
      edge_ok K (lo next_time (ArgTensor (Scalar (nth 0 xs 0%Qc)))) = true ->
      edge_ok K (up next_time (ArgGrid (Vec xs :: grest))) = true ->
      exists updated,
        parabolic_equation_step time next_time (Vec xs :: grest) value_grid
          ((lo, up) :: brest) so fo zo tms
        = Ok (Vec xs :: grest, updated)
        /\ has_shape updated [K; N]).
Proof.
  intros Hvg Hxs Htms. split.
  - intros g' v' E.
    destruct (@step_ok_inv K N time next_time (Vec xs :: grest) value_grid
                ((lo, up) :: brest) so fo zo tms g' v' Hvg Htms E)
      as (Hg & _ & Hv).
    now split.
  - intros HN Hret Hlo Hup.
    exact (@step_returns K N time next_time xs grest value_grid lo up brest
             so fo zo tms HN Hxs Hvg Htms Hret Hlo Hup).
Qed.

Lemma identity_scheme_preserves_shape : marching_preserves_shape identity_scheme.
Proof. intros v t1 t2 f out Hwf [= <-]. now split. Qed.

Lemma step_preserves_shape_witness :
  has_shape ex_value_grid [2; 4] /\ length ex_xs = 4
  /\ marching_preserves_shape identity_scheme
  /\ exists updated,
       parabolic_equation_step (num 1) (num 0) ex_grid ex_value_grid
         [(ex_robin_lower, ex_robin_upper)] None (Some ex_first_order) None
         identity_scheme
       = Ok (ex_grid, updated)
       /\ has_shape updated [2; 4].
Proof.
  split; [split; reflexivity|]. split; [reflexivity|].
  split; [exact identity_scheme_preserves_shape|].
  exact (proj2 (@step_preserves_shape 2 4 (num 1) (num 0) ex_xs []
                  ex_value_grid ex_robin_lower ex_robin_upper [] None
                  (Some ex_first_order) None identity_scheme
                  (conj eq_refl eq_refl) eq_refl
                  identity_scheme_preserves_shape)
           (le_n 4) (fun _ _ => eq_refl) eq_refl eq_refl).
Defined.

(* ================================================================== *)
(** * Both paths of the injector *)

Lemma injector_any_path (K M : nat) (ds : list Qc)
  (gd gu gl : nat -> nat -> Qc) (lo up : bc_fn) (rest : list (bc_fn * bc_fn))
  (coord_grid : list tensor) (t : Qc) :
  2 <= M -> 2 <= length ds ->
  edge_ok K (lo t (ArgGrid coord_grid)) = true ->
  edge_ok K (up t (ArgGrid coord_grid)) = true ->
  let L := lo t (ArgGrid coord_grid) in
  let U := up t (ArgGrid coord_grid) in
  let dl0 := delta ds 0 in
  let dl1 := delta ds 1 in
  let du0 := delta ds (length ds - 1) in
  let du1 := delta ds (length ds - 2) in
  _apply_boundary_conditions_to_discretized_equation ((lo, up) :: rest)
    coord_grid (Vec ds) (mtab K M gd) (mtab K M gu) (mtab K M gl) t
  = Ok ((mtab K M (fun k j =>
           if j =? 0 then (gd k 0%nat + gl k 0%nat * edge_xi1 L k dl0 dl1)%Qc
           else if j <? M - 1 then gd k j
           else (gd k (M - 1)%nat + gu k (M - 1)%nat * edge_xi1 U k du0 du1)%Qc),
         mtab K M (fun k j =>
           if j =? 0 then (gu k 0%nat + gl k 0%nat * edge_xi2 L k dl0 dl1)%Qc
           else gu k j),
         mtab K M (fun k j =>
           if j <? M - 1 then gl k j
           else (gl k (M - 1)%nat + gu k (M - 1)%nat * edge_xi2 U k du0 du1)%Qc)),
        mtab K M (fun k j =>
          if j =? 0 then (gl k 0%nat * edge_eta L k dl0 dl1)%Qc
          else if j <? M - 1 then 0%Qc
          else (gu k (M - 1)%nat * edge_eta U k du0 du1)%Qc)).
Proof.
  intros HM Hds Hlo Hup L U dl0 dl1 du0 du1.
  destruct (lo t (ArgGrid coord_grid)) as [[al bl] gaml] eqn:EL.
  destruct (up t (ArgGrid coord_grid)) as [[au bu] gamu] eqn:EU.
  destruct (is_some bl || is_some bu) eqn:Hgen.
  - pose proof (@injector_general_path K M ds gd gu gl lo up rest coord_grid t
                  HM Hds) as H.
    rewrite EL, EU in H. exact (H Hlo Hup Hgen).
  - destruct bl as [bl|]; [discriminate|]. destruct bu as [bu|]; [discriminate|].
    apply edge_ok_inv in Hlo as (Hal & _ & Hgl & Hsl).
    apply edge_ok_inv in Hup as (Hau & _ & Hgu & Hsu).
    destruct al as [al|]; [|discriminate]. destruct au as [au|]; [|discriminate].
    cbn [batch_ok_opt] in Hal, Hau.
    rewrite (@injector_fast_path K M gd gu gl lo up rest coord_grid (Vec ds)
               al gaml au gamu t); try assumption; try lia.
    replace (M - 2 + 2) with M by lia.
    subst L U. unfold edge_xi1, edge_xi2, edge_eta.
    cbn [bget_opt option_map rule_xi1 rule_xi2 rule_eta].
    f_equal. f_equal; [f_equal; [f_equal|]|];
      apply mtab_ext; intros k j Hk Hj;
      destruct (Nat.eqb_spec j 0); destruct (Nat.ltb_spec j (M - 1));
      destruct (Nat.leb_spec j (M - 2));
      subst; try lia; try reflexivity; try (unfold Qcdiv; ring);
      replace j with (M - 1) by lia; ring.
Qed.

Lemma injector_result (K M : nat) (ds : list Qc) (diagonal upper lower : tensor)
  (lo up : bc_fn) (rest : list (bc_fn * bc_fn)) (coord_grid : list tensor)
  (t : Qc) :
  2 <= M -> 2 <= length ds ->
  has_shape diagonal [K; M] -> has_shape upper [K; M] ->
  has_shape lower [K; M] ->
  edge_ok K (lo t (ArgGrid coord_grid)) = true ->
  edge_ok K (up t (ArgGrid coord_grid)) = true ->
  let L := lo t (ArgGrid coord_grid) in
  let U := up t (ArgGrid coord_grid) in
  let dl0 := delta ds 0 in
  let dl1 := delta ds 1 in
  let du0 := delta ds (length ds - 1) in
  let du1 := delta ds (length ds - 2) in
  _apply_boundary_conditions_to_discretized_equation ((lo, up) :: rest)
    coord_grid (Vec ds) diagonal upper lower t
  = Ok ((mtab K M (fun k j =>
           if j =? 0 then
             (entry diagonal k 0%nat + entry lower k 0%nat * edge_xi1 L k dl0 dl1)%Qc
           else if j <? M - 1 then entry diagonal k j
           else (entry diagonal k (M - 1)%nat
                 + entry upper k (M - 1)%nat * edge_xi1 U k du0 du1)%Qc),
         mtab K M (fun k j =>
           if j =? 0 then
             (entry upper k 0%nat + entry lower k 0%nat * edge_xi2 L k dl0 dl1)%Qc
           else entry upper k j),
         mtab K M (fun k j =>
           if j <? M - 1 then entry lower k j
           else (entry lower k (M - 1)%nat
                 + entry upper k (M - 1)%nat * edge_xi2 U k du0 du1)%Qc)),
        mtab K M (fun k j =>
          if j =? 0 then (entry lower k 0%nat * edge_eta L k dl0 dl1)%Qc
          else if j <? M - 1 then 0%Qc
          else (entry upper k (M - 1)%nat * edge_eta U k du0 du1)%Qc)).
Proof.
  intros HM Hds Hd Hu Hl Hlo Hup.
  pose proof (@injector_any_path K M ds (entry diagonal) (entry upper)
                (entry lower) lo up rest coord_grid t HM Hds Hlo Hup) as H.
  rewrite <- (has_shape2_mtab Hd), <- (has_shape2_mtab Hu),
    <- (has_shape2_mtab Hl) in H.
  exact H.
Qed.

(** The corrections at the two edges, in whichever path the injector
    takes: the first row is corrected by the rule of the lower edge, the
    last row by the rule of the upper edge.  At a Dirichlet edge the rule
    is [xi1 = xi2 = 0], [eta = gamma / alpha]: the row of the matrix is
    unchanged, so the fast path returns what the general formulas give. *)
Theorem injector_edge_rows (K M : nat) (ds : list Qc)
  (diagonal upper lower : tensor) (lo up : bc_fn)
  (rest : list (bc_fn * bc_fn)) (coord_grid : list tensor) (t : Qc) :
  2 <= M -> 2 <= length ds ->
  has_shape diagonal [K; M] -> has_shape upper [K; M] ->
  has_shape lower [K; M] ->
  edge_ok K (lo t (ArgGrid coord_grid)) = true ->
  edge_ok K (up t (ArgGrid coord_grid)) = true ->
  exists diagonal' upper' lower' inhomog,
    _apply_boundary_conditions_to_discretized_equation ((lo, up) :: rest)
      coord_grid (Vec ds) diagonal upper lower t
    = Ok ((diagonal', upper', lower'), inhomog)
    /\ forall k, k < K ->
         let L := lo t (ArgGrid coord_grid) in
         let U := up t (ArgGrid coord_grid) in
         let dl0 := delta ds 0 in
         let dl1 := delta ds 1 in
         let du0 := delta ds (length ds - 1) in
         let du1 := delta ds (length ds - 2) in
         entry diagonal' k 0
         = (entry diagonal k 0 + entry lower k 0 * edge_xi1 L k dl0 dl1)%Qc
         /\ entry upper' k 0
            = (entry upper k 0 + entry lower k 0 * edge_xi2 L k dl0 dl1)%Qc
         /\ entry inhomog k 0 = (entry lower k 0 * edge_eta L k dl0 dl1)%Qc
         /\ entry diagonal' k (M - 1)
            = (entry diagonal k (M - 1)
               + entry upper k (M - 1) * edge_xi1 U k du0 du1)%Qc
         /\ entry lower' k (M - 1)
            = (entry lower k (M - 1)
               + entry upper k (M - 1) * edge_xi2 U k du0 du1)%Qc
         /\ entry inhomog k (M - 1)
            = (entry upper k (M - 1) * edge_eta U k du0 du1)%Qc.
Proof.
  intros HM Hds Hd Hu Hl Hlo Hup.
  rewrite (@injector_result K M ds diagonal upper lower lo up rest coord_grid
             t HM Hds Hd Hu Hl Hlo Hup).
  do 4 eexists. split; [reflexivity|].
  intros k Hk. cbv zeta. rewrite !entry_mtab by lia.
  replace (0 =? 0) with true by reflexivity.
  replace (M - 1 =? 0) with false by (symmetry; apply Nat.eqb_neq; lia).
  rewrite Nat.ltb_irrefl. repeat split; reflexivity.
Qed.

Lemma injector_edge_rows_witness :
  edge_ok 2 (ex_dirichlet_lower (num 0) (ArgGrid ex_grid)) = true
  /\ edge_ok 2 (ex_robin_upper (num 0) (ArgGrid ex_grid)) = true
  /\ exists diagonal' upper' lower' inhomog,
       _apply_boundary_conditions_to_discretized_equation
         [(ex_dirichlet_lower, ex_robin_upper)] ex_grid (Vec ex_ds)
         ex_diagonal ex_upper ex_lower (num 0)
       = Ok ((diagonal', upper', lower'), inhomog)
       /\ entry diagonal' 1 0
          = (entry ex_diagonal 1 0
             + entry ex_lower 1 0
               * edge_xi1 (ex_dirichlet_lower (num 0) (ArgGrid ex_grid)) 1
                   (delta ex_ds 0) (delta ex_ds 1))%Qc.
Proof.
  split; [reflexivity|]. split; [reflexivity|].
  destruct (@injector_edge_rows 2 2 ex_ds ex_diagonal ex_upper ex_lower
              ex_dirichlet_lower ex_robin_upper [] ex_grid (num 0)
              (le_n 2) (le_S 2 2 (le_n 2)) (conj eq_refl eq_refl)
              (conj eq_refl eq_refl) (conj eq_refl eq_refl) eq_refl eq_refl)
    as (d' & u' & l' & r & E & H).
  exists d', u', l', r. split; [exact E|]. exact (proj1 (H 1 (le_n 2))).
Defined.

(** For a matrix of at least two columns and usable boundary conditions:
    every row of the matrix between the first and the last is returned
    as it was given, the upper diagonal is only changed in the first row
    and the lower diagonal only in the last, and the inhomogeneous term is
    zero between its first and last entry; all four results have the
    shape of the matrix. *)
Theorem injector_interior_rows (K M : nat) (ds : list Qc)
  (diagonal upper lower : tensor) (lo up : bc_fn)
  (rest : list (bc_fn * bc_fn)) (coord_grid : list tensor) (t : Qc) :
  2 <= M -> 2 <= length ds ->
  has_shape diagonal [K; M] -> has_shape upper [K; M] ->
  has_shape lower [K; M] ->
  edge_ok K (lo t (ArgGrid coord_grid)) = true ->
  edge_ok K (up t (ArgGrid coord_grid)) = true ->
  exists diagonal' upper' lower' inhomog,
    _apply_boundary_conditions_to_discretized_equation ((lo, up) :: rest)
      coord_grid (Vec ds) diagonal upper lower t
    = Ok ((diagonal', upper', lower'), inhomog)
    /\ has_shape diagonal' [K; M] /\ has_shape upper' [K; M]
    /\ has_shape lower' [K; M] /\ has_shape inhomog [K; M]
    /\ forall k j, k < K -> j < M ->
         (0 < j -> j < M - 1 ->
          entry diagonal' k j = entry diagonal k j
          /\ entry inhomog k j = 0%Qc)
         /\ (0 < j -> entry upper' k j = entry upper k j)
         /\ (j < M - 1 -> entry lower' k j = entry lower k j).
Proof.
  intros HM Hds Hd Hu Hl Hlo Hup.
  rewrite (@injector_result K M ds diagonal upper lower lo up rest coord_grid
             t HM Hds Hd Hu Hl Hlo Hup).
  do 4 eexists. split; [reflexivity|].
  do 4 (split; [apply has_shape_mtab|]).
  intros k j Hk Hj. rewrite !entry_mtab by lia.
  split; [|split].
  - intros H0 H1.
    replace (j =? 0) with false by (symmetry; apply Nat.eqb_neq; lia).
    replace (j <? M - 1) with true by (symmetry; apply Nat.ltb_lt; lia).
    now split.
  - intros H0.
    now replace (j =? 0) with false by (symmetry; apply Nat.eqb_neq; lia).
  - intros H1.
    now replace (j <? M - 1) with true by (symmetry; apply Nat.ltb_lt; lia).
Qed.

Lemma injector_interior_rows_witness :
  exists diagonal' upper' lower' inhomog,
    _apply_boundary_conditions_to_discretized_equation
      [(ex_dirichlet_lower, ex_robin_upper)] ex_grid (Vec ex_ds)
      ex_diagonal ex_upper ex_lower (num 0)
    = Ok ((diagonal', upper', lower'), inhomog)
    /\ has_shape inhomog [2; 2]
    /\ entry upper' 1 1 = entry ex_upper 1 1
    /\ entry lower' 1 0 = entry ex_lower 1 0.
Proof.
  destruct (@injector_interior_rows 2 2 ex_ds ex_diagonal ex_upper ex_lower
              ex_dirichlet_lower ex_robin_upper [] ex_grid (num 0)
              (le_n 2) (le_S 2 2 (le_n 2)) (conj eq_refl eq_refl)
              (conj eq_refl eq_refl) (conj eq_refl eq_refl) eq_refl eq_refl)
    as (d' & u' & l' & r & E & _ & _ & _ & Hr & H).
  exists d', u', l', r. split; [exact E|]. split; [exact Hr|]. split.
  - exact (proj1 (proj2 (H 1 1 (le_n 2) (le_n 2))) (le_n 1)).
  - exact (proj2 (proj2 (H 1 0 (le_n 2) (le_S 1 1 (le_n 1)))) (le_n 1)).
Defined.

Lemma edge_eta_zero (bc : option tensor * option tensor * tensor) (k : nat)
  (dx0 dx1 : Qc) :
  bget (snd bc) k = 0%Qc -> edge_eta bc k dx0 dx1 = 0%Qc.
Proof.
  destruct bc as [[alpha beta] gamma]. cbn [snd]. intros H.
  unfold edge_eta, rule_eta, spec_eta. rewrite H.
  destruct (bget_opt beta k); [unfold Qcdiv; ring|].
  destruct (bget_opt alpha k); [unfold Qcdiv; ring|reflexivity].
Qed.

(** Homogeneous boundary conditions give a homogeneous equation: for a
    matrix of at least two columns and usable boundary conditions whose
    divisor ([alpha] at a Dirichlet edge, the denominator of the Robin
    formulas otherwise) is not zero in any batch row, when [gamma] is zero
    in every batch row at both edges, every entry of the inhomogeneous
    term is zero, in either path. *)
Theorem homogeneous_conditions_zero_term (K M : nat) (ds : list Qc)
  (diagonal upper lower : tensor) (lo up : bc_fn)
  (rest : list (bc_fn * bc_fn)) (coord_grid : list tensor) (t : Qc) :
  2 <= M -> 2 <= length ds ->
  has_shape diagonal [K; M] -> has_shape upper [K; M] ->
  has_shape lower [K; M] ->
  edge_ok K (lo t (ArgGrid coord_grid)) = true ->
  edge_ok K (up t (ArgGrid coord_grid)) = true ->
  (forall k, k < K -> bget (snd (lo t (ArgGrid coord_grid))) k = 0%Qc) ->
  (forall k, k < K -> bget (snd (up t (ArgGrid coord_grid))) k = 0%Qc) ->
  (forall k, k < K ->
     edge_divisor (lo t (ArgGrid coord_grid)) k (delta ds 0) (delta ds 1)
     <> 0%Qc) ->
  (forall k, k < K ->
     edge_divisor (up t (ArgGrid coord_grid)) k
       (delta ds (length ds - 1)) (delta ds (length ds - 2))
     <> 0%Qc) ->
  exists diagonal' upper' lower' inhomog,
    _apply_boundary_conditions_to_discretized_equation ((lo, up) :: rest)
      coord_grid (Vec ds) diagonal upper lower t
    = Ok ((diagonal', upper', lower'), inhomog)
    /\ forall k j, k < K -> j < M -> entry inhomog k j = 0%Qc.
Proof.
  intros HM Hds Hd Hu Hl Hlo Hup Hgl Hgu _ _.
  rewrite (@injector_result K M ds diagonal upper lower lo up rest coord_grid
             t HM Hds Hd Hu Hl Hlo Hup).
  do 4 eexists. split; [reflexivity|].
  intros k j Hk Hj. rewrite entry_mtab by lia.
  rewrite !edge_eta_zero by auto.
  destruct (j =? 0); [ring|]. destruct (j <? M - 1); [reflexivity|ring].
Qed.

Lemma homogeneous_conditions_zero_term_witness :
  edge_ok 2 (ex_homogeneous_lower (num 0) (ArgGrid ex_grid)) = true
  /\ edge_ok 2 (ex_homogeneous_upper (num 0) (ArgGrid ex_grid)) = true
  /\ (forall k, k < 2 ->
        edge_divisor (ex_homogeneous_lower (num 0) (ArgGrid ex_grid)) k
          (delta ex_ds 0) (delta ex_ds 1) <> 0%Qc)
  /\ (forall k, k < 2 ->
        edge_divisor (ex_homogeneous_upper (num 0) (ArgGrid ex_grid)) k
          (delta ex_ds (length ex_ds - 1)) (delta ex_ds (length ex_ds - 2))
        <> 0%Qc)
  /\ exists diagonal' upper' lower' inhomog,
       _apply_boundary_conditions_to_discretized_equation
         [(ex_homogeneous_lower, ex_homogeneous_upper)] ex_grid (Vec ex_ds)
         ex_diagonal ex_upper ex_lower (num 0)
       = Ok ((diagonal', upper', lower'), inhomog)
       /\ forall k j, k < 2 -> j < 2 -> entry inhomog k j = 0%Qc.
Proof.
  split; [reflexivity|]. split; [reflexivity|].
  assert (Hz : forall k, k < 2 -> bget (Scalar 0%Qc) k = 0%Qc)
    by (intros; reflexivity).
  assert (Hdl : forall k, k < 2 ->
            edge_divisor (ex_homogeneous_lower (num 0) (ArgGrid ex_grid)) k
              (delta ex_ds 0) (delta ex_ds 1) <> 0%Qc)
    by (intros k Hk; discriminate).
  assert (Hdu : forall k, k < 2 ->
            edge_divisor (ex_homogeneous_upper (num 0) (ArgGrid ex_grid)) k
              (delta ex_ds (length ex_ds - 1))
              (delta ex_ds (length ex_ds - 2)) <> 0%Qc).
  { intros [|[|k]] Hk; [discriminate | discriminate | lia]. }
  split; [exact Hdl|]. split; [exact Hdu|].
  exact (@homogeneous_conditions_zero_term 2 2 ex_ds ex_diagonal ex_upper
           ex_lower ex_homogeneous_lower ex_homogeneous_upper [] ex_grid
           (num 0) (le_n 2) (le_S 2 2 (le_n 2)) (conj eq_refl eq_refl)
           (conj eq_refl eq_refl) (conj eq_refl eq_refl) eq_refl eq_refl
           Hz Hz Hdl Hdu).
Defined.

(* ================================================================== *)
(** * Accuracy of the rule and of the stencil *)

(** The extrapolation rule is exact on quadratic functions.  Measure [x]
    from the boundary towards the interior and let
    [V(x) = p + q x + r x^2], so that the two nearest interior values are
    [V(dx0)] and [V(dx0 + dx1)] and the derivative along the exterior
    normal at the boundary is [-q].  With
    [gamma = alpha V(0) + beta V_n(0)] the rule returns the boundary value
    [V(0) = p] exactly, whenever its denominator is not zero. *)
Theorem robin_rule_exact_on_quadratics (alpha : option Qc)
  (beta dx0 dx1 p q r : Qc) :
  spec_denom alpha beta dx0 dx1 <> 0%Qc ->
  let a := match alpha with Some a => a | None => 0%Qc end in
  let gamma := (a * p - beta * q)%Qc in
  let v1 := (p + q * dx0 + r * dx0 * dx0)%Qc in
  let v2 := (p + q * (dx0 + dx1) + r * (dx0 + dx1) * (dx0 + dx1))%Qc in
  exists xi1 xi2 eta,
    _discretize_boundary_conditions (Scalar dx0) (Scalar dx1)
      (option_map Scalar alpha) (Some (Scalar beta)) (Scalar gamma)
    = Ok (Scalar xi1, Scalar xi2, Scalar eta)
    /\ (xi1 * v1 + xi2 * v2 + eta)%Qc = p.
Proof.
  intros Hden a gamma v1 v2.
  destruct alpha as [al|]; cbn [option_map];
    unfold _discretize_boundary_conditions;
    cbn [lift2 bind ret tmul tadd tdiv binop tneg tmap];
    do 3 eexists; (split; [reflexivity|]);
    subst a gamma v1 v2; unfold spec_denom in Hden; unfold Qcdiv.
  - set (D := (beta * dx1 * (two * dx0 + dx1)
               + al * dx0 * dx1 * (dx0 + dx1))%Qc) in *.
    transitivity (p * (D * / D))%Qc; [subst D; unfold two; ring|].
    rewrite Qcmult_inv_r by exact Hden. ring.
  - set (D := (beta * dx1 * (two * dx0 + dx1))%Qc).
    assert (HD : D <> 0%Qc).
    { intros E. apply Hden. fold D. rewrite E. ring. }
    transitivity (p * (D * / D))%Qc; [subst D; unfold two; ring|].
    rewrite Qcmult_inv_r by exact HD. ring.
Qed.

Lemma robin_rule_exact_on_quadratics_witness :
  spec_denom (Some (num 1)) (num 2) (num 1) (num 2) <> 0%Qc
  /\ exists xi1 xi2 eta,
       _discretize_boundary_conditions (Scalar (num 1)) (Scalar (num 2))
         (Some (Scalar (num 1))) (Some (Scalar (num 2)))
         (Scalar (num 1 * num 3 - num 2 * num 4)%Qc)
       = Ok (Scalar xi1, Scalar xi2, Scalar eta)
       /\ (xi1 * (num 3 + num 4 * num 1 + num 5 * num 1 * num 1)
           + xi2 * (num 3 + num 4 * (num 1 + num 2)
                    + num 5 * (num 1 + num 2) * (num 1 + num 2))
           + eta)%Qc = num 3.
Proof.
  assert (Hden : spec_denom (Some (num 1)) (num 2) (num 1) (num 2) <> 0%Qc)
    by discriminate.
  split; [exact Hden|].
  exact (@robin_rule_exact_on_quadratics (Some (num 1)) (num 2) (num 1) (num 2)
           (num 3) (num 4) (num 5) Hden).
Defined.

Lemma Qc_add_pos (x y : Qc) : (0 < x)%Qc -> (0 < y)%Qc -> (0 < x + y)%Qc.
Proof.
  intros Hx Hy. apply Qclt_le_trans with x; [exact Hx|].
  rewrite <- (Qcplus_0_r x) at 1.
  apply Qcplus_le_compat; [apply Qcle_refl | now apply Qclt_le_weak].
Qed.

(** The stencil is consistent with the equation: on a strictly
    increasing grid, row [i] of the matrix applied to the constant
    function gives [-c], applied to [x - x_i] gives [-b], and applied to
    [(x - x_i)^2] gives [-2a + b (h0 - h1)], so the second-order term is
    reproduced exactly and the first-order term up to [b (h0 - h1)],
    which vanishes when the two spacings agree. *)
Theorem stencil_consistency (K N : nat) (coord_grid : list tensor)
  (ds : list Qc) (value_grid : tensor) (sf : second_order_fn)
  (ff : first_order_fn) (zf : zeroth_order_fn) (t : Qc)
  (araw braw craw A B C : tensor)
  (ra1 : list (option tensor)) (ra2 : list (list (option tensor)))
  (rb : list (option tensor)) :
  shape value_grid = [K; N] -> length ds = N - 1 ->
  sf t coord_grid = (Some araw :: ra1) :: ra2 ->
  ff t coord_grid = Some braw :: rb ->
  zf t coord_grid = Some craw ->
  broadcast_to araw [K; N] = Ok A ->
  broadcast_to braw [K; N] = Ok B ->
  broadcast_to craw [K; N] = Ok C ->
  (forall j, j < N - 1 -> (0 < delta ds j)%Qc) ->
  exists diagonal upper lower,
    space_discretized_stencil coord_grid (Vec ds) value_grid
      (Some sf) (Some ff) (Some zf) t
    = Ok (diagonal, upper, lower)
    /\ forall k i, k < K -> i < N - 2 ->
         let h0 := delta ds i in
         let h1 := delta ds (S i) in
         let a := entry A k (S i) in
         let b := entry B k (S i) in
         let c := entry C k (S i) in
         let d := entry diagonal k i in
         let u := entry upper k i in
         let l := entry lower k i in
         (l + d + u = - c)%Qc
         /\ (u * h1 - l * h0 = - b)%Qc
         /\ (l * (h0 * h0) + u * (h1 * h1) = - (two * a) + b * (h0 - h1))%Qc.
Proof.
  intros Hvg Hds Hsf Hff Hzf HA HB HC Hpos.
  rewrite (stencil_entries coord_grid ds value_grid sf ff zf t Hvg Hds
             Hsf Hff Hzf HA HB HC).
  do 3 eexists. split; [reflexivity|].
  intros k i Hk Hi. cbv zeta.
  rewrite !entry_mtab by assumption.
  assert (H0 : (0 < delta ds i)%Qc) by (apply Hpos; lia).
  assert (H1 : (0 < delta ds (S i))%Qc) by (apply Hpos; lia).
  pose proof (Qc_pos_neq_0 H0) as N0.
  pose proof (Qc_pos_neq_0 H1) as N1.
  pose proof (Qc_pos_neq_0 (Qc_add_pos H0 H1)) as Ns.
  unfold spec_diag, spec_upper, spec_lower, two.
  repeat split; field; auto.
Qed.

Lemma stencil_consistency_witness :
  (forall j, j < 4 - 1 -> (0 < delta ex_ds j)%Qc)
  /\ exists diagonal upper lower,
       space_discretized_stencil ex_grid (Vec ex_ds) ex_value_grid
         (Some ex_second_order) (Some ex_first_order) (Some ex_zeroth_order)
         (num 0)
       = Ok (diagonal, upper, lower)
       /\ forall k i, k < 2 -> i < 4 - 2 ->
            (entry lower k i + entry diagonal k i + entry upper k i
             = - entry ex_C k (S i))%Qc.
Proof.
  assert (Hpos : forall j, j < 4 - 1 -> (0 < delta ex_ds j)%Qc).
  { intros [|[|[|j]]] Hj; try reflexivity. simpl in Hj. lia. }
  split; [exact Hpos|].
  destruct (@stencil_consistency 2 4 ex_grid ex_ds ex_value_grid
              ex_second_order ex_first_order ex_zeroth_order (num 0)
              (Scalar (num 1)) (Vec [num 1; num 2; num 3; num 4])
              (Mat 1 [[num 1]; [num 2]]) ex_A ex_B ex_C [] [] []
              eq_refl eq_refl eq_refl eq_refl eq_refl eq_refl eq_refl eq_refl
              Hpos)
    as (d & u & l & E & H).
  exists d, u, l. split; [exact E|].
  intros k i Hk Hi. exact (proj1 (H k i Hk Hi)).
Defined.

(* ================================================================== *)
(** * Preparing the coefficients *)

(** A coefficient that broadcasts to the shape [[K, N]] of the value
    field is returned with shape [[K, N - 2]]: the broadcast field without
    its two boundary columns.  A coefficient that is [None] or does not
    broadcast makes the preparation raise. *)
Theorem prepare_pde_coeffs_trims (K N : nat) (raw : tensor)
  (value_grid : tensor) :
  shape value_grid = [K; N] ->
  (forall A, broadcast_to raw [K; N] = Ok A ->
     exists coeffs,
       _prepare_pde_coeffs (Some raw) value_grid = Ok coeffs
       /\ has_shape coeffs [K; N - 2]
       /\ forall k j, k < K -> j < N - 2 ->
            entry coeffs k j = entry A k (S j))
  /\ (forall e, broadcast_to raw [K; N] = Err e ->
        _prepare_pde_coeffs (Some raw) value_grid = Err e)
  /\ _prepare_pde_coeffs None value_grid = Err NoneValue.
Proof.
  intros Hvg. split; [|split].
  - intros A HA. unfold _prepare_pde_coeffs. cbn [convert_to_tensor bind].
    rewrite Hvg, HA. cbn [bind].
    rewrite (has_shape2_mtab (broadcast_to_has_shape2 raw K N HA)).
    rewrite last_slice_inner_mtab. eexists. split; [reflexivity|].
    split; [apply has_shape_mtab|].
    intros k j Hk Hj. rewrite !entry_mtab by lia. reflexivity.
  - intros e He. unfold _prepare_pde_coeffs. cbn [convert_to_tensor bind].
    now rewrite Hvg, He.
  - reflexivity.
Qed.

Lemma prepare_pde_coeffs_trims_witness :
  shape ex_value_grid = [2; 4]
  /\ (exists coeffs,
         _prepare_pde_coeffs (Some (Vec [num 1; num 2; num 3; num 4]))
           ex_value_grid = Ok coeffs
         /\ has_shape coeffs [2; 4 - 2]
         /\ forall k j, k < 2 -> j < 4 - 2 ->
              entry coeffs k j = entry ex_B k (S j))
  /\ _prepare_pde_coeffs (Some (Vec [num 1; num 2; num 3])) ex_value_grid
     = Err ShapeMismatch.
Proof.
  destruct (@prepare_pde_coeffs_trims 2 4 (Vec [num 1; num 2; num 3; num 4])
              ex_value_grid eq_refl) as (H1 & _ & _).
  destruct (@prepare_pde_coeffs_trims 2 4 (Vec [num 1; num 2; num 3])
              ex_value_grid eq_refl) as (_ & H2 & _).
  split; [reflexivity|]. split.
  - exact (H1 ex_B eq_refl).
  - exact (H2 ShapeMismatch eq_refl).
Defined.

(** A coefficient callable that returns [None] as the value of its
    coefficient makes the construction of the equation raise: this holds
    for the second-order, the first-order and the zeroth-order
    coefficient, the earlier ones being usable. *)
Theorem stencil_rejects_none_value (K N : nat) (coord_grid : list tensor)
  (ds : list Qc) (value_grid : tensor) (t : Qc) :
  shape value_grid = [K; N] ->
  (forall (sf : second_order_fn) fo zo ra1 ra2,
      sf t coord_grid = (None :: ra1) :: ra2 ->
      space_discretized_stencil coord_grid (Vec ds) value_grid
        (Some sf) fo zo t = Err NoneValue)
  /\ (forall (sf : second_order_fn) (ff : first_order_fn) zo araw A ra1 ra2 rb,
         sf t coord_grid = (Some araw :: ra1) :: ra2 ->
         broadcast_to araw [K; N] = Ok A ->
         ff t coord_grid = None :: rb ->
         space_discretized_stencil coord_grid (Vec ds) value_grid
           (Some sf) (Some ff) zo t = Err NoneValue)
  /\ (forall (sf : second_order_fn) (ff : first_order_fn)
             (zf : zeroth_order_fn) araw braw A B ra1 ra2 rb,
         sf t coord_grid = (Some araw :: ra1) :: ra2 ->
         broadcast_to araw [K; N] = Ok A ->
         ff t coord_grid = Some braw :: rb ->
         broadcast_to braw [K; N] = Ok B ->
         zf t coord_grid = None ->
         space_discretized_stencil coord_grid (Vec ds) value_grid
           (Some sf) (Some ff) (Some zf) t = Err NoneValue).
Proof.
  intros Hvg. split; [|split].
  - intros sf fo zo ra1 ra2 Hsf. unfold space_discretized_stencil.
    rewrite (Vec_is_vtab ds). tab. rewrite Hsf. tab. reflexivity.
  - intros sf ff zo araw A ra1 ra2 rb Hsf HA Hff.
    unfold space_discretized_stencil, _prepare_pde_coeffs.
    rewrite (Vec_is_vtab ds). tab. rewrite Hsf. tab. rewrite Hvg, HA.
    cbn [bind].
    rewrite (has_shape2_mtab (broadcast_to_has_shape2 araw K N HA)).
    tab. rewrite Hff. tab. reflexivity.
  - intros sf ff zf araw braw A B ra1 ra2 rb Hsf HA Hff HB Hzf.
    unfold space_discretized_stencil, _prepare_pde_coeffs.
    rewrite (Vec_is_vtab ds). tab. rewrite Hsf. tab. rewrite Hvg, HA.
    cbn [bind].
    rewrite (has_shape2_mtab (broadcast_to_has_shape2 araw K N HA)).
    tab. rewrite Hff. tab. rewrite HB. cbn [bind].
    rewrite (has_shape2_mtab (broadcast_to_has_shape2 braw K N HB)).
    tab. rewrite Hzf. reflexivity.
Qed.

Lemma stencil_rejects_none_value_witness :
  shape ex_value_grid = [2; 4]
  /\ space_discretized_stencil ex_grid (Vec ex_ds) ex_value_grid
       (Some (fun _ _ => [[None]])) (Some ex_first_order)
       (Some ex_zeroth_order) (num 0)
     = Err NoneValue
  /\ space_discretized_stencil ex_grid (Vec ex_ds) ex_value_grid
       (Some ex_second_order) (Some ex_first_order) (Some (fun _ _ => None))
       (num 0)
     = Err NoneValue.
Proof.
  destruct (@stencil_rejects_none_value 2 4 ex_grid ex_ds ex_value_grid
              (num 0) eq_refl) as (H1 & _ & H3).
  split; [reflexivity|]. split.
  - exact (H1 (fun _ _ => [[None]]) (Some ex_first_order)
             (Some ex_zeroth_order) [] [] eq_refl).
  - exact (H3 ex_second_order ex_first_order (fun _ _ => None)
             (Scalar (num 1)) (Vec [num 1; num 2; num 3; num 4]) ex_A ex_B
             [] [] [] eq_refl eq_refl eq_refl eq_refl eq_refl).
Defined.

Lemma Qc_mul_pos (x y : Qc) : (0 < x)%Qc -> (0 < y)%Qc -> (0 < x * y)%Qc.
Proof.
  intros Hx Hy. rewrite <- (Qcmult_0_l y).
  now apply Qcmult_lt_compat_r.
Qed.

Lemma Qc_inv_pos (x : Qc) : (0 < x)%Qc -> (0 < / x)%Qc.
Proof.
  intros Hx. unfold Qclt in *.
  change (0 < Qred (/ x))%Q. rewrite Qred_correct.
  apply Qinv_lt_0_compat. exact Hx.
Qed.

Lemma Qc_opp_neg (x : Qc) : (0 < x)%Qc -> (- x < 0)%Qc.
Proof.
  intros Hx. apply Qclt_minus_iff.
  now rewrite Qcopp_involutive, Qcplus_0_l.
Qed.

Lemma Qc_lt_sub_pos (x y : Qc) : (x < y)%Qc -> (0 < y - x)%Qc.
Proof. intros H. now apply Qclt_minus_iff in H. Qed.

(** Sign pattern of the stencil.  On a strictly increasing grid, at an
    interior point where [-2a < b h1] and [b h0 < 2a] (the first-order
    coefficient is small against the second-order one on the scale of
    the spacings), the two off-diagonal entries are negative and the
    diagonal is [-c + (-upper) + (-lower)]: it exceeds [-c] by the sum of
    their absolute values. *)
Theorem stencil_sign_pattern (K N : nat) (coord_grid : list tensor)
  (ds : list Qc) (value_grid : tensor) (sf : second_order_fn)
  (ff : first_order_fn) (zf : zeroth_order_fn) (t : Qc)
  (araw braw craw A B C : tensor)
  (ra1 : list (option tensor)) (ra2 : list (list (option tensor)))
  (rb : list (option tensor)) :
  shape value_grid = [K; N] -> length ds = N - 1 ->
  sf t coord_grid = (Some araw :: ra1) :: ra2 ->
  ff t coord_grid = Some braw :: rb ->
  zf t coord_grid = Some craw ->
  broadcast_to araw [K; N] = Ok A ->
  broadcast_to braw [K; N] = Ok B ->
  broadcast_to craw [K; N] = Ok C ->
  (forall j, j < N - 1 -> (0 < delta ds j)%Qc) ->
  exists diagonal upper lower,
    space_discretized_stencil coord_grid (Vec ds) value_grid
      (Some sf) (Some ff) (Some zf) t
    = Ok (diagonal, upper, lower)
    /\ forall k i, k < K -> i < N - 2 ->
         let h0 := delta ds i in
         let h1 := delta ds (S i) in
         let a := entry A k (S i) in
         let b := entry B k (S i) in
         let c := entry C k (S i) in
         (- (two * a) < b * h1)%Qc -> (b * h0 < two * a)%Qc ->
         (entry upper k i < 0)%Qc /\ (entry lower k i < 0)%Qc
         /\ (entry diagonal k i
             = - c + - entry upper k i + - entry lower k i)%Qc
         /\ (0 < - entry upper k i)%Qc /\ (0 < - entry lower k i)%Qc
         /\ (0 < entry diagonal k i + c)%Qc.
Proof.
  intros Hvg Hds Hsf Hff Hzf HA HB HC Hpos.
  rewrite (stencil_entries coord_grid ds value_grid sf ff zf t Hvg Hds
             Hsf Hff Hzf HA HB HC).
  do 3 eexists. split; [reflexivity|].
  intros k i Hk Hi. cbv zeta. intros Hu Hl.
  rewrite !entry_mtab by assumption.
  set (h0 := delta ds i) in *. set (h1 := delta ds (S i)) in *.
  set (a := entry A k (S i)) in *. set (b := entry B k (S i)) in *.
  set (c := entry C k (S i)).
  assert (H0 : (0 < h0)%Qc) by (apply Hpos; lia).
  assert (H1 : (0 < h1)%Qc) by (apply Hpos; lia).
  pose proof (Qc_add_pos H0 H1) as Hs.
  pose proof (Qc_pos_neq_0 H0) as N0.
  pose proof (Qc_pos_neq_0 H1) as N1.
  pose proof (Qc_pos_neq_0 Hs) as Ns.
  assert (Pu : (0 < (b * h1 + two * a) * (/ (h0 + h1) * / h1))%Qc).
  { apply Qc_mul_pos; [|apply Qc_mul_pos; now apply Qc_inv_pos].
    apply Qc_lt_sub_pos in Hu.
    replace (b * h1 + two * a)%Qc with (b * h1 - - (two * a))%Qc by ring.
    exact Hu. }
  assert (Pl : (0 < (two * a - b * h0) * (/ (h0 + h1) * / h0))%Qc).
  { apply Qc_mul_pos; [|apply Qc_mul_pos; now apply Qc_inv_pos].
    now apply Qc_lt_sub_pos. }
  assert (Eu : spec_upper h0 h1 a b
               = (- ((b * h1 + two * a) * (/ (h0 + h1) * / h1)))%Qc).
  { unfold spec_upper, two. field. auto. }
  assert (El : spec_lower h0 h1 a b
               = (- ((two * a - b * h0) * (/ (h0 + h1) * / h0)))%Qc).
  { unfold spec_lower, two. field. auto. }
  split; [|split; [|split; [|split; [|split]]]].
  - rewrite Eu. now apply Qc_opp_neg.
  - rewrite El. now apply Qc_opp_neg.
  - unfold spec_diag. ring.
  - rewrite Eu, Qcopp_involutive. exact Pu.
  - rewrite El, Qcopp_involutive. exact Pl.
  - unfold spec_diag. rewrite Eu, El.
    replace (- c - - ((b * h1 + two * a) * (/ (h0 + h1) * / h1))
             - - ((two * a - b * h0) * (/ (h0 + h1) * / h0)) + c)%Qc
      with ((b * h1 + two * a) * (/ (h0 + h1) * / h1)
            + (two * a - b * h0) * (/ (h0 + h1) * / h0))%Qc by ring.
    now apply Qc_add_pos.
Qed.

Lemma stencil_sign_pattern_witness :
  (forall j, j < 4 - 1 -> (0 < delta ex_ds j)%Qc)
  /\ exists diagonal upper lower,
       space_discretized_stencil ex_grid (Vec ex_ds) ex_value_grid
         (Some ex_second_order) (Some zero_first_order) (Some ex_zeroth_order)
         (num 0)
       = Ok (diagonal, upper, lower)
       /\ (entry upper 1 1 < 0)%Qc /\ (entry lower 1 1 < 0)%Qc.
Proof.
  assert (Hpos : forall j, j < 4 - 1 -> (0 < delta ex_ds j)%Qc).
  { intros [|[|[|j]]] Hj; try reflexivity. simpl in Hj. lia. }
  split; [exact Hpos|].
  destruct (@stencil_sign_pattern 2 4 ex_grid ex_ds ex_value_grid
              ex_second_order zero_first_order ex_zeroth_order (num 0)
              (Scalar (num 1)) (Scalar 0%Qc)
              (Mat 1 [[num 1]; [num 2]]) ex_A
              (Mat 4 (repeat (repeat 0%Qc 4) 2)) ex_C [] [] []
              eq_refl eq_refl eq_refl eq_refl eq_refl eq_refl eq_refl eq_refl
              Hpos)
    as (d & u & l & E & H).
  exists d, u, l. split; [exact E|].
  destruct (H 1 1 (le_n 2) (le_n 2) eq_refl eq_refl) as (Hu & Hl & _).
  split; [exact Hu | exact Hl].
Defined.

(* ================================================================== *)
(** * The helpers that put boundary columns around an interior field *)

(** Round trips of the three concatenation helpers.  For an interior
    field of [K] rows and boundary columns of [K] entries, each helper
    returns a field from which reading column [0] (or [-1]) gives back the
    boundary column and slicing gives back the interior; the helper that
    adds both columns returns exactly when both have one entry per row. *)
Theorem append_round_trip (K n : nat) (first inner last : tensor) :
  has_shape inner [K; n] ->
  (is_ok (_append_first_and_last first inner last) = true
   <-> shape first = [K] /\ shape last = [K])
  /\ (shape first = [K] -> shape last = [K] ->
      exists r,
        _append_first_and_last first inner last = Ok r
        /\ has_shape r [K; n + 2]
        /\ last_item r 0 = Ok first
        /\ last_item r (-1) = Ok last
        /\ last_slice (Some 1%Z) (Some (-1)%Z) r = Ok inner)
  /\ (shape first = [K] ->
      exists r,
        _append_first first inner = Ok r
        /\ has_shape r [K; S n]
        /\ last_item r 0 = Ok first
        /\ last_slice (Some 1%Z) None r = Ok inner)
  /\ (shape last = [K] ->
      exists r,
        _append_last inner last = Ok r
        /\ has_shape r [K; S n]
        /\ last_item r (-1) = Ok last
        /\ last_slice None (Some (-1)%Z) r = Ok inner).
Proof.
  intros Hin. pose proof (has_shape2_mtab Hin) as Ei.
  assert (Hboth : shape first = [K] -> shape last = [K] ->
            exists r,
              _append_first_and_last first inner last = Ok r
              /\ has_shape r [K; n + 2]
              /\ last_item r 0 = Ok first
              /\ last_item r (-1) = Ok last
              /\ last_slice (Some 1%Z) (Some (-1)%Z) r = Ok inner).
  { intros Hf Hl.
    rewrite (tensor_of_shape1 first Hf), (tensor_of_shape1 last Hl), Ei.
    rewrite append_first_and_last_tab. eexists. split; [reflexivity|].
    split; [apply has_shape_mtab|].
    rewrite last_item_mtab_0, last_item_mtab_m1, last_slice_inner_mtab by lia.
    replace (n + 2 - 2) with n by lia.
    repeat split; f_equal.
    - apply vtab_ext. intros k _.
      destruct (Nat.eqb_spec (n + 2 - 1) 0); [lia|].
      destruct (Nat.leb_spec (n + 2 - 1) n); [lia|reflexivity].
    - apply mtab_ext. intros k j Hk Hj. cbn [Nat.eqb].
      destruct (Nat.leb_spec (S j) n); [|lia].
      f_equal. lia. }
  split; [|split; [exact Hboth|split]].
  - split.
    + destruct (_append_first_and_last first inner last) as [r|] eqn:E;
        [intros _|discriminate].
      rewrite Ei in E. apply append_first_and_last_inv in E.
      destruct E as (a & b & -> & ->). now rewrite !shape_vtab.
    + intros [Hf Hl]. destruct (Hboth Hf Hl) as (r & -> & _). reflexivity.
  - intros Hf. rewrite (tensor_of_shape1 first Hf), Ei.
    rewrite append_first_tab. eexists. split; [reflexivity|].
    split; [apply has_shape_mtab|].
    rewrite last_item_mtab_0, last_slice_tail_mtab by lia.
    replace (S n - 1) with n by lia.
    split; [reflexivity|]. f_equal.
    apply mtab_ext. intros k j Hk Hj. cbn [Nat.eqb]. f_equal. lia.
  - intros Hl. rewrite (tensor_of_shape1 last Hl), Ei.
    rewrite append_last_tab. eexists. split; [reflexivity|].
    split; [apply has_shape_mtab|].
    rewrite last_item_mtab_m1, last_slice_init_mtab by lia.
    replace (S n - 1) with n by lia.
    split; f_equal.
    + apply vtab_ext. intros k _.
      destruct (Nat.ltb_spec n n); [lia|reflexivity].
    + apply mtab_ext. intros k j Hk Hj.
      destruct (Nat.ltb_spec j n); [reflexivity|lia].
Qed.

Lemma append_round_trip_witness :
  exists r,
    _append_first_and_last (Vec [num 7; num 8]) ex_diagonal
      (Vec [num 5; num 6]) = Ok r
    /\ last_item r 0 = Ok (Vec [num 7; num 8])
    /\ last_slice (Some 1%Z) (Some (-1)%Z) r = Ok ex_diagonal.
Proof.
  destruct (@append_round_trip 2 2 (Vec [num 7; num 8]) ex_diagonal
              (Vec [num 5; num 6]) (conj eq_refl eq_refl))
    as (_ & H & _).
  destruct (H eq_refl eq_refl) as (r & E & _ & H0 & _ & Hs).
  exists r. split; [exact E|]. split; [exact H0 | exact Hs].
Defined.

(* ================================================================== *)
(** * What the step returns *)

(** The step returns the interior that the time-marching routine returned,
    untouched, between two boundary columns: slicing the result with
    [1:-1] gives back the routine's output, and each boundary value is
    [xi1 * v1 + xi2 * v2 + eta] for the rule of its edge at the time after
    the step, [v1] and [v2] being the two new interior values nearest to
    that edge. *)
Theorem step_keeps_marching_output (K N : nat) (time next_time : Qc)
  (xs : list Qc) (grest : list tensor) (value_grid : tensor) (lo up : bc_fn)
  (brest : list (bc_fn * bc_fn)) (so : option second_order_fn)
  (fo : option first_order_fn) (zo : option zeroth_order_fn)
  (tms : marching_scheme) (grid' : list tensor) (updated : tensor) :
  4 <= N -> length xs = N -> has_shape value_grid [K; N] ->
  marching_preserves_shape tms ->
  edge_ok K (lo next_time (ArgTensor (Scalar (nth 0 xs 0%Qc)))) = true ->
  edge_ok K (up next_time (ArgGrid (Vec xs :: grest))) = true ->
  parabolic_equation_step time next_time (Vec xs :: grest) value_grid
    ((lo, up) :: brest) so fo zo tms
  = Ok (grid', updated) ->
  exists inner f out,
    last_slice (Some 1%Z) (Some (-1)%Z) value_grid = Ok inner
    /\ tms inner next_time time f = Ok out
    /\ last_slice (Some 1%Z) (Some (-1)%Z) updated = Ok out
    /\ forall k, k < K ->
         entry updated k 0
         = edge_value (lo next_time (ArgTensor (Scalar (nth 0 xs 0%Qc)))) k
             (delta (spacings xs) 0) (delta (spacings xs) 1)
             (entry out k 0) (entry out k 1)
         /\ entry updated k (N - 1)
            = edge_value (up next_time (ArgGrid (Vec xs :: grest))) k
                (delta (spacings xs) (N - 2)) (delta (spacings xs) (N - 3))
                (entry out k (N - 3)) (entry out k (N - 4)).
Proof.
  intros HN Hxs Hvg Htms Hlo Hup H.
  pose proof (has_shape2_mtab Hvg) as Ev.
  destruct (step_unfold K N time next_time xs grest (entry value_grid)
              ((lo, up) :: brest) so fo zo tms) as (f & E).
  rewrite <- Ev in E. rewrite E in H. clear E.
  exists (mtab K (N - 2) (fun k j => entry value_grid k (S j))), f.
  destruct (tms (mtab K (N - 2) (fun k j => entry value_grid k (S j)))
              next_time time f) as [out|e] eqn:Eo; [|discriminate].
  cbn [bind] in H.
  pose proof Eo as Ho. apply Htms in Ho; [|apply wf_mtab].
  rewrite shape_mtab in Ho. pose proof (has_shape2_mtab Ho) as Eout.
  exists out. split; [rewrite Ev at 1; apply last_slice_inner_mtab|].
  split; [reflexivity|].
  assert (Hupd : updated
            = mtab K (N - 2 + 2) (fun k j =>
                if j =? 0 then
                  edge_value (lo next_time (ArgTensor (Scalar (nth 0 xs 0%Qc))))
                    k (delta (spacings xs) 0) (delta (spacings xs) 1)
                    (entry out k 0) (entry out k 1)
                else if j <=? N - 2 then entry out k (j - 1)
                else
                  edge_value (up next_time (ArgGrid (Vec xs :: grest))) k
                    (delta (spacings xs) (length (spacings xs) - 1))
                    (delta (spacings xs) (length (spacings xs) - 2))
                    (entry out k (N - 2 - 1)) (entry out k (N - 2 - 2)))).
  { rewrite Eout in H.
    rewrite (@after_step_entries K (N - 2) (spacings xs) (entry out) lo up
               brest (Vec xs :: grest) (Vec xs) (Scalar (nth 0 xs 0%Qc))
               next_time) in H;
      try assumption;
      [ | lia | rewrite spacings_length; lia | apply item_cons_0
        | apply tensor_item_Vec_0; lia ].
    cbn [bind] in H. now injection H as _ <-. }
  rewrite Hupd. split.
  - rewrite last_slice_inner_mtab. replace (N - 2 + 2 - 2) with (N - 2) by lia.
    transitivity (Ok (mtab K (N - 2) (entry out)));
      [|now rewrite <- Eout].
    f_equal. apply mtab_ext. intros k j Hk Hj. cbn [Nat.eqb].
    destruct (Nat.leb_spec (S j) (N - 2)); [|lia]. f_equal. lia.
  - intros k Hk. rewrite !entry_mtab by lia. split; [reflexivity|].
    destruct (Nat.eqb_spec (N - 1) 0); [lia|].
    destruct (Nat.leb_spec (N - 1) (N - 2)); [lia|].
    rewrite spacings_length, Hxs.
    replace (N - 1 - 1) with (N - 2) by lia.
    replace (N - 1 - 2) with (N - 3) by lia.
    replace (N - 2 - 1) with (N - 3) by lia.
    replace (N - 2 - 2) with (N - 4) by lia.
    reflexivity.
Qed.

Lemma step_keeps_marching_output_witness :
  exists updated,
    parabolic_equation_step (num 1) (num 0) ex_grid ex_value_grid
      [(ex_robin_lower, ex_robin_upper)] (Some ex_second_order)
      (Some ex_first_order) (Some ex_zeroth_order) identity_scheme
    = Ok (ex_grid, updated)
    /\ last_slice (Some 1%Z) (Some (-1)%Z) updated
       = last_slice (Some 1%Z) (Some (-1)%Z) ex_value_grid.
Proof.
  destruct (parabolic_equation_step (num 1) (num 0) ex_grid ex_value_grid
              [(ex_robin_lower, ex_robin_upper)] (Some ex_second_order)
              (Some ex_first_order) (Some ex_zeroth_order) identity_scheme)
    as [[g u]|e] eqn:E; [|vm_compute in E; discriminate].
  destruct (@step_keeps_marching_output 2 4 (num 1) (num 0) ex_xs []
              ex_value_grid ex_robin_lower ex_robin_upper []
              (Some ex_second_order) (Some ex_first_order)
              (Some ex_zeroth_order) identity_scheme g u
              (le_n 4) eq_refl (conj eq_refl eq_refl)
              identity_scheme_preserves_shape eq_refl eq_refl E)
    as (inner & f & out & Hin & Hout & Hs & _).
  assert (g = ex_grid) as ->.
  { vm_compute in E. now injection E as <- _. }
  exists u. split; [reflexivity|].
  rewrite Hs, Hin. unfold identity_scheme in Hout. now rewrite Hout.
Defined.

(* ================================================================== *)
(** * The equation handed to the time-marching routine *)

(** The equation builder composes the stencil with the boundary
    corrections.  On a grid of at least four points it returns a
    tridiagonal matrix and an inhomogeneous term of the shape of the
    interior field; away from the first and last interior points the rows
    are the stencil's and the inhomogeneous term is zero; the first and last
    rows are the stencil's corrected by the rule of the lower and of the
    upper edge, taken with the spacings nearest to that edge. *)
Theorem equation_params_compose (K N : nat) (coord_grid : list tensor)
  (ds : list Qc) (value_grid : tensor) (lo up : bc_fn)
  (rest : list (bc_fn * bc_fn)) (sf : second_order_fn)
  (ff : first_order_fn) (zf : zeroth_order_fn) (t : Qc)
  (araw braw craw A B C : tensor)
  (ra1 : list (option tensor)) (ra2 : list (list (option tensor)))
  (rb : list (option tensor)) :
  4 <= N -> shape value_grid = [K; N] -> length ds = N - 1 ->
  sf t coord_grid = (Some araw :: ra1) :: ra2 ->
  ff t coord_grid = Some braw :: rb ->
  zf t coord_grid = Some craw ->
  broadcast_to araw [K; N] = Ok A ->
  broadcast_to braw [K; N] = Ok B ->
  broadcast_to craw [K; N] = Ok C ->
  edge_ok K (lo t (ArgGrid coord_grid)) = true ->
  edge_ok K (up t (ArgGrid coord_grid)) = true ->
  let D := fun k i => spec_diag (delta ds i) (delta ds (S i))
                        (entry A k (S i)) (entry B k (S i)) (entry C k (S i)) in
  let Up := fun k i => spec_upper (delta ds i) (delta ds (S i))
                         (entry A k (S i)) (entry B k (S i)) in
  let Lw := fun k i => spec_lower (delta ds i) (delta ds (S i))
                         (entry A k (S i)) (entry B k (S i)) in
  let L := lo t (ArgGrid coord_grid) in
  let U := up t (ArgGrid coord_grid) in
  exists diagonal upper lower inhomog,
    _construct_space_discretized_eqn_params coord_grid (Vec ds) value_grid
      ((lo, up) :: rest) (Some sf) (Some ff) (Some zf) t
    = Ok ((diagonal, upper, lower), inhomog)
    /\ has_shape diagonal [K; N - 2] /\ has_shape upper [K; N - 2]
    /\ has_shape lower [K; N - 2] /\ has_shape inhomog [K; N - 2]
    /\ forall k i, k < K -> i < N - 2 ->
         entry diagonal k i
         = (if i =? 0 then
              D k 0%nat + Lw k 0%nat * edge_xi1 L k (delta ds 0) (delta ds 1)
            else if i <? N - 3 then D k i
            else D k (N - 3)%nat
                 + Up k (N - 3)%nat
                   * edge_xi1 U k (delta ds (N - 2)) (delta ds (N - 3)))%Qc
         /\ entry upper k i
            = (if i =? 0 then
                 Up k 0%nat + Lw k 0%nat * edge_xi2 L k (delta ds 0) (delta ds 1)
               else Up k i)%Qc
         /\ entry lower k i
            = (if i <? N - 3 then Lw k i
               else Lw k (N - 3)%nat
                    + Up k (N - 3)%nat
                      * edge_xi2 U k (delta ds (N - 2)) (delta ds (N - 3)))%Qc
         /\ entry inhomog k i
            = (if i =? 0 then
                 Lw k 0%nat * edge_eta L k (delta ds 0) (delta ds 1)
               else if i <? N - 3 then 0
               else Up k (N - 3)%nat
                    * edge_eta U k (delta ds (N - 2)) (delta ds (N - 3)))%Qc.
Proof.
  intros HN Hvg Hds Hsf Hff Hzf HA HB HC Hlo Hup D Up Lw L U.
  unfold _construct_space_discretized_eqn_params.
  rewrite (stencil_entries coord_grid ds value_grid sf ff zf t Hvg Hds
             Hsf Hff Hzf HA HB HC).
  cbn [bind]. cbv beta iota. subst D Up Lw L U.
  rewrite (@injector_any_path K (N - 2) ds _ _ _ lo up rest coord_grid t)
    by (assumption || lia).
  cbv zeta. do 4 eexists. split; [reflexivity|].
  do 4 (split; [apply has_shape_mtab|]).
  intros k i Hk Hi. rewrite !entry_mtab by assumption.
  rewrite Hds.
  replace (N - 2 - 1) with (N - 3) by lia.
  replace (N - 1 - 1) with (N - 2) by lia.
  replace (N - 1 - 2) with (N - 3) by lia.
  repeat split; reflexivity.
Qed.

Lemma equation_params_compose_witness :
  exists diagonal upper lower inhomog,
    _construct_space_discretized_eqn_params ex_grid (Vec ex_ds) ex_value_grid
      [(ex_robin_lower, ex_robin_upper)] (Some ex_second_order)
      (Some ex_first_order) (Some ex_zeroth_order) (num 0)
    = Ok ((diagonal, upper, lower), inhomog)
    /\ has_shape diagonal [2; 2] /\ has_shape inhomog [2; 2].
Proof.
  destruct (@equation_params_compose 2 4 ex_grid ex_ds ex_value_grid
              ex_robin_lower ex_robin_upper [] ex_second_order ex_first_order
              ex_zeroth_order (num 0)
              (Scalar (num 1)) (Vec [num 1; num 2; num 3; num 4])
              (Mat 1 [[num 1]; [num 2]]) ex_A ex_B ex_C [] [] []
              (le_n 4) eq_refl eq_refl eq_refl eq_refl eq_refl eq_refl
              eq_refl eq_refl eq_refl eq_refl)
    as (d & u & l & r & E & Hd & _ & _ & Hr & _).
  exists d, u, l, r. split; [exact E|]. split; [exact Hd | exact Hr].
Defined.

(** A single interior point.  The shortcut for two Dirichlet edges puts
    the contribution of the lower edge before, and that of the upper edge
    after, the zeros of [diagonal[..., 1:-1]]; with one interior point
    these zeros are empty and the two contributions are not added: the
    inhomogeneous term has two columns for a matrix of one. *)
Theorem fast_path_single_interior_point (K : nat)
  (diagonal upper lower : tensor) (lo up : bc_fn)
  (rest : list (bc_fn * bc_fn)) (coord_grid : list tensor)
  (deltas alpha_l gamma_l alpha_u gamma_u : tensor) (t : Qc) :
  has_shape diagonal [K; 1] -> has_shape upper [K; 1] ->
  has_shape lower [K; 1] ->
  lo t (ArgGrid coord_grid) = (Some alpha_l, None, gamma_l) ->
  up t (ArgGrid coord_grid) = (Some alpha_u, None, gamma_u) ->
  batch_ok K alpha_l = true -> batch_ok K gamma_l = true ->
  batch_ok K alpha_u = true -> batch_ok K gamma_u = true ->
  exists inhomog,
    _apply_boundary_conditions_to_discretized_equation ((lo, up) :: rest)
      coord_grid deltas diagonal upper lower t
    = Ok ((diagonal, upper, lower), inhomog)
    /\ has_shape inhomog [K; 2]
    /\ forall k, k < K ->
         entry inhomog k 0
         = (entry lower k 0 * bget gamma_l k / bget alpha_l k)%Qc
         /\ entry inhomog k 1
            = (entry upper k 0 * bget gamma_u k / bget alpha_u k)%Qc.
Proof.
  intros Hd Hu Hl Hlo Hup Hal Hgl Hau Hgu.
  pose proof (@injector_fast_path K 1 (entry diagonal) (entry upper)
                (entry lower) lo up rest coord_grid deltas alpha_l gamma_l
                alpha_u gamma_u t (le_n 1) Hlo Hup Hal Hgl Hau Hgu) as E.
  rewrite <- (has_shape2_mtab Hd), <- (has_shape2_mtab Hu),
    <- (has_shape2_mtab Hl) in E.
  eexists. split; [exact E|]. split; [apply has_shape_mtab|].
  intros k Hk. rewrite !entry_mtab by (simpl; lia). split; reflexivity.
Qed.

Lemma fast_path_single_interior_point_witness :
  exists inhomog,
    _apply_boundary_conditions_to_discretized_equation
      [(ex_dirichlet_lower, ex_dirichlet_upper)] ex_small_grid
      (Vec [num 1; num 1]) (Mat 1 [[num 4]; [num 5]])
      (Mat 1 [[num 2]; [num 3]]) (Mat 1 [[num 6]; [num 7]]) (num 0)
    = Ok ((Mat 1 [[num 4]; [num 5]], Mat 1 [[num 2]; [num 3]],
           Mat 1 [[num 6]; [num 7]]), inhomog)
    /\ has_shape inhomog [2; 2].
Proof.
  destruct (ex_dirichlet_lower (num 0) (ArgGrid ex_small_grid))
    as [[al bl] gl] eqn:EL.
  destruct (ex_dirichlet_upper (num 0) (ArgGrid ex_small_grid))
    as [[au bu] gu] eqn:EU.
  vm_compute in EL, EU.
  injection EL as <- <- <-. injection EU as <- <- <-.
  destruct (@fast_path_single_interior_point 2
              (Mat 1 [[num 4]; [num 5]]) (Mat 1 [[num 2]; [num 3]])
              (Mat 1 [[num 6]; [num 7]])
              ex_dirichlet_lower ex_dirichlet_upper [] ex_small_grid
              (Vec [num 1; num 1]) _ _ _ _ (num 0)
              (conj eq_refl eq_refl) (conj eq_refl eq_refl)
              (conj eq_refl eq_refl) eq_refl eq_refl
              eq_refl eq_refl eq_refl eq_refl)
    as (r & E & Hr & _).
  exists r. split; [exact E | exact Hr].
Defined.

(** Without a pair of boundary conditions the step never returns: both
    the equation builder and the reconstruction of the boundary values
    read [boundary_conditions[0]]. *)
Theorem step_needs_boundary_conditions :
  (forall time next_time coord_grid value_grid so fo zo tms,
      is_ok (parabolic_equation_step time next_time coord_grid value_grid []
               so fo zo tms) = false)
  /\ (forall coord_grid deltas value_grid so fo zo t,
         is_ok (_construct_space_discretized_eqn_params coord_grid deltas
                  value_grid [] so fo zo t) = false).
Proof.
  split.
  - intros. unfold parabolic_equation_step. cbv zeta.
    destruct (last_slice _ _ value_grid); [|reflexivity]. cbn [bind].
    destruct (item coord_grid 0) as [g0|]; [|reflexivity]. cbn [bind].
    destruct (_ -! _); [|reflexivity]. cbn [bind].
    destruct (tms _ _ _ _); reflexivity.
  - intros. unfold _construct_space_discretized_eqn_params.
    destruct (space_discretized_stencil _ _ _ _ _ _ _) as [[[d u] l]|];
      reflexivity.
Qed.

(* ================================================================== *)
(** * Degenerate coefficients of a boundary condition *)

(** A missing [alpha] is the coefficient zero, and on positive spacings a
    [beta] that is zero is a missing [beta]: the Robin formulas with
    [alpha = 0] return what they return for [alpha = None], and with
    [beta = 0] and [alpha <> 0] they return the rule of the Dirichlet
    shortcut, [xi1 = xi2 = 0] and [eta = gamma / alpha]. *)
Theorem rule_degenerate_coefficients (dx0 dx1 : Qc) :
  (0 < dx0)%Qc -> (0 < dx1)%Qc ->
  (forall b g,
      _discretize_boundary_conditions (Scalar dx0) (Scalar dx1)
        (Some (Scalar 0%Qc)) (Some (Scalar b)) (Scalar g)
      = _discretize_boundary_conditions (Scalar dx0) (Scalar dx1)
          None (Some (Scalar b)) (Scalar g))
  /\ (forall a g, a <> 0%Qc ->
         _discretize_boundary_conditions (Scalar dx0) (Scalar dx1)
           (Some (Scalar a)) (Some (Scalar 0%Qc)) (Scalar g)
         = _discretize_boundary_conditions (Scalar dx0) (Scalar dx1)
             (Some (Scalar a)) None (Scalar g)
         /\ _discretize_boundary_conditions (Scalar dx0) (Scalar dx1)
              (Some (Scalar a)) None (Scalar g)
            = Ok (Scalar 0%Qc, Scalar 0%Qc, Scalar (g / a)%Qc)).
Proof.
  intros H0 H1.
  pose proof (Qc_pos_neq_0 H0) as N0.
  pose proof (Qc_pos_neq_0 H1) as N1.
  pose proof (Qc_pos_neq_0 (Qc_add_pos H0 H1)) as Ns.
  split.
  - intros b g. unfold _discretize_boundary_conditions.
    cbn [lift2 bind ret tmul tadd tdiv binop tneg tmap].
    assert (E : (b * dx1 * (two * dx0 + dx1) + 0 * dx0 * dx1 * (dx0 + dx1)
                 = b * dx1 * (two * dx0 + dx1))%Qc) by ring.
    now rewrite E.
  - intros a g Ha. split; [|reflexivity].
    unfold _discretize_boundary_conditions.
    cbn [lift2 bind ret tmul tadd tdiv binop tneg tmap zeros_like].
    apply f_equal. apply f_equal2; [apply f_equal2|]; apply f_equal.
    + unfold Qcdiv. ring.
    + unfold Qcdiv. ring.
    + unfold two. field. auto.
Qed.

Lemma rule_degenerate_coefficients_witness :
  _discretize_boundary_conditions (Scalar (num 1)) (Scalar (num 2))
    (Some (Scalar (num 3))) (Some (Scalar 0%Qc)) (Scalar (num 6))
  = Ok (Scalar 0%Qc, Scalar 0%Qc, Scalar (num 6 / num 3)%Qc).
Proof.
  destruct (@rule_degenerate_coefficients (num 1) (num 2) eq_refl eq_refl)
    as (_ & H).
  assert (Ha : num 3 <> 0%Qc) by discriminate.
  destruct (H (num 3) (num 6) Ha) as (E1 & E2).
  exact (eq_trans E1 E2).
Defined.

(* ================================================================== *)
(** * The size of the grid *)

Lemma equation_params_returns (K N : nat) (coord_grid : list tensor)
  (ds : list Qc) (value_grid : tensor) (lo up : bc_fn)
  (rest : list (bc_fn * bc_fn)) (sf : second_order_fn)
  (ff : first_order_fn) (zf : zeroth_order_fn) (t : Qc)
  (araw braw craw A B C : tensor)
  (ra1 : list (option tensor)) (ra2 : list (list (option tensor)))
  (rb : list (option tensor)) :
  4 <= N -> shape value_grid = [K; N] -> length ds = N - 1 ->
  sf t coord_grid = (Some araw :: ra1) :: ra2 ->
  ff t coord_grid = Some braw :: rb ->
  zf t coord_grid = Some craw ->
  broadcast_to araw [K; N] = Ok A ->
  broadcast_to braw [K; N] = Ok B ->
  broadcast_to craw [K; N] = Ok C ->
  edge_ok K (lo t (ArgGrid coord_grid)) = true ->
  edge_ok K (up t (ArgGrid coord_grid)) = true ->
  is_ok (_construct_space_discretized_eqn_params coord_grid (Vec ds)
           value_grid ((lo, up) :: rest) (Some sf) (Some ff) (Some zf) t)
  = true.
Proof.
  intros HN Hvg Hds Hsf Hff Hzf HA HB HC Hlo Hup.
  unfold _construct_space_discretized_eqn_params.
  rewrite (stencil_entries coord_grid ds value_grid sf ff zf t Hvg Hds
             Hsf Hff Hzf HA HB HC).
  cbn [bind]. cbv beta iota.
  rewrite (@injector_any_path K (N - 2) ds _ _ _ lo up rest coord_grid t)
    by (assumption || lia).
  reflexivity.
Qed.

Lemma injector_returns (K M : nat) (ds : list Qc)
  (diagonal upper lower : tensor) (lo up : bc_fn)
  (rest : list (bc_fn * bc_fn)) (coord_grid : list tensor) (t : Qc) :
  2 <= M -> 2 <= length ds ->
  has_shape diagonal [K; M] -> has_shape upper [K; M] ->
  has_shape lower [K; M] ->
  edge_ok K (lo t (ArgGrid coord_grid)) = true ->
  edge_ok K (up t (ArgGrid coord_grid)) = true ->
  is_ok (_apply_boundary_conditions_to_discretized_equation ((lo, up) :: rest)
           coord_grid (Vec ds) diagonal upper lower t) = true.
Proof.
  intros HM Hds Hd Hu Hl Hlo Hup.
  now rewrite (@injector_result K M ds diagonal upper lower lo up rest
                 coord_grid t HM Hds Hd Hu Hl Hlo Hup).
Qed.

Lemma after_step_returns (K N : nat) (xs : list Qc) (grest : list tensor)
  (out : tensor) (lo up : bc_fn) (rest : list (bc_fn * bc_fn)) (t : Qc) :
  4 <= N -> length xs = N -> has_shape out [K; N - 2] ->
  edge_ok K (lo t (ArgTensor (Scalar (nth 0 xs 0%Qc)))) = true ->
  edge_ok K (up t (ArgGrid (Vec xs :: grest))) = true ->
  is_ok (_apply_boundary_conditions_after_step out ((lo, up) :: rest)
           (Vec xs :: grest) (Vec (spacings xs)) t) = true.
Proof.
  intros HN Hxs Hout Hlo Hup.
  rewrite (has_shape2_mtab Hout).
  rewrite (@after_step_entries K (N - 2) (spacings xs) (entry out) lo up rest
             (Vec xs :: grest) (Vec xs) (Scalar (nth 0 xs 0%Qc)) t);
    try assumption;
    [ reflexivity | lia | rewrite spacings_length; lia | apply item_cons_0
      | apply tensor_item_Vec_0; lia ].
Qed.

(** On fewer than four points the reconstruction of the boundary values
    reads outside the grid, its spacings or the interior field. *)
Lemma after_step_out_of_range (K : nat) (xs : list Qc) (grest : list tensor)
  (g : nat -> nat -> Qc) (lo up : bc_fn) (rest : list (bc_fn * bc_fn))
  (t : Qc) :
  length xs < 4 ->
  edge_ok K (lo t (ArgTensor (Scalar (nth 0 xs 0%Qc)))) = true ->
  _apply_boundary_conditions_after_step (mtab K (length xs - 2) g)
    ((lo, up) :: rest) (Vec xs :: grest) (Vec (spacings xs)) t
  = Err IndexOutOfRange.
Proof.
  intros HN Hlo. unfold _apply_boundary_conditions_after_step.
  rewrite !item_cons_0. cbn [bind fst snd].
  destruct xs as [|x0 [|x1 [|x2 [|x3 xs]]]]; [ | | | | simpl in HN; lia].
  - reflexivity.
  - rewrite tensor_item_Vec_0 by (simpl; lia). cbn [bind].
    destruct (lo t _) as [[al bl] gl]. reflexivity.
  - rewrite tensor_item_Vec_0 by (simpl; lia). cbn [bind].
    destruct (lo t _) as [[al bl] gl]. reflexivity.
  - rewrite tensor_item_Vec_0 by (simpl; lia). cbn [bind].
    destruct (lo t _) as [[al bl] gl].
    set (ds := spacings [x0; x1; x2]).
    assert (Hds : length ds = 2) by reflexivity.
    rewrite (Vec_is_vtab ds).
    rewrite tensor_item_vtab_0, tensor_item_vtab_1 by lia.
    cbn [bind].
    destruct (discretize_edge K (nth 0 ds 0%Qc) (nth 1 ds 0%Qc) al bl gl Hlo)
      as (xi1 & xi2 & eta & -> & H1 & H2 & H3 & _).
    cbn [bind].
    change (length [x0; x1; x2] - 2) with 1.
    rewrite last_item_mtab_0 by lia.
    rewrite (@last_item_mtab_out K 1 g 1) by reflexivity.
    unfold ret, tmul. rewrite lift2_Ok.
    rewrite (binop_batch_vtab Qcmult K xi1 _ H1).
    reflexivity.
Qed.

Lemma step_out_of_range (K : nat) (time next_time : Qc) (xs : list Qc)
  (grest : list tensor) (value_grid : tensor) (lo up : bc_fn)
  (brest : list (bc_fn * bc_fn)) (so : option second_order_fn)
  (fo : option first_order_fn) (zo : option zeroth_order_fn)
  (tms : marching_scheme) :
  length xs < 4 -> has_shape value_grid [K; length xs] ->
  marching_preserves_shape tms ->
  (forall v f, is_ok (tms v next_time time f) = true) ->
  edge_ok K (lo next_time (ArgTensor (Scalar (nth 0 xs 0%Qc)))) = true ->
  parabolic_equation_step time next_time (Vec xs :: grest) value_grid
    ((lo, up) :: brest) so fo zo tms
  = Err IndexOutOfRange.
Proof.
  intros HN Hvg Htms Hret Hlo.
  rewrite (has_shape2_mtab Hvg).
  destruct (step_unfold K (length xs) time next_time xs grest
              (entry value_grid) ((lo, up) :: brest) so fo zo tms)
    as (f & ->).
  specialize (Hret (mtab K (length xs - 2)
                      (fun k j => entry value_grid k (S j))) f).
  destruct (tms (mtab K (length xs - 2) (fun k j => entry value_grid k (S j)))
              next_time time f) as [out|e] eqn:E; [|discriminate].
  cbn [bind]. apply Htms in E; [|apply wf_mtab]. rewrite shape_mtab in E.
  rewrite (has_shape2_mtab E).
  now rewrite after_step_out_of_range.
Qed.

Lemma step_evaluating_returns (K N : nat) (time next_time : Qc)
  (xs : list Qc) (grest : list tensor) (value_grid : tensor) (lo up : bc_fn)
  (brest : list (bc_fn * bc_fn)) (sf : second_order_fn)
  (ff : first_order_fn) (zf : zeroth_order_fn)
  (araw braw craw A B C : tensor)
  (ra1 : list (option tensor)) (ra2 : list (list (option tensor)))
  (rb : list (option tensor)) :
  4 <= N -> length xs = N -> has_shape value_grid [K; N] ->
  sf next_time (Vec xs :: grest) = (Some araw :: ra1) :: ra2 ->
  ff next_time (Vec xs :: grest) = Some braw :: rb ->
  zf next_time (Vec xs :: grest) = Some craw ->
  broadcast_to araw [K; N] = Ok A ->
  broadcast_to braw [K; N] = Ok B ->
  broadcast_to craw [K; N] = Ok C ->
  edge_ok K (lo next_time (ArgGrid (Vec xs :: grest))) = true ->
  edge_ok K (lo next_time (ArgTensor (Scalar (nth 0 xs 0%Qc)))) = true ->
  edge_ok K (up next_time (ArgGrid (Vec xs :: grest))) = true ->
  is_ok (parabolic_equation_step time next_time (Vec xs :: grest) value_grid
           ((lo, up) :: brest) (Some sf) (Some ff) (Some zf)
           evaluating_scheme) = true.
Proof.
  intros HN Hxs Hvg Hsf Hff Hzf HA HB HC Hlg Hlo Hup.
  pose proof (@equation_params_returns K N (Vec xs :: grest) (spacings xs)
                value_grid lo up brest sf ff zf next_time araw braw craw
                A B C ra1 ra2 rb HN (proj1 Hvg)
                ltac:(rewrite spacings_length; lia)
                Hsf Hff Hzf HA HB HC Hlg Hup) as Hc.
  unfold parabolic_equation_step. cbv zeta. cbn [py_or].
  rewrite (has_shape2_mtab Hvg) at 1.
  rewrite last_slice_inner_mtab, item_cons_0. cbn [bind].
  rewrite grid_deltas_tab. cbn [bind]. unfold evaluating_scheme.
  destruct (_construct_space_discretized_eqn_params _ _ _ _ _ _ _ _)
    as [p|e]; [clear Hc|discriminate Hc].
  cbn [bind].
  rewrite (@after_step_entries K (N - 2) (spacings xs) _ lo up brest
             (Vec xs :: grest) (Vec xs) (Scalar (nth 0 xs 0%Qc)) next_time);
    try assumption;
    [ reflexivity | lia | rewrite spacings_length; lia | apply item_cons_0
      | apply tensor_item_Vec_0; lia ].
Qed.

(** C10. For a grid of [N] points and a value field of shape [[K, N]],
    let [deltas] be the spacings and [inner] the interior field that the
    step computes.  When [N >= 4], [deltas[1]], [deltas[-2]],
    [inner[..., 1]] and [inner[..., -2]] are in range, and so is every
    index and slice that the step takes: the injection of the boundary
    conditions into a matrix of the shape of [inner] returns, the
    reconstruction of the boundary values around a field of the shape of
    [inner] returns, the step returns for every time-marching routine that
    returns, and it returns when the routine evaluates the equation.  When
    [N < 4], one of [deltas[1]] and [inner[..., 1]] is out of range, the
    step raises whatever the other inputs are, and with a routine that
    returns and a usable lower boundary condition what it raises is the
    index error. *)
Theorem grid_needs_four_points (K : nat) (xs : list Qc) (value_grid : tensor) :
  has_shape value_grid [K; length xs] ->
  exists deltas inner,
    tensor_slice (Some 1%Z) None (Vec xs)
      -! tensor_slice None (Some (-1)%Z) (Vec xs) = Ok deltas
    /\ last_slice (Some 1%Z) (Some (-1)%Z) value_grid = Ok inner
    /\ (4 <= length xs ->
        is_ok (tensor_item deltas 1) = true
        /\ is_ok (tensor_item deltas (-2)) = true
        /\ is_ok (last_item inner 1) = true
        /\ is_ok (last_item inner (-2)) = true)
    /\ (length xs < 4 ->
        tensor_item deltas 1 = Err IndexOutOfRange
        \/ last_item inner 1 = Err IndexOutOfRange)
    /\ (length xs < 4 ->
        forall time next_time grest bcs so fo zo tms,
          marching_preserves_shape tms ->
          exists e,
            parabolic_equation_step time next_time (Vec xs :: grest)
              value_grid bcs so fo zo tms = Err e)
    /\ (4 <= length xs ->
        forall t grest (lo up : bc_fn) (brest : list (bc_fn * bc_fn))
               diagonal upper lower,
          edge_ok K (lo t (ArgGrid (Vec xs :: grest))) = true ->
          edge_ok K (up t (ArgGrid (Vec xs :: grest))) = true ->
          has_shape diagonal (shape inner) ->
          has_shape upper (shape inner) ->
          has_shape lower (shape inner) ->
          is_ok (_apply_boundary_conditions_to_discretized_equation
                   ((lo, up) :: brest) (Vec xs :: grest) deltas
                   diagonal upper lower t) = true)
    /\ (4 <= length xs ->
        forall t grest (lo up : bc_fn) (brest : list (bc_fn * bc_fn)) out,
          edge_ok K (lo t (ArgTensor (Scalar (nth 0 xs 0%Qc)))) = true ->
          edge_ok K (up t (ArgGrid (Vec xs :: grest))) = true ->
          has_shape out (shape inner) ->
          is_ok (_apply_boundary_conditions_after_step out
                   ((lo, up) :: brest) (Vec xs :: grest) deltas t) = true)
    /\ (4 <= length xs ->
        forall time next_time grest (lo up : bc_fn)
               (brest : list (bc_fn * bc_fn)) so fo zo tms,
          marching_preserves_shape tms ->
          (forall v f, is_ok (tms v next_time time f) = true) ->
          edge_ok K (lo next_time (ArgTensor (Scalar (nth 0 xs 0%Qc)))) = true ->
          edge_ok K (up next_time (ArgGrid (Vec xs :: grest))) = true ->
          is_ok (parabolic_equation_step time next_time (Vec xs :: grest)
                   value_grid ((lo, up) :: brest) so fo zo tms) = true)
    /\ (4 <= length xs ->
        forall time next_time grest (lo up : bc_fn)
               (brest : list (bc_fn * bc_fn))
               (sf : second_order_fn) (ff : first_order_fn)
               (zf : zeroth_order_fn) araw braw craw A B C ra1 ra2 rb,
          sf next_time (Vec xs :: grest) = (Some araw :: ra1) :: ra2 ->
          ff next_time (Vec xs :: grest) = Some braw :: rb ->
          zf next_time (Vec xs :: grest) = Some craw ->
          broadcast_to araw [K; length xs] = Ok A ->
          broadcast_to braw [K; length xs] = Ok B ->
          broadcast_to craw [K; length xs] = Ok C ->
          edge_ok K (lo next_time (ArgGrid (Vec xs :: grest))) = true ->
          edge_ok K (lo next_time (ArgTensor (Scalar (nth 0 xs 0%Qc)))) = true ->
          edge_ok K (up next_time (ArgGrid (Vec xs :: grest))) = true ->
          is_ok (parabolic_equation_step time next_time (Vec xs :: grest)
                   value_grid ((lo, up) :: brest) (Some sf) (Some ff)
                   (Some zf) evaluating_scheme) = true)
    /\ (length xs < 4 ->
        forall time next_time grest (lo up : bc_fn)
               (brest : list (bc_fn * bc_fn)) so fo zo tms,
          marching_preserves_shape tms ->
          (forall v f, is_ok (tms v next_time time f) = true) ->
          edge_ok K (lo next_time (ArgTensor (Scalar (nth 0 xs 0%Qc)))) = true ->
          parabolic_equation_step time next_time (Vec xs :: grest)
            value_grid ((lo, up) :: brest) so fo zo tms
          = Err IndexOutOfRange).
Proof.
  intros Hvg. set (N := length xs) in *.
  exists (Vec (spacings xs)),
    (mtab K (N - 2) (fun k j => entry value_grid k (S j))).
  split; [apply grid_deltas_tab|].
  split; [rewrite (has_shape2_mtab Hvg) at 1; apply last_slice_inner_mtab|].
  rewrite shape_mtab.
  split; [|split; [|split; [|split; [|split; [|split; [|split]]]]]].
  - intros HN.
    change (Vec (spacings xs))
      with (vtab (N - 1) (fun i => (nth (S i) xs 0 - nth i xs 0)%Qc)).
    rewrite tensor_item_vtab_1, tensor_item_vtab_m2 by lia.
    rewrite last_item_mtab_1, last_item_mtab_m2 by lia.
    repeat split.
  - intros HN.
    change (Vec (spacings xs))
      with (vtab (N - 1) (fun i => (nth (S i) xs 0 - nth i xs 0)%Qc)).
    destruct (Nat.le_gt_cases N 2) as [H2|H2].
    + left. apply tensor_item_vtab_out.
      apply (@norm_index_out_nat (N - 1) 1). lia.
    + right. apply last_item_mtab_out.
      apply (@norm_index_out_nat (N - 2) 1). lia.
  - intros HN time next_time grest bcs so fo zo tms Htms.
    destruct (parabolic_equation_step time next_time (Vec xs :: grest)
                value_grid bcs so fo zo tms) as [[g' v']|e] eqn:E.
    + destruct (@step_ok_inv K N time next_time (Vec xs :: grest) value_grid
                  bcs so fo zo tms g' v' Hvg Htms E) as (_ & H4 & _).
      lia.
    + now exists e.
  - intros HN t grest lo up brest diagonal upper lower Hlo Hup Hd Hu Hl.
    apply (@injector_returns K (N - 2)); try assumption; try lia.
    rewrite spacings_length. fold N. lia.
  - intros HN t grest lo up brest out Hlo Hup Hout.
    now apply (@after_step_returns K N).
  - intros HN time next_time grest lo up brest so fo zo tms Htms Hret
      Hlo Hup.
    destruct (@step_returns K N time next_time xs grest value_grid lo up
                brest so fo zo tms HN eq_refl Hvg Htms Hret Hlo Hup)
      as (updated & -> & _).
    reflexivity.
  - intros HN time next_time grest lo up brest sf ff zf araw braw craw
      A B C ra1 ra2 rb Hsf Hff Hzf HA HB HC Hlg Hlo Hup.
    now apply (@step_evaluating_returns K N time next_time xs grest
                 value_grid lo up brest sf ff zf araw braw craw A B C
                 ra1 ra2 rb).
  - intros HN time next_time grest lo up brest so fo zo tms Htms Hret Hlo.
    now apply (@step_out_of_range K).
Qed.

Lemma grid_needs_four_points_witness :
  has_shape ex_value_grid [2; length ex_xs]
  /\ has_shape ex_small_value_grid [1; length [num 0; num 1; num 2]]
  /\ (exists deltas inner,
         tensor_slice (Some 1%Z) None (Vec ex_xs)
           -! tensor_slice None (Some (-1)%Z) (Vec ex_xs) = Ok deltas
         /\ last_slice (Some 1%Z) (Some (-1)%Z) ex_value_grid = Ok inner
         /\ is_ok (tensor_item deltas 1) = true
         /\ is_ok (tensor_item deltas (-2)) = true
         /\ is_ok (last_item inner 1) = true
         /\ is_ok (last_item inner (-2)) = true
         /\ is_ok (_apply_boundary_conditions_after_step inner
                     [(ex_robin_lower, ex_robin_upper)] ex_grid deltas
                     (num 0)) = true
         /\ is_ok (parabolic_equation_step (num 1) (num 0) ex_grid
                     ex_value_grid [(ex_robin_lower, ex_robin_upper)]
                     (Some ex_second_order) (Some ex_first_order)
                     (Some ex_zeroth_order) evaluating_scheme) = true)
  /\ (exists deltas inner,
         tensor_slice (Some 1%Z) None (Vec [num 0; num 1; num 2])
           -! tensor_slice None (Some (-1)%Z) (Vec [num 0; num 1; num 2])
         = Ok deltas
         /\ last_slice (Some 1%Z) (Some (-1)%Z) ex_small_value_grid = Ok inner
         /\ (tensor_item deltas 1 = Err IndexOutOfRange
             \/ last_item inner 1 = Err IndexOutOfRange)
         /\ parabolic_equation_step (num 1) (num 0) ex_small_grid
              ex_small_value_grid [(ex_robin_lower, ex_dirichlet_upper)]
              None None None identity_scheme
            = Err IndexOutOfRange).
Proof.
  split; [split; reflexivity|]. split; [split; reflexivity|]. split.
  - destruct (@grid_needs_four_points 2 ex_xs ex_value_grid
                (conj eq_refl eq_refl))
      as (d & i & Ed & Ei & H4 & _ & _ & _ & Ha & _ & He & _).
    exists d, i. split; [exact Ed|]. split; [exact Ei|].
    destruct (H4 (le_n 4)) as (I1 & I2 & I3 & I4).
    do 4 (split; [assumption|]). split.
    + apply (Ha (le_n 4) (num 0) [] ex_robin_lower ex_robin_upper []);
        try reflexivity.
      injection Ei as <-. split; reflexivity.
    + exact (He (le_n 4) (num 1) (num 0) [] ex_robin_lower ex_robin_upper []
               ex_second_order ex_first_order ex_zeroth_order
               (Scalar (num 1)) (Vec [num 1; num 2; num 3; num 4])
               (Mat 1 [[num 1]; [num 2]]) ex_A ex_B ex_C [] [] []
               eq_refl eq_refl eq_refl eq_refl eq_refl eq_refl
               eq_refl eq_refl eq_refl).
  - destruct (@grid_needs_four_points 1 [num 0; num 1; num 2]
                ex_small_value_grid (conj eq_refl eq_refl))
      as (d & i & Ed & Ei & _ & H3 & _ & _ & _ & _ & _ & Hr).
    exists d, i. split; [exact Ed|]. split; [exact Ei|].
    split; [exact (H3 (le_n 4))|].
    exact (Hr (le_n 4) (num 1) (num 0) [] ex_robin_lower ex_dirichlet_upper
             [] None None None identity_scheme
             identity_scheme_preserves_shape (fun _ _ => eq_refl) eq_refl).
Defined.
